(** * DeepDFT data pipeline: a shallow embedding of [deepdft/dataset.py]

    The development follows the layout of the Python module: the grid
    slicing of [DensityGridIterator], its ordered consumer, the neighbour
    index selection and the graph builders, the batch collator and the
    rotating pool.

    Conventions.
    - Python integers are [Z] (or [nat] where the code only ever counts up
      from zero).  Coordinates, distances and densities are exact
      rationals [Qc]: the rounding of float64 sums and products of
      coordinates, and NaN, are outside the model, and what is proved of
      distances is proved in exact arithmetic.  Where the code decides an
      integer through a float64 (the number of slices, the size of the
      validation set), the rounding is modelled, in [Float].
    - A Python exception is a value of [exn]; a function that can raise
      returns [result].
    - Python dictionaries are stdpp finite maps. *)

From Stdlib Require Import ZArith QArith Qround Qcanon Lia Lqa.
From stdpp Require Import base tactics option list list_numbers numbers
  countable strings gmap fin_maps fin_map_dom sets.

Set Default Proof Using "Type".
Local Open Scope Z_scope.

(** ** Python exceptions and fallible computations *)

Module Py.

Inductive exn : Type :=
  | KeyError (key : string)
  | IndexError
  | ValueError
  | OverflowError
  | AttributeError
  | AssertionError (msg : string).

Inductive result (A : Type) : Type :=
  | Ok (a : A)
  | Raise (e : exn).
Arguments Ok {A} a.
Arguments Raise {A} e.

Definition bind {A B} (m : result A) (k : A → result B) : result B :=
  match m with
  | Ok a => k a
  | Raise e => Raise e
  end.

Definition is_ok {A} (m : result A) : Prop := ∃ a, m = Ok a.

(** [[f(x) for x in l]]: evaluated left to right, the first exception
    aborts the comprehension. *)
Fixpoint comprehension {A B} (f : A → result B) (l : list A) : result (list B) :=
  match l with
  | [] => Ok []
  | x :: l' =>
      match f x with
      | Raise e => Raise e
      | Ok y =>
          match comprehension f l' with
          | Raise e => Raise e
          | Ok ys => Ok (y :: ys)
          end
      end
  end.

End Py.
Import Py.

(** Statements in sequence, any of which may raise. *)
Notation "x <- m ; k" := (Py.bind m (λ x, k))
  (at level 20, m at level 100, k at level 200, only parsing).
Notation "' p <- m ; k" := (Py.bind m (λ x, let 'p := x in k))
  (at level 20, p pattern, m at level 100, k at level 200, only parsing).

(** * Doubles

    [num_slices] and [split_data] divide and multiply integers in
    float64.  A double is held here by its exact value; only conversions
    of integers, one quotient and one product occur, all of them positive
    and far inside the exponent range, so rounding to 53 significant bits
    (to nearest, ties to even) is all there is to model. *)
Module Float.

(** The positive integer [N] rounded to 53 significant bits ([N] stands
    for the exact value [N * 2^k] of an integer or a product, and the
    result for the double nearest to it). *)
Definition round53 (N : Z) : Z :=
  let s := (Z.log2 N - 52)%Z in
  if decide (s ≤ 0)%Z then N else
  let P := (2 ^ s)%Z in
  let q := (N / P)%Z in
  let rem := (N mod P)%Z in
  if decide (P < 2 * rem)%Z then ((q + 1) * P)%Z
  else if decide (2 * rem = P)%Z
       then (if Z.even q then q * P else (q + 1) * P)%Z
       else (q * P)%Z.

(** [float(n)] for a Python or NumPy integer. *)
Definition of_int (n : Z) : Z := (Z.sgn n * round53 (Z.abs n))%Z.

(** The quotient [a / b] of two positive integers rounded to 53
    significant bits.  The exponent [e] is the one for which the scaled
    quotient [q] has 53 bits; the remainder decides the rounding. *)
Definition div53 (a b : Z) : Q :=
  if decide (a ≤ 0)%Z then 0%Q else
  let e0 := (Z.log2 a - Z.log2 b - 52)%Z in
  let e := if decide (a * 2 ^ Z.max 0 (- e0) < 2 ^ 52 * (b * 2 ^ Z.max 0 e0))%Z
           then (e0 - 1)%Z else e0 in
  let A := (a * 2 ^ Z.max 0 (- e))%Z in
  let B := (b * 2 ^ Z.max 0 e)%Z in
  let q := (A / B)%Z in
  let rem := (A mod B)%Z in
  let m := if decide (B < 2 * rem)%Z then (q + 1)%Z
           else if decide (2 * rem = B)%Z
                then (if Z.even q then q else q + 1)%Z
                else q in
  if decide (0 ≤ e)%Z then inject_Z (m * 2 ^ e) else m # Z.to_pos (2 ^ (- e)).

(** [x / y] for two doubles with integer values, [y] not zero. *)
Definition truediv (x y : Z) : Q :=
  let q := div53 (Z.abs x) (Z.abs y) in
  if decide (Z.sgn x * Z.sgn y < 0)%Z then Qopp q else q.

(** The double written [0.05]: [0x1999999999999A * 2^-57]. *)
Definition mantissa_0_05 : Z := 7205759403792794.
Definition scale_0_05 : positive := 2 ^ 57.

(** [n * 0.05] for an int [n >= 0]: [n] is converted to a double, and the
    product is rounded. *)
Definition int_times_0_05 (n : Z) : Q :=
  round53 (round53 n * mantissa_0_05) # scale_0_05.

End Float.

(** ** Grid slicing ([DensityGridIterator.__init__], [static_get_slice]) *)

Module GridSlice.

(** [np.prod(meshgrid.shape[0:3])] *)
Definition np_prod (shape : list Z) : Z := foldr Z.mul 1 shape.

(** [np.arange(start, stop)] on integers: empty when [stop <= start]. *)
Definition np_arange (start stop : Z) : list Z := seqZ start (stop - start).

(** [range(n)] *)
Definition py_range (n : Z) : list Z := seqZ 0 n.

(** [int(math.ceil(num_positions / probe_count))].  [num_positions] is
    an [np.int64] and [probe_count] an int: both are converted to float64
    and the quotient is a float64.  A zero divisor yields [inf] or [nan],
    on which [math.ceil] raises.  (Operands beyond the int64 range, where
    the conversion is not this one, are outside the model.) *)
Definition num_slices (num_positions probe_count : Z) : result Z :=
  if decide (probe_count = 0) then
    if decide (num_positions = 0) then Raise ValueError else Raise OverflowError
  else Ok (Qceiling (Float.truediv (Float.of_int num_positions)
                                   (Float.of_int probe_count))).

(** The first line of [static_get_slice]:
    [np.arange(slice_index*probe_count,
               min((slice_index+1)*probe_count, num_positions))]. *)
Definition flat_index (slice_index probe_count num_positions : Z) : list Z :=
  np_arange (slice_index * probe_count)
            (Z.min ((slice_index + 1) * probe_count) num_positions).

(** [np.unravel_index(i, (nx, ny, nz))] in C (row-major) order; an index
    outside [0 .. nx*ny*nz) raises [ValueError]. *)
Definition unravel_index (i : Z) (shape : Z * Z * Z) : result (Z * Z * Z) :=
  let '(nx, ny, nz) := shape in
  if decide (0 ≤ i < nx * ny * nz) then
    Ok (i `div` (ny * nz), (i `div` nz) `mod` ny, i `mod` nz)
  else Raise ValueError.

(** Row-major flattening of a grid position, the inverse of
    [unravel_index]. *)
Definition ravel (p : Z * Z * Z) (shape : Z * Z * Z) : Z :=
  let '(x, y, z) := p in
  let '(_, ny, nz) := shape in
  (x * ny + y) * nz + z.

(** [pos_index = np.unravel_index(flat_index, meshgrid.shape[0:3])] *)
Definition pos_index (slice_index probe_count : Z) (shape : Z * Z * Z)
  : result (list (Z * Z * Z)) :=
  let '(nx, ny, nz) := shape in
  comprehension (λ i, unravel_index i shape)
    (flat_index slice_index probe_count (np_prod [nx; ny; nz])).

(** All flat indices handed out by the iterator, in slice order. *)
Definition all_flat_indices (probe_count num_positions : Z) : result (list Z) :=
  n <- num_slices num_positions probe_count ;
  Ok (concat ((λ k, flat_index k probe_count num_positions) <$> py_range n)).

End GridSlice.

(** ** The ordered consumer ([DensityGridIterator.__iter__], [__next__]) *)

Module GridIterator.
Section iterator.
Local Open Scope nat_scope.

(** [Res] is the dictionary [static_get_slice] returns, [Tensor] the same
    dictionary after [{k: torch.tensor(v) for k, v in res.items()}]. *)
Context {Res Tensor : Type}.
Variable to_torch : Res → Tensor.
(** What a worker computes for a slice id:
    [DensityGridIterator.static_get_slice(slice_id, ...)]. *)
Variable static_get_slice : nat → Res.

(** The iterator object.  [result_queue] holds, oldest first, the pairs
    the workers put on the result channel and the consumer has not yet
    taken. *)
Record state : Type := State {
  current_slice : nat;
  num_slices : nat;
  finished_slices : gmap nat Tensor;
  result_queue : list (nat * Res);
}.

(** What one call of [__next__] does: return a value, raise
    [StopIteration], raise something else, or wait for ever on
    [result_queue.get()] because nothing more arrives. *)
Inductive outcome : Type :=
  | Yield (res : Tensor) (s : state)
  | StopIteration (s : state)
  | Error (e : exn)
  | Blocked.

(** [grid_iterator_worker], seen from the result channel: the workers
    take the slice ids and put [(slice_id, res)]; [order] is the order in
    which these pairs arrive. *)
Definition worker_results (order : list nat) : list (nat * Res) :=
  (λ slice_id, (slice_id, static_get_slice slice_id)) <$> order.

(** [__iter__], with the arrival order of the results made explicit. *)
Definition iter (n : nat) (order : list nat) : state :=
  {| current_slice := 0;
     num_slices := n;
     finished_slices := ∅;
     result_queue := worker_results order |}.

(** The loop
    [while this_slice not in self.finished_slices:
         i, res = self.result_queue.get()
         self.finished_slices[i] = to_torch(res)].
    Each turn takes one pair from the channel; [None] when the channel
    runs dry before [this_slice] has arrived. *)
Fixpoint retrieve (this_slice : nat) (finished : gmap nat Tensor)
    (queue : list (nat * Res)) {struct queue}
  : option (gmap nat Tensor * list (nat * Res)) :=
  if decide (is_Some (finished !! this_slice)) then Some (finished, queue)
  else
    match queue with
    | [] => None
    | (i, res) :: queue' =>
        retrieve this_slice (<[i := to_torch res]> finished) queue'
    end.

(** [__next__] *)
Definition next (s : state) : outcome :=
  if decide (current_slice s < num_slices s) then
    let this_slice := current_slice s in
    match retrieve this_slice (finished_slices s) (result_queue s) with
    | None => Blocked
    | Some (finished, queue) =>
        (* [self.finished_slices.pop(this_slice)] *)
        match finished !! this_slice with
        | None => Error (KeyError "this_slice")
        | Some res =>
            Yield res {| current_slice := S this_slice;
                         num_slices := num_slices s;
                         finished_slices := delete this_slice finished;
                         result_queue := queue |}
        end
    end
  else StopIteration s.

(** [list(iterator)]: call [__next__] until it raises [StopIteration].
    [fuel] bounds the number of calls. *)
Fixpoint collect (fuel : nat) (s : state) : option (list Tensor * state) :=
  match fuel with
  | O => None
  | S fuel' =>
      match next s with
      | Yield res s' =>
          match collect fuel' s' with
          | Some (rs, s'') => Some (res :: rs, s'')
          | None => None
          end
      | StopIteration s' => Some ([], s')
      | Error _ | Blocked => None
      end
  end.

End iterator.
End GridIterator.

(** ** The rotating pool ([RotatingPoolData], [rotating_pool_worker],
       [transfer_thread]) *)

Module RotatingPool.
Section pool.
Local Open Scope nat_scope.
Context {Sample : Type}.

(** The parent dataset, through the two methods the pool uses:
    [len(dataset)] and [dataset[index]] (which reads a file and may
    raise). *)
Record dataset : Type := Dataset {
  ds_len : nat;
  ds_getitem : nat → result Sample;
}.

Variable parent_data : dataset.

(** The pool object together with the state of its two background
    loops.  [loader_queue] is [multiprocessing.Queue(2)], oldest item
    first; [pending] is what is left of the producer's current
    permutation; [transfer_index] is the slot the transfer thread writes
    next. *)
Record state : Type := State {
  pool_size : nat;
  data_pool : list Sample;
  loader_queue : list Sample;
  pending : list nat;
  transfer_index : nat;
  started : bool;
}.

Definition queue_capacity : nat := 2.

(** [rng.integers(0, high=len(parent), size=pool_size, endpoint=False)].
    The generator is outside the model: [draws] is the array it returned,
    and this is all the code relies on about it. *)
Definition rng_integers (high size : nat) (draws : list nat) : Prop :=
  length draws = size ∧ Forall (λ i, i < high) draws.

(** [rng.permutation(len(dataset))] *)
Definition rng_permutation (n : nat) (perm : list nat) : Prop :=
  perm ≡ₚ seq 0 n.

(** The list comprehension of [__init__]:
    [[self.parent_data[i] for i in self.rng.integers(...)]]. *)
Definition fill_pool (draws : list nat) : result (list Sample) :=
  comprehension (ds_getitem parent_data) draws.

(** [__init__]: the pool is filled first; only then are the queue
    created and the loader process and the transfer thread started.
    With an empty parent [rng.integers] raises ([high <= 0]). *)
Definition init (size : nat) (draws : list nat) : result state :=
  if decide (ds_len parent_data = 0) then Raise ValueError
  else
    pool <- fill_pool draws ;
    Ok {| pool_size := size; data_pool := pool; loader_queue := [];
          pending := []; transfer_index := 0; started := true |}.

(** [__len__] *)
Definition len (s : state) : nat := pool_size s.

(** [__getitem__]: Python list indexing, negative indices count from
    the end. *)
Definition getitem (s : state) (index : Z) : result Sample :=
  let n := Z.of_nat (length (data_pool s)) in
  let i := if decide (index < 0)%Z then (index + n)%Z else index in
  if decide (0 ≤ i < n)%Z then
    match data_pool s !! Z.to_nat i with
    | Some x => Ok x
    | None => Raise IndexError
    end
  else Raise IndexError.

(** One atomic action of a background loop.
    - [step_permute]: the producer has exhausted its permutation and
      draws the next one.
    - [step_put]: the producer loads [dataset[index]] and puts it on the
      queue, which has room.
    - [step_transfer]: the transfer thread takes the oldest item and
      stores it with [datalist[index] = queue.get()], then moves to the
      next slot, starting over after the last one. *)
Inductive step : state → state → Prop :=
  | step_permute s perm :
      started s = true → pending s = [] →
      rng_permutation (ds_len parent_data) perm →
      step s {| pool_size := pool_size s; data_pool := data_pool s;
                loader_queue := loader_queue s; pending := perm;
                transfer_index := transfer_index s; started := true |}
  | step_put s index rest x :
      started s = true → pending s = index :: rest →
      ds_getitem parent_data index = Ok x →
      length (loader_queue s) < queue_capacity →
      step s {| pool_size := pool_size s; data_pool := data_pool s;
                loader_queue := loader_queue s ++ [x]; pending := rest;
                transfer_index := transfer_index s; started := true |}
  | step_transfer s x rest :
      started s = true → loader_queue s = x :: rest →
      transfer_index s < length (data_pool s) →
      step s {| pool_size := pool_size s;
                data_pool := <[transfer_index s := x]> (data_pool s);
                loader_queue := rest; pending := pending s;
                transfer_index :=
                  (if decide (S (transfer_index s) < length (data_pool s))
                   then S (transfer_index s) else 0);
                started := true |}.

(** A sample that was loaded in full from the parent dataset. *)
Definition loaded (x : Sample) : Prop :=
  ∃ i, i < ds_len parent_data ∧ ds_getitem parent_data i = Ok x.

End pool.
End RotatingPool.

(** ** NumPy arrays, as far as the graph builders use them *)

Module Numpy.
Section arrays.
Variable A : Type.

(** A two-dimensional array of shape [(length rows, width)].  The width
    is kept apart from the rows, so an array without rows still has
    one. *)
Record ndarray2 : Type := Array2 {
  width : nat;
  rows : list (list A);
}.

Definition shape (a : ndarray2) : nat * nat := (length (rows a), width a).

(** [np.zeros((0, ncols))] *)
Definition zeros_0 (ncols : nat) : ndarray2 := Array2 ncols [].

(** [np.stack((a, b), axis=1)] of two one-dimensional arrays. *)
Definition stack_axis1 (a b : list A) : result ndarray2 :=
  if decide (length a = length b)
  then Ok (Array2 2 (zip_with (λ x y, [x; y]) a b))
  else Raise ValueError.

(** [np.concatenate(arrays, axis=0)] of two-dimensional arrays: needs at
    least one array, and the same width throughout. *)
Definition concatenate2 (arrays : list ndarray2) : result ndarray2 :=
  match arrays with
  | [] => Raise ValueError
  | a :: _ =>
      if forallb (λ b, Nat.eqb (width b) (width a)) arrays
      then Ok (Array2 (width a) (concat (rows <$> arrays)))
      else Raise ValueError
  end.

(** [np.concatenate(arrays, axis=0)] of one-dimensional arrays. *)
Definition concatenate1 (arrays : list (list A)) : result (list A) :=
  match arrays with
  | [] => Raise ValueError
  | _ :: _ => Ok (concat arrays)
  end.

(** [a[:, None]] on a one-dimensional array. *)
Definition expand_last (a : list A) : ndarray2 :=
  Array2 1 ((λ x, [x]) <$> a).

(** [a[idx]] with an integer index array. *)
Definition take (a : list A) (idx : list nat) : result (list A) :=
  comprehension (λ i, match a !! i with
                      | Some x => Ok x
                      | None => Raise IndexError
                      end) idx.

(** [a[m]] with a boolean mask of the same length. *)
Definition mask (a : list A) (m : list bool) : result (list A) :=
  if decide (length a = length m)
  then Ok (fst <$> filter (λ xb, snd xb = true) (zip a m))
  else Raise IndexError.

End arrays.
Arguments Array2 {A} width rows.
Arguments width {A} _.
Arguments rows {A} _.
Arguments shape {A} a.
Arguments zeros_0 {A} ncols.
Arguments stack_axis1 {A} a b.
Arguments concatenate2 {A} arrays.
Arguments concatenate1 {A} arrays.
Arguments expand_last {A} a.
Arguments take {A} a idx.
Arguments mask {A} a m.

(** [np.any] *)
Definition any (l : list bool) : bool := existsb (λ b, b) l.

End Numpy.

(** ** Structures and neighbour lists (ASE, asap3) *)

Module Ase.
Local Open Scope Qc_scope.

Definition vec3 : Type := Qc * Qc * Qc.
Definition offset : Type := Z * Z * Z.

Definition vadd (u v : vec3) : vec3 :=
  let '(a, b, c) := u in let '(x, y, z) := v in (a + x, b + y, c + z).
Definition vsub (u v : vec3) : vec3 :=
  let '(a, b, c) := u in let '(x, y, z) := v in (a - x, b - y, c - z).
Definition vscale (k : Qc) (u : vec3) : vec3 :=
  let '(a, b, c) := u in (k * a, k * b, k * c).
(** [np.sum(np.square(v))] *)
Definition norm2 (u : vec3) : Qc :=
  let '(a, b, c) := u in a * a + b * b + c * c.

(** [offsets @ cell] for one row of [offsets]: an integer combination of
    the three lattice vectors. *)
Definition offset_at_cell (o : offset) (cell : vec3 * vec3 * vec3) : vec3 :=
  let '(o1, o2, o3) := o in
  let '(r1, r2, r3) := cell in
  vadd (vadd (vscale (Qc_of_Z o1) r1) (vscale (Qc_of_Z o2) r2))
       (vscale (Qc_of_Z o3) r3).

(** [ase.Atoms]: atomic numbers, positions, the three lattice vectors and
    the periodicity flags. *)
Record Atoms : Type := MkAtoms {
  numbers : list Z;
  positions : list vec3;
  cell : vec3 * vec3 * vec3;
  pbc : bool * bool * bool;
}.

(** [len(atoms)] *)
Definition len (a : Atoms) : nat := length (numbers a).

Definition zero_cell : vec3 * vec3 * vec3 :=
  ((Q2Qc 0, Q2Qc 0, Q2Qc 0), (Q2Qc 0, Q2Qc 0, Q2Qc 0), (Q2Qc 0, Q2Qc 0, Q2Qc 0)).

(** [ase.Atoms(numbers=[0] * num_probes, positions=probe_pos)] *)
Definition probe_atoms (probe_pos : list vec3) : Atoms :=
  {| numbers := replicate (length probe_pos) 0%Z;
     positions := probe_pos;
     cell := zero_cell;
     pbc := (false, false, false) |}.

(** [a.copy(); a.extend(b)]: the atoms of [b] are appended, cell and
    periodicity stay those of [a]. *)
Definition extend (a b : Atoms) : Atoms :=
  {| numbers := numbers a ++ numbers b;
     positions := positions a ++ positions b;
     cell := cell a;
     pbc := pbc a |}.

(** [a.copy(); a.set_pbc(False)] *)
Definition without_pbc (a : Atoms) : Atoms :=
  {| numbers := numbers a; positions := positions a; cell := cell a;
     pbc := (false, false, false) |}.

Definition pbc_flags (a : Atoms) : list bool :=
  let '(x, y, z) := pbc a in [x; y; z].

(** What a neighbour query returns: the neighbours' indices, their
    positions relative to the centre, and the squared distances. *)
Definition neighbors : Type := list nat * list vec3 * list Qc.

(** An [asap3.FullNeighborList] object, through the two methods used. *)
Record FullNeighborList : Type := MkFull {
  get_neighbors : nat → Qc → result neighbors;
  get_neighbors_querypoint : list vec3 → result (list neighbors);
}.

(** A built [ase.neighborlist.NewPrimitiveNeighborList]:
    [get_neighbors(i)] returns the neighbour indices and their cell
    offsets. *)
Record PrimitiveNeighborList : Type := MkPrimitive {
  primitive_get_neighbors : nat → result (list nat * list offset);
}.

(** The options [AseNeigborListWrapper] passes to
    [NewPrimitiveNeighborList]. *)
Record primitive_options : Type := MkOptions {
  skin : Qc;
  self_interaction : bool;
  bothways : bool;
}.

(** The library code the module calls and this development does not
    contain: [np.sqrt], the asap3 constructor (which may raise) and the
    ASE constructor followed by [build]. *)
Record libraries : Type := MkLibraries {
  np_sqrt : Qc → Qc;
  asap3_FullNeighborList : Qc → Atoms → result FullNeighborList;
  ase_NewPrimitiveNeighborList :
    Qc → primitive_options →
    (bool * bool * bool) → (vec3 * vec3 * vec3) → list vec3 →
    PrimitiveNeighborList;
}.

(** [atoms.get_cell().lengths()]: the Euclidean norms of the lattice
    vectors. *)
Definition cell_lengths (lib : libraries) (a : Atoms) : list Qc :=
  let '(r1, r2, r3) := cell a in
  [np_sqrt lib (norm2 r1); np_sqrt lib (norm2 r2); np_sqrt lib (norm2 r3)].

End Ase.

(** ** Neighbour index and graph builders
       ([AseNeigborListWrapper], [atoms_to_graph], [probes_to_graph]) *)

Module Graph.
Import Numpy Ase.
Local Open Scope Qc_scope.

(** The literal [0.0001]. *)
Definition degenerate_length : Qc := Q2Qc (1 # 10000).

(** [AseNeigborListWrapper] *)
Record AseNeigborListWrapper : Type := MkWrapper {
  neighborlist : PrimitiveNeighborList;
  cutoff : Qc;
  atoms_positions : list vec3;
  atoms_cell : vec3 * vec3 * vec3;
}.

(** [AseNeigborListWrapper.__init__] *)
Definition wrapper_init (lib : libraries) (cutoff : Qc) (atoms : Atoms)
  : AseNeigborListWrapper :=
  {| neighborlist :=
       ase_NewPrimitiveNeighborList lib cutoff
         {| skin := Q2Qc 0; self_interaction := false; bothways := true |}
         (pbc atoms) (cell atoms) (positions atoms);
     cutoff := cutoff;
     atoms_positions := positions atoms;
     atoms_cell := cell atoms |}.

(** [AseNeigborListWrapper.get_neighbors].  The relative positions are
    formed as in the code, [positions[indices] + offsets @ cell -
    positions[i]], but on exact rationals: the float64 rounding of these
    sums, which depends on their order, is not modelled. *)
Definition wrapper_get_neighbors (self : AseNeigborListWrapper)
    (i : nat) (cutoff' : Qc) : result neighbors :=
  if decide (cutoff' = cutoff self) then
    '(indices, offsets) <- primitive_get_neighbors (neighborlist self) i ;
    neigh_pos <- take (atoms_positions self) indices ;
    if decide (length indices = length offsets) then
      self_pos <- take (atoms_positions self) [i] ;
      let rel_positions :=
        zip_with (λ p o,
            vsub (vadd p (offset_at_cell o (atoms_cell self)))
                 (default p (head self_pos)))
          neigh_pos offsets in
      let dist2 := norm2 <$> rel_positions in
      Ok (indices, rel_positions, dist2)
    else Raise ValueError
  else
    Raise (AssertionError
             "Cutoff must be the same as used to initialise the neighborlist").

(** The value of a [neighborlist] variable: [None], an asap3 list (the
    fast index) or the wrapper (the fallback index). *)
Inductive neighbor_index : Type :=
  | NoIndex
  | Fast (nl : FullNeighborList)
  | Fallback (nl : AseNeigborListWrapper).

(** [neighborlist.get_neighbors(i, cutoff)] *)
Definition index_get_neighbors (nl : neighbor_index) (i : nat) (cutoff : Qc)
  : result neighbors :=
  match nl with
  | NoIndex => Raise AttributeError
  | Fast f => get_neighbors f i cutoff
  | Fallback w => wrapper_get_neighbors w i cutoff
  end.

(** [hasattr(neighborlist, "get_neighbors_querypoint")] *)
Definition has_querypoint (nl : neighbor_index) : bool :=
  match nl with
  | Fast _ => true
  | NoIndex | Fallback _ => false
  end.

(** The index built at the top of [atoms_to_graph]. *)
Definition atoms_to_graph_index (lib : libraries) (atoms : Atoms) (cutoff : Qc)
  : result neighbor_index :=
  if any ((λ l, bool_decide (l ≤ degenerate_length)) <$> cell_lengths lib atoms)
     || (any (pbc_flags atoms)
         && any ((λ l, bool_decide (l < cutoff)) <$> cell_lengths lib atoms))
  then Ok (Fallback (wrapper_init lib cutoff atoms))
  else f <- asap3_FullNeighborList lib cutoff atoms ; Ok (Fast f).

(** The body of the [for i in range(len(atoms))] loop of
    [atoms_to_graph]: the edges into atom [i] and their lengths. *)
Definition atom_edges_of (lib : libraries) (atoms : Atoms) (cutoff : Qc)
    (nl : neighbor_index) (i : nat) : result (ndarray2 nat * list Qc) :=
  '(neigh_idx, _, neigh_dist2) <- index_get_neighbors nl i cutoff ;
  let neigh_dist := np_sqrt lib <$> neigh_dist2 in
  neigh_atomic_species <- take (numbers atoms) neigh_idx ;
  let self_index := replicate (length neigh_idx) i in
  edges <- stack_axis1 neigh_idx self_index ;
  Ok (edges, neigh_dist).

(** [atoms_to_graph] *)
Definition atoms_to_graph (lib : libraries) (atoms : Atoms) (cutoff : Qc)
  : result (list (ndarray2 nat) * list (list Qc) * neighbor_index) :=
  nl <- atoms_to_graph_index lib atoms cutoff ;
  per_atom <- comprehension (atom_edges_of lib atoms cutoff nl)
                           (seq 0 (len atoms)) ;
  Ok (fst <$> per_atom, snd <$> per_atom, nl).

(** The index built in the [else] branch of [probes_to_graph], over the
    structure extended with the probes. *)
Definition probes_to_graph_index (lib : libraries) (atoms atoms_with_probes : Atoms)
    (cutoff : Qc) : result neighbor_index :=
  if any ((λ l, bool_decide (l ≤ degenerate_length)) <$> cell_lengths lib atoms)
     || (any (pbc_flags atoms)
         && any ((λ l, bool_decide (l < cutoff)) <$> cell_lengths lib atoms))
  then Ok (Fallback (wrapper_init lib cutoff atoms_with_probes))
  else f <- asap3_FullNeighborList lib cutoff atoms_with_probes ; Ok (Fast f).

(** The first half of [probes_to_graph]: the neighbours of every probe
    and the atomic numbers the neighbour indices refer to. *)
Definition probe_results (lib : libraries) (atoms : Atoms)
    (probe_pos : list vec3) (cutoff : Qc) (nl : neighbor_index)
  : result (list neighbors * list Z) :=
  match nl with
  | Fast f =>
      results <- get_neighbors_querypoint f probe_pos ;
      Ok (results, numbers atoms)
  | NoIndex | Fallback _ =>
      let num_probes := length probe_pos in
      let atoms_with_probes := extend atoms (probe_atoms probe_pos) in
      let atomic_numbers := numbers atoms_with_probes in
      nl' <- probes_to_graph_index lib atoms atoms_with_probes cutoff ;
      results <- comprehension
                  (λ i, index_get_neighbors nl' (i + len atoms)%nat cutoff)
                  (seq 0 num_probes) ;
      Ok (results, atomic_numbers)
  end.

(** The body of the [for i, (...) in enumerate(results)] loop of
    [probes_to_graph]. *)
Definition probe_edges_of (lib : libraries) (atomic_numbers : list Z)
    (i : nat) (r : neighbors) : result (ndarray2 nat * list Qc) :=
  let '(neigh_idx, neigh_diff, neigh_dist2) := r in
  let neigh_dist := np_sqrt lib <$> neigh_dist2 in
  neigh_atomic_species <- take atomic_numbers neigh_idx ;
  let neigh_is_atom := (λ z, bool_decide (z ≠ 0%Z)) <$> neigh_atomic_species in
  neigh_atoms <- mask neigh_idx neigh_is_atom ;
  let self_index := replicate (length neigh_atoms) i in
  edges <- stack_axis1 neigh_atoms self_index ;
  features <- mask neigh_dist neigh_is_atom ;
  Ok (edges, features).

(** [probes_to_graph] *)
Definition probes_to_graph (lib : libraries) (atoms : Atoms)
    (probe_pos : list vec3) (cutoff : Qc) (nl : neighbor_index)
  : result (list (ndarray2 nat) * list (list Qc)) :=
  '(results, atomic_numbers) <- probe_results lib atoms probe_pos cutoff nl ;
  per_probe <- comprehension
                (λ ir, probe_edges_of lib atomic_numbers ir.1 ir.2)
                (imap (λ i r, (i, r)) results) ;
  Ok (fst <$> per_probe, snd <$> per_probe).

End Graph.

(** ** Graph dictionaries ([atoms_and_probe_sample_to_graph_dict],
       [atoms_to_graph_dict], [static_get_slice]) *)

Module Torch.
Import Numpy.

(** An entry of a tensor: an integer or a float. *)
Inductive scalar : Type :=
  | IntS (z : Z)
  | FloatS (q : Qc).

(** A tensor (or NumPy array) of dimension 0, 1 or 2. *)
Inductive tensor : Type :=
  | T0 (x : scalar)
  | T1 (xs : list scalar)
  | T2 (a : ndarray2 scalar).

Definition int_array (a : ndarray2 nat) : ndarray2 scalar :=
  Array2 (width a) (map (map (λ n, IntS (Z.of_nat n))) (rows a)).

Definition float_array (a : ndarray2 Qc) : ndarray2 scalar :=
  Array2 (width a) (map (map FloatS) (rows a)).

(** [torch.tensor(n)] for a count. *)
Definition count (n : nat) : tensor := T0 (IntS (Z.of_nat n)).

(** What this development does not contain of [torch] and
    [deepdft.layer]: [pad_and_stack], which may raise, and
    [Tensor.pin_memory]. *)
Record layers : Type := MkLayers {
  pad_and_stack : list tensor → result tensor;
  tensor_pin_memory : tensor → tensor;
}.

End Torch.

Module GraphDict.
Import Numpy Ase Graph Torch.

(** [if not probe_edges: probe_edges = [np.zeros((0,2))];
        probe_edges_features = [np.zeros((0,))]] *)
Definition or_placeholder (probe_edges : list (ndarray2 nat))
    (probe_edges_features : list (list Qc))
  : list (ndarray2 nat) * list (list Qc) :=
  match probe_edges with
  | [] => ([zeros_0 2], [[]])
  | _ :: _ => (probe_edges, probe_edges_features)
  end.

(** [atoms_and_probe_sample_to_graph_dict].  [density] and [grid_pos] are
    the grid arrays flattened in row-major order, so that indexing with
    [np.unravel_index(probe_choice, shape)] is indexing with
    [probe_choice]; [probe_choice] is the array
    [np.random.randint(probe_choice_max, size=num_probes)] returned.  On
    an empty grid ([probe_choice_max] zero) that call raises when a probe
    is asked for, and returns the empty array when [num_probes] is
    zero. *)
Definition atoms_and_probe_sample_to_graph_dict (lib : libraries)
    (density : list Qc) (atoms : Atoms) (grid_pos : list vec3) (cutoff : Qc)
    (probe_choice : list nat) : result (gmap string tensor) :=
  if decide (length grid_pos = 0%nat ∧ (0 < length probe_choice)%nat)
  then Raise ValueError
  else
    probe_pos <- take grid_pos probe_choice;
    probe_target <- take density probe_choice;
    '(atom_edges, atom_edges_features, neighborlist) <-
      atoms_to_graph lib atoms cutoff;
    '(probe_edges, probe_edges_features) <-
      probes_to_graph lib atoms probe_pos cutoff neighborlist;
    let '(probe_edges, probe_edges_features) :=
      or_placeholder probe_edges probe_edges_features in
    atom_edges <- concatenate2 atom_edges;
    atom_edges_features <- concatenate1 atom_edges_features;
    probe_edges <- concatenate2 probe_edges;
    probe_edges_features <- concatenate1 probe_edges_features;
    Ok (<["num_probes" := count (length probe_target)]>
        (<["num_probe_edges" := count (length (rows probe_edges))]>
        (<["num_atom_edges" := count (length (rows atom_edges))]>
        (<["num_nodes" := count (length (numbers atoms))]>
        (<["probe_target" := T1 (FloatS <$> probe_target)]>
        (<["probe_edges_features" :=
             T2 (float_array (expand_last probe_edges_features))]>
        (<["probe_edges" := T2 (int_array probe_edges)]>
        (<["atom_edges_features" :=
             T2 (float_array (expand_last atom_edges_features))]>
        (<["atom_edges" := T2 (int_array atom_edges)]>
        (<["nodes" := T1 (IntS <$> numbers atoms)]> ∅)))))))))).

(** [atoms_to_graph_dict] *)
Definition atoms_to_graph_dict (lib : libraries) (atoms : Atoms) (cutoff : Qc)
  : result (gmap string tensor) :=
  '(atom_edges, atom_edges_features, _) <- atoms_to_graph lib atoms cutoff;
  atom_edges <- concatenate2 atom_edges;
  atom_edges_features <- concatenate1 atom_edges_features;
  Ok (<["num_atom_edges" := count (length (rows atom_edges))]>
      (<["num_nodes" := count (length (numbers atoms))]>
      (<["atom_edges_features" :=
           T2 (float_array (expand_last atom_edges_features))]>
      (<["atom_edges" := T2 (int_array atom_edges)]>
      (<["nodes" := T1 (IntS <$> numbers atoms)]> ∅))))).

(** [DensityGridIterator.static_get_slice].  [meshgrid] is the grid of
    positions flattened in row-major order and [shape] its first three
    dimensions. *)
Definition static_get_slice (lib : libraries) (slice_index : Z) (atoms : Atoms)
    (meshgrid : list vec3) (shape : Z * Z * Z) (probe_count : Z) (cutoff : Qc)
    (neighborlist : neighbor_index) : result (gmap string tensor) :=
  let '(nx, ny, nz) := shape in
  let num_positions := GridSlice.np_prod [nx; ny; nz] in
  let flat_index := GridSlice.flat_index slice_index probe_count num_positions in
  pos_index <- GridSlice.pos_index slice_index probe_count shape;
  probe_pos <- take meshgrid ((λ p, Z.to_nat (GridSlice.ravel p shape)) <$> pos_index);
  '(probe_edges, probe_edges_features) <-
    probes_to_graph lib atoms probe_pos cutoff neighborlist;
  let '(probe_edges, probe_edges_features) :=
    or_placeholder probe_edges probe_edges_features in
  probe_edges <- concatenate2 probe_edges;
  probe_edges_features <- concatenate1 probe_edges_features;
  Ok (<["num_probes" := count (length flat_index)]>
      (<["num_probe_edges" := count (length (rows probe_edges))]>
      (<["probe_edges_features" :=
           T2 (float_array (expand_last probe_edges_features))]>
      (<["probe_edges" := T2 (int_array probe_edges)]> ∅)))).

End GraphDict.

(** ** The collator ([collate_list_of_dicts], [CollateFuncRandomSample],
       [CollateFuncAtoms]) *)

Module Collate.
Import Numpy Ase Graph Torch GraphDict.

(** [dic[k]] *)
Definition getitem (dic : gmap string tensor) (k : string) : result tensor :=
  match dic !! k with
  | Some v => Ok v
  | None => Raise (KeyError k)
  end.

(** The keys of a dictionary, in the order in which it is iterated. *)
Definition keys (dic : gmap string tensor) : list string :=
  (map_to_list dic).*1.

(** [[dic[k] for dic in list_of_dicts]] *)
Definition column (list_of_dicts : list (gmap string tensor)) (k : string)
  : result (list tensor) :=
  comprehension (λ dic, getitem dic k) list_of_dicts.

(** [{k: [dic[k] for dic in list_of_dicts] for k in list_of_dicts[0]}] *)
Definition dict_of_lists (list_of_dicts : list (gmap string tensor))
  : result (list (string * list tensor)) :=
  match list_of_dicts with
  | [] => Raise IndexError
  | first :: _ =>
      comprehension (λ k, col <- column list_of_dicts k; Ok (k, col))
                    (keys first)
  end.

(** [pin = lambda x: x.pin_memory()] or [lambda x: x] *)
Definition pin (torch : layers) (pin_memory : bool) : tensor → tensor :=
  if pin_memory then tensor_pin_memory torch else (λ x, x).

(** [collate_list_of_dicts] *)
Definition collate_list_of_dicts (torch : layers)
    (list_of_dicts : list (gmap string tensor)) (pin_memory : bool)
  : result (gmap string tensor) :=
  dict_of_lists <- dict_of_lists list_of_dicts;
  collated <- comprehension
                (λ kv, t <- pad_and_stack torch kv.2;
                       Ok (kv.1, pin torch pin_memory t))
                dict_of_lists;
  Ok (list_to_map collated).

(** An item of the dataset, as far as the collators read it. *)
Record sample : Type := MkSample {
  sample_density : list Qc;
  sample_atoms : Atoms;
  sample_grid_position : list vec3;
}.

(** [CollateFuncRandomSample.__call__].  [draws] holds, for each input, the
    probe indices the random generator returned for it. *)
Definition collate_random_sample (lib : libraries) (torch : layers)
    (cutoff : Qc) (pin_memory disable_pbc : bool)
    (input_dicts : list (sample * list nat)) : result (gmap string tensor) :=
  graphs <- comprehension
              (λ i, let atoms := if disable_pbc
                                 then without_pbc (sample_atoms i.1)
                                 else sample_atoms i.1 in
                    atoms_and_probe_sample_to_graph_dict lib
                      (sample_density i.1) atoms (sample_grid_position i.1)
                      cutoff i.2)
              input_dicts;
  collate_list_of_dicts torch graphs pin_memory.

(** [CollateFuncAtoms.__call__] *)
Definition collate_atoms (lib : libraries) (torch : layers)
    (cutoff : Qc) (pin_memory disable_pbc : bool)
    (input_dicts : list sample) : result (gmap string tensor) :=
  graphs <- comprehension
              (λ i, let atoms := if disable_pbc
                                 then without_pbc (sample_atoms i)
                                 else sample_atoms i in
                    atoms_to_graph_dict lib atoms cutoff)
              input_dicts;
  collate_list_of_dicts torch graphs pin_memory.

End Collate.

(** ** A reference neighbour search

    The neighbour-list libraries are not part of this development.  To run
    the builders on concrete structures, [Reference] implements their
    interface by exhaustive search over the atoms and a window of periodic
    images: the neighbours of a centre are the images within the cutoff,
    the centre's own zero-offset image left out unless self interaction is
    asked for. *)

Module Reference.
Import Numpy Ase Graph Torch.
Local Open Scope Qc_scope.

(** A square root that is exact on squares of rationals. *)
Definition sqrt (q : Qc) : Qc :=
  Q2Qc (Z.sqrt (Qnum (this q)) # Pos.sqrt (Qden (this q))).

Definition reach : Z := 2.

Definition axis_shifts (periodic : bool) : list Z :=
  if periodic then seqZ (- reach) (2 * reach + 1) else [0%Z].

Definition shifts (pbc : bool * bool * bool) : list offset :=
  let '(px, py, pz) := pbc in
  x ← axis_shifts px; y ← axis_shifts py; z ← axis_shifts pz; [(x, y, z)].

(** All images [(j, S)] of the points within [cutoff] of [centre] that
    pass [keep], with their relative position and squared distance. *)
Definition search (cutoff : Qc) (pbc : bool * bool * bool)
    (cell : vec3 * vec3 * vec3) (points : list vec3) (centre : vec3)
    (keep : nat → offset → bool) : list (nat * offset * vec3 * Qc) :=
  '(j, p) ← imap (λ j p, (j, p)) points;
  S ← shifts pbc;
  let rel := vsub (vadd p (offset_at_cell S cell)) centre in
  if bool_decide (norm2 rel < cutoff * cutoff) && keep j S
  then [(j, S, rel, norm2 rel)] else [].

Definition is_zero (S : offset) : bool := bool_decide (S = (0, 0, 0)%Z).

Definition lex_positive (S : offset) : bool :=
  let '(x, y, z) := S in
  bool_decide (0 < x ∨ (x = 0 ∧ (0 < y ∨ (y = 0 ∧ 0 < z))))%Z.

Definition primitive (cutoff : Qc) (opts : primitive_options)
    (pbc : bool * bool * bool) (cell : vec3 * vec3 * vec3)
    (points : list vec3) : PrimitiveNeighborList :=
  {| primitive_get_neighbors := λ i,
       match points !! i with
       | None => Raise IndexError
       | Some centre =>
           let found :=
             search cutoff pbc cell points centre
               (λ j S,
                  (self_interaction opts || negb (bool_decide (j = i) && is_zero S))
                  && (bothways opts || bool_decide (i < j)%nat
                      || (bool_decide (j = i) && lex_positive S))) in
           Ok ((λ r, r.1.1.1) <$> found, (λ r, r.1.1.2) <$> found)
       end |}.

Definition unzip3 (found : list (nat * offset * vec3 * Qc)) : neighbors :=
  ((λ r, r.1.1.1) <$> found, (λ r, r.1.2) <$> found, (λ r, r.2) <$> found).

Definition full (cutoff : Qc) (atoms : Atoms) : FullNeighborList :=
  {| get_neighbors := λ i cutoff',
       if decide (cutoff' = cutoff) then
         match positions atoms !! i with
         | None => Raise IndexError
         | Some centre =>
             Ok (unzip3 (search cutoff (pbc atoms) (cell atoms)
                           (positions atoms) centre
                           (λ j S, negb (bool_decide (j = i) && is_zero S))))
         end
       else Raise (AssertionError "cutoff");
     get_neighbors_querypoint := λ probe_pos,
       Ok ((λ centre,
              unzip3 (search cutoff (pbc atoms) (cell atoms)
                        (positions atoms) centre (λ _ _, true)))
           <$> probe_pos) |}.

Definition lib : libraries :=
  {| np_sqrt := sqrt;
     asap3_FullNeighborList := λ cutoff atoms, Ok (full cutoff atoms);
     ase_NewPrimitiveNeighborList := primitive |}.

Definition Qz (z : Z) : Qc := Qc_of_Z z.
Definition point (x y z : Q) : vec3 := (Q2Qc x, Q2Qc y, Q2Qc z).
Definition box (a b c : Z) : vec3 * vec3 * vec3 :=
  ((Qz a, Qz 0, Qz 0), (Qz 0, Qz b, Qz 0), (Qz 0, Qz 0, Qz c)).

(** Two hydrogen atoms one unit apart in a large non-periodic box. *)
Definition dimer : Atoms :=
  {| numbers := [1; 1]%Z;
     positions := [point 0 0 0; point 1 0 0];
     cell := box 10 10 10;
     pbc := (false, false, false) |}.

(** Two atoms in a cell of length 1 along x, periodic along x. *)
Definition chain : Atoms :=
  {| numbers := [1; 1]%Z;
     positions := [point 0 0 0; point (1 # 2) 0 0];
     cell := box 1 10 10;
     pbc := (true, false, false) |}.

(** A stand-in for [deepdft.layer] that only knows how to stack
    zero-dimensional tensors (the counts of a graph) into one sequence. *)
Definition stack_counts (tensors : list tensor) : result tensor :=
  xs <- comprehension (λ t, match t with
                            | T0 x => Ok x
                            | T1 _ | T2 _ => Raise ValueError
                            end) tensors;
  match tensors with
  | [] => Raise IndexError
  | _ :: _ => Ok (T1 xs)
  end.

Definition count_layers : layers :=
  {| pad_and_stack := stack_counts; tensor_pin_memory := λ t, t |}.

(** Two atoms joined by an edge in each direction, and the same edges in
    a structure with a third, isolated atom. *)
Definition two_edges : tensor :=
  T2 (Array2 2 [[IntS 0; IntS 1]; [IntS 1; IntS 0]]).

Definition pair_graph : gmap string tensor :=
  <["atom_edges" := two_edges]>
  (<["nodes" := T1 [IntS 1; IntS 1]]> ∅).

Definition triple_graph : gmap string tensor :=
  <["atom_edges" := two_edges]>
  (<["nodes" := T1 [IntS 1; IntS 1; IntS 1]]> ∅).

End Reference.

(** ** Further parts of [dataset.py] and [runner.py] *)

(** Python list indexing: a negative index counts from the end, and an
    index outside the list raises [IndexError]. *)
Module PyList.

Definition getitem {A} (l : list A) (index : Z) : result A :=
  let n := Z.of_nat (length l) in
  let i := if decide (index < 0) then index + n else index in
  if decide (0 ≤ i < n) then
    match l !! Z.to_nat i with
    | Some x => Ok x
    | None => Raise IndexError
    end
  else Raise IndexError.

End PyList.

(** [BufferData] *)
Module BufferData.
Import RotatingPool.

(** [__init__]: [[dataset[i] for i in range(len(dataset))]] *)
Definition init {Sample} (ds : dataset (Sample := Sample)) : result (list Sample) :=
  comprehension (ds_getitem ds) (seq 0 (ds_len ds)).

(** [__len__] *)
Definition len {Sample} (data_objects : list Sample) : nat := length data_objects.

(** [__getitem__] *)
Definition getitem {Sample} (data_objects : list Sample) (index : Z)
  : result Sample :=
  PyList.getitem data_objects index.

End BufferData.

(** [transfer_thread], as a function of the items the queue hands over:
    [while True: for index in range(len(datalist)):
                   datalist[index] = queue.get()]. *)
Module TransferThread.

Fixpoint transfer {Sample} (items : list Sample) (datalist : list Sample)
    (index : nat) : list Sample * nat :=
  match items with
  | [] => (datalist, index)
  | x :: items' =>
      transfer items' (<[index := x]> datalist)
        (if decide (S index < length datalist)%nat then S index else 0%nat)
  end.

End TransferThread.

(** Iteration that keeps what was delivered before it stopped. *)
Module GridIteratorRun.
Import GridIterator.

(** Call [__next__] until it does not return a value: the values
    delivered, and how the last call ended ([None]: out of fuel). *)
Fixpoint drain {Res Tensor} (to_torch : Res → Tensor) (fuel : nat)
    (s : state (Res := Res) (Tensor := Tensor))
  : list Tensor * option (outcome (Res := Res) (Tensor := Tensor)) :=
  match fuel with
  | O => ([], None)
  | S fuel' =>
      match next to_torch s with
      | Yield res s' =>
          let '(rs, o) := drain to_torch fuel' s' in (res :: rs, o)
      | o => ([], Some o)
      end
  end.

End GridIteratorRun.

(** [grid_iterator_worker], all workers together: a worker takes the next
    slice id from the work queue, computes the slice, and puts the pair on
    the result queue.  [in_flight] holds the ids taken and not yet
    answered; [results] is everything put on the result queue so far,
    oldest first. *)
Module Workers.
Section workers.
Context {Res : Type}.
Variable static_get_slice : nat → Res.

Record state : Type := State {
  slice_id_queue : list nat;
  in_flight : list nat;
  results : list (nat * Res);
}.

(** [__iter__]: [for i in range(self.num_slices): slice_id_queue.put(i)] *)
Definition start (num_slices : nat) : state :=
  {| slice_id_queue := seq 0 num_slices; in_flight := []; results := [] |}.

Inductive step : state → state → Prop :=
  | step_get slice_id queue flying res :
      step (State (slice_id :: queue) flying res)
           (State queue (slice_id :: flying) res)
  | step_put slice_id queue before after res :
      step (State queue (before ++ slice_id :: after) res)
           (State queue (before ++ after)
                  (res ++ [(slice_id, static_get_slice slice_id)])).

(** Every worker is idle and the work queue is empty. *)
Definition finished (s : state) : Prop :=
  slice_id_queue s = [] ∧ in_flight s = [].

End workers.
End Workers.

(** [_calculate_grid_pos] *)
Module GridPos.
Import Ase.
Local Open Scope Qc_scope.

(** [np.arange(n) / n] *)
Definition fractions (n : nat) : list Qc :=
  (λ i, Qc_of_Z (Z.of_nat i) / Qc_of_Z (Z.of_nat n)) <$> seq 0 n.

(** [np.stack(np.meshgrid(a, b, c, indexing="ij"), 3)], flattened in
    row-major order: the triple at grid index [(i, j, k)] is
    [(a[i], b[j], c[k])]. *)
Definition meshgrid_ij (a b c : list Qc) : list vec3 :=
  x ← a; y ← b; z ← c; [(x, y, z)].

(** One row of [np.dot(grid_pos, cell)]. *)
Definition dot_cell (f : vec3) (cell : vec3 * vec3 * vec3) : vec3 :=
  let '(f1, f2, f3) := f in
  let '(r1, r2, r3) := cell in
  vadd (vadd (vscale f1 r1) (vscale f2 r2)) (vscale f3 r3).

Definition calculate_grid_pos (shape : nat * nat * nat) (origin : vec3)
    (cell : vec3 * vec3 * vec3) : list vec3 :=
  let '(nx, ny, nz) := shape in
  (λ f, vadd (dot_cell f cell) origin)
    <$> meshgrid_ij (fractions nx) (fractions ny) (fractions nz).

End GridPos.

(** [extract_member] and [_decompress]: which decompressor and which
    reader a member of the archive gets, by its name. *)
Module Members.

(** [s.endswith(suffix)] *)
Definition endswith (s suffix : string) : bool :=
  String.prefix (String.rev suffix) (String.rev s).

Inductive codec : Type := Zlib | Lz4 | Stored.
Inductive reader : Type := Cube | Vasp.

(** The branches of [_decompress]. *)
Definition decompress_codec (name : string) : codec :=
  if endswith name ".zz" then Zlib
  else if endswith name ".lz4" then Lz4
  else Stored.

(** [tarinfo.name.endswith((".cube", ".cube.zz", "cube.lz4"))] *)
Definition member_reader (name : string) : reader :=
  if endswith name ".cube" || endswith name ".cube.zz"
     || endswith name "cube.lz4"
  then Cube else Vasp.

(** The decompressors and file readers, which are library code. *)
Record formats (Bytes Content : Type) : Type := MkFormats {
  zlib_decompress : Bytes → result Bytes;
  lz4_decompress : Bytes → result Bytes;
  read_cube : Bytes → result Content;
  read_vasp : Bytes → result Content;
}.
Arguments zlib_decompress {Bytes Content} _ _.
Arguments lz4_decompress {Bytes Content} _ _.
Arguments read_cube {Bytes Content} _ _.
Arguments read_vasp {Bytes Content} _ _.

(** [_decompress] *)
Definition decompress {Bytes Content} (lib : formats Bytes Content)
    (name : string) (bytesobj : Bytes) : result Bytes :=
  match decompress_codec name with
  | Zlib => zlib_decompress lib bytesobj
  | Lz4 => lz4_decompress lib bytesobj
  | Stored => Ok bytesobj
  end.

(** The first half of [extract_member]: decompress, then read. *)
Definition read_member {Bytes Content} (lib : formats Bytes Content)
    (name : string) (bytesobj : Bytes) : result Content :=
  filecontent <- decompress lib name bytesobj;
  match member_reader name with
  | Cube => read_cube lib filecontent
  | Vasp => read_vasp lib filecontent
  end.

End Members.

(** [runner.AverageMeter] *)
Module AverageMeter.

Section Meter.
(** The numbers the meter holds are Python ints and floats; the meter uses
    their [+], [*], [/] and, in the division, the test [== 0]. *)
Context {F : Type}.
Variable zero : F.
Variables add mul div : F → F → F.
Variable is_zero : F → bool.

Record meter : Type := Meter {
  val : F;
  avg : F;
  sum : F;
  count : F;
}.

(** [reset] *)
Definition reset : meter :=
  {| val := zero; avg := zero; sum := zero; count := zero |}.

(** [update(val, n)].  The fields are assigned one after the other, so
    when the division raises [ZeroDivisionError] the new [val], [sum] and
    [count] are already stored and [avg] keeps its old value: the meter
    after the call, and whether the call raised. *)
Definition update (m : meter) (v n : F) : meter * bool :=
  let sum' := add (sum m) (mul v n) in
  let count' := add (count m) n in
  if is_zero count'
  then ({| val := v; avg := avg m; sum := sum'; count := count' |}, true)
  else ({| val := v; avg := div sum' count'; sum := sum'; count := count' |},
        false).

(** A sequence of calls [update(v, n)]; stops at the first that raises. *)
Fixpoint updates (m : meter) (calls : list (F * F)) : meter * bool :=
  match calls with
  | [] => (m, false)
  | (v, n) :: calls' =>
      let '(m', raised) := update m v n in
      if raised then (m', true) else updates m' calls'
  end.

(** The running totals, as the meter adds them up: from the left. *)
Definition weighted_total (calls : list (F * F)) (start : F) : F :=
  fold_left (λ s '(v, n), add s (mul v n)) calls start.

Definition total_weight (calls : list (F * F)) (start : F) : F :=
  fold_left (λ c '(_, n), add c n) calls start.

End Meter.

Arguments meter : clear implicits.

End AverageMeter.

(** [runner.split_data] without a split file, and
    [torch.utils.data.Subset]. *)
Module SplitData.
Import RotatingPool.

(** [int(math.ceil(datalen * 0.05))] *)
Definition num_validation (datalen : nat) : nat :=
  Z.to_nat (Qceiling (Float.int_times_0_05 (Z.of_nat datalen))).

(** [{"train": indices[num_validation:],
      "validation": indices[:num_validation]}] for the permutation
    [indices] that [np.random.permutation(len(dataset))] returned. *)
Definition splits (indices : list nat) : list nat * list nat :=
  let n := num_validation (length indices) in
  (drop n indices, take n indices).

(** [Subset(dataset, indices)]: [__len__] and [__getitem__]. *)
Definition subset {Sample} (ds : dataset (Sample := Sample))
    (indices : list nat) : dataset (Sample := Sample) :=
  {| ds_len := length indices;
     ds_getitem := λ i, match indices !! i with
                        | Some j => ds_getitem ds j
                        | None => Raise IndexError
                        end |}.

End SplitData.

Module PyFacts.

Lemma comprehension_Forall2 {A B} (f : A → result B) l ys :
  comprehension f l = Ok ys → Forall2 (λ x y, f x = Ok y) l ys.
Proof.
  revert ys. induction l as [|x l IH]; intros ys; simpl.
  - intros [= <-]. constructor.
  - destruct (f x) as [y|] eqn:Hy; [|done].
    destruct (comprehension f l) as [ys'|]; [|done].
    intros [= <-]. constructor; auto.
Qed.

Lemma comprehension_total {A B} (f : A → result B) l :
  Forall (λ x, is_ok (f x)) l → is_ok (comprehension f l).
Proof.
  induction 1 as [|x l [y Hy] _ [ys Hys]]; simpl.
  - by exists [].
  - rewrite Hy, Hys. by eexists.
Qed.

Lemma comprehension_of_Forall2 {A B} (f : A → result B) l ys :
  Forall2 (λ x y, f x = Ok y) l ys → comprehension f l = Ok ys.
Proof.
  induction 1 as [|x y l ys Hxy _ IH]; simpl; [done|].
  by rewrite Hxy, IH.
Qed.

Lemma comprehension_raise {A B} (f : A → result B) l e :
  comprehension f l = Raise e → ∃ x, x ∈ l ∧ f x = Raise e.
Proof.
  induction l as [|x l IH]; simpl; [done|].
  destruct (f x) as [y|e'] eqn:Hx.
  - destruct (comprehension f l) as [ys|e'']; [done|].
    intros [= ->]. destruct IH as (x' & ? & ?); [done|].
    exists x'. split; [by right|done].
  - intros [= ->]. exists x. split; [by left|done].
Qed.

Lemma bind_ok {A B} (m : result A) (k : A → result B) b :
  Py.bind m k = Ok b ↔ ∃ a, m = Ok a ∧ k a = Ok b.
Proof.
  destruct m as [a|e]; simpl; split.
  - intros. by exists a.
  - by intros (a' & [= <-] & ?).
  - done.
  - by intros (? & ? & ?).
Qed.

End PyFacts.

(** ** Rounding to doubles *)

Module FloatFacts.
Import Float.
Local Open Scope Z_scope.

Lemma pow2_pos (s : Z) : 0 ≤ s → 0 < 2 ^ s.
Proof. intros. apply Z.pow_pos_nonneg; lia. Qed.

Lemma pow2_split (x y : Z) : 0 ≤ x → 0 ≤ y → 2 ^ (x + y) = 2 ^ x * 2 ^ y.
Proof. intros. by rewrite Z.pow_add_r. Qed.

Lemma round53_exact N : 0 ≤ N < 2 ^ 53 → round53 N = N.
Proof.
  intros HN. unfold round53.
  destruct (decide (Z.log2 N - 52 ≤ 0)) as [|Hs]; [done|].
  exfalso. apply Hs.
  destruct (decide (N = 0)) as [->|]; [done|].
  assert (Z.log2 N < 53) by (apply Z.log2_lt_pow2; lia). lia.
Qed.

(** Rounding keeps 53 bits: the result is the multiple of [P = 2^s] below
    or above [N], the nearer one. *)
Lemma round53_spec N :
  2 ^ 53 ≤ N →
  ∃ s q r,
    1 ≤ s ∧ N = q * 2 ^ s + r ∧ 0 ≤ r < 2 ^ s ∧ 2 ^ 52 ≤ q < 2 ^ 53
    ∧ (round53 N = q * 2 ^ s ∨ round53 N = (q + 1) * 2 ^ s)
    ∧ (2 * r < 2 ^ s → round53 N = q * 2 ^ s)
    ∧ (2 ^ s < 2 * r → round53 N = (q + 1) * 2 ^ s).
Proof.
  intros HN.
  assert (0 < N) as Hpos by lia.
  destruct (Z.log2_spec N Hpos) as [Hlo Hhi].
  assert (53 ≤ Z.log2 N) as Hb by (apply Z.log2_le_pow2; lia).
  set (s := Z.log2 N - 52) in *.
  assert (0 < 2 ^ s) as HP by (apply Z.pow_pos_nonneg; lia).
  assert (2 ^ Z.log2 N = 2 ^ 52 * 2 ^ s) as Hsplit.
  { rewrite <- Z.pow_add_r by lia. f_equal. lia. }
  assert (2 ^ Z.succ (Z.log2 N) = 2 ^ 53 * 2 ^ s) as Hsplit'.
  { rewrite <- Z.pow_add_r by lia. f_equal. lia. }
  pose proof (Z.div_mod N (2 ^ s) ltac:(lia)) as Hdm.
  pose proof (Z.mod_pos_bound N (2 ^ s) HP) as Hr.
  exists s, (N / 2 ^ s), (N mod 2 ^ s).
  assert (2 ^ 52 ≤ N / 2 ^ s < 2 ^ 53) as Hq.
  { split.
    - apply Z.div_le_lower_bound; lia.
    - apply Z.div_lt_upper_bound; lia. }
  unfold round53. fold s.
  destruct (decide (s ≤ 0)) as [|_]; [lia|].
  split_and!; try lia.
  - repeat case_decide; try destruct (Z.even _); auto.
  - intros Hlt. repeat case_decide; try lia.
  - intros Hgt. repeat case_decide; try lia.
Qed.

Lemma Qceiling_unique (R K : Z) (p : positive) :
  (K - 1) * Z.pos p < R ≤ K * Z.pos p → Qceiling (R # p) = K.
Proof.
  intros [Hlo Hhi]. unfold Qceiling, Qfloor. simpl.
  assert (- R / Z.pos p = - K) as ->; [|lia].
  symmetry. apply (Z.div_unique_pos _ _ _ (K * Z.pos p - R)); lia.
Qed.

(** The quotient of two positive integers below [2^53]: the mantissa has
    53 bits and is the scaled quotient rounded to the nearer side. *)
Lemma div53_spec (a b : Z) :
  0 < a → 0 < b → a < 2 ^ 53 * b →
  ∃ s m,
    0 ≤ s ∧ div53 a b = (m # Z.to_pos (2 ^ s))
    ∧ 2 ^ 52 ≤ a * 2 ^ s / b < 2 ^ 53
    ∧ (m = a * 2 ^ s / b ∨ m = a * 2 ^ s / b + 1)
    ∧ (2 * ((a * 2 ^ s) mod b) < b → m = a * 2 ^ s / b)
    ∧ (b < 2 * ((a * 2 ^ s) mod b) → m = a * 2 ^ s / b + 1).
Proof.
  intros Ha Hb Hlt.
  destruct (Z.log2_spec a Ha) as [Hla Hla'].
  destruct (Z.log2_spec b Hb) as [Hlb Hlb'].
  pose proof (Z.log2_nonneg a) as Hla0. pose proof (Z.log2_nonneg b) as Hlb0.
  set (la := Z.log2 a) in *. set (lb := Z.log2 b) in *.
  rewrite <- Z.add_1_r in Hla', Hlb'.
  rewrite pow2_split in Hla', Hlb' by lia. change (2 ^ 1) with 2 in *.
  assert (0 < 2 ^ la) as Hpa by (by apply pow2_pos).
  assert (0 < 2 ^ lb) as Hpb by (by apply pow2_pos).
  (* the exponent chosen by [div53] *)
  assert (∃ s, 0 ≤ s ∧ 2 ^ 52 * b ≤ a * 2 ^ s < 2 ^ 53 * b
               ∧ (if decide (a * 2 ^ Z.max 0 (- (la - lb - 52))
                             < 2 ^ 52 * (b * 2 ^ Z.max 0 (la - lb - 52)))
                  then la - lb - 52 - 1 else la - lb - 52) = - s)
    as (s & Hs & Hrange & He).
  { destruct (decide (la - lb - 52 ≤ 0)) as [Hle|Hgt].
    - rewrite (Z.max_r 0 (- (la - lb - 52))), (Z.max_l 0 (la - lb - 52)) by lia.
      change (2 ^ 0) with 1. rewrite Z.mul_1_r.
      set (s0 := - (la - lb - 52)).
      assert (2 ^ la * 2 ^ s0 = 2 ^ lb * 2 ^ 52) as Hpow.
      { rewrite <- !pow2_split by lia. f_equal. lia. }
      assert (0 < 2 ^ s0) as Hps0 by (apply pow2_pos; lia).
      assert (2 ^ lb * 2 ^ 52 ≤ a * 2 ^ s0) as Hlo.
      { rewrite <- Hpow. apply Z.mul_le_mono_nonneg_r; lia. }
      assert (a * 2 ^ s0 < 2 * (2 ^ lb * 2 ^ 52)) as Hhi.
      { rewrite <- Hpow. 
        replace (2 * (2 ^ la * 2 ^ s0)) with (2 ^ la * 2 * 2 ^ s0) by ring.
        apply Z.mul_lt_mono_pos_r; lia. }
      change (2 ^ 52) with 4503599627370496 in *.
      change (2 ^ 53) with 9007199254740992 in *.
      case_decide as Hc.
      + exists (s0 + 1). rewrite pow2_split by lia. change (2 ^ 1) with 2.
        split_and!; lia.
      + exists s0. split_and!; lia.
    - assert (la - lb - 52 = 1) as He0.
      { assert (la < lb + 54); [|lia].
        apply (Z.pow_lt_mono_r_iff 2); [lia|lia|].
        rewrite pow2_split by lia.
        change (2 ^ 54) with 18014398509481984.
        change (2 ^ 53) with 9007199254740992 in *. lia. }
      rewrite He0. rewrite (Z.max_l 0 (- (1))), (Z.max_r 0 1) by lia.
      change (2 ^ 0) with 1. change (2 ^ 1) with 2.
      assert (2 ^ la = 2 ^ lb * 2 ^ 53) as Hpow.
      { rewrite <- pow2_split by lia. f_equal. lia. }
      change (2 ^ 52) with 4503599627370496 in *.
      change (2 ^ 53) with 9007199254740992 in *.
      exists 0. change (2 ^ 0) with 1.
      case_decide; split_and!; lia. }
  assert (0 < 2 ^ s) as Hps by (by apply pow2_pos).
  unfold div53. destruct (decide (a ≤ 0)) as [|_]; [lia|].
  fold la lb. rewrite He. clear He.
  rewrite (Z.max_l 0 (- s)), (Z.max_r 0 (- - s)) by lia.
  rewrite Z.opp_involutive. change (2 ^ 0) with 1. rewrite Z.mul_1_r.
  assert (2 ^ 52 ≤ a * 2 ^ s / b < 2 ^ 53) as Hq.
  { split; [apply Z.div_le_lower_bound|apply Z.div_lt_upper_bound]; lia. }
  eexists s, _. split; [done|]. split.
  { destruct (decide (0 ≤ - s)) as [Hz|Hnz]; [|reflexivity].
    assert (s = 0) as -> by lia. change (2 ^ (- 0)) with 1.
    by rewrite Z.mul_1_r. }
  split; [done|].
  split_and!.
  - repeat case_decide; try destruct (Z.even _); auto.
  - intros ?. repeat case_decide; try lia; done.
  - intros ?. repeat case_decide; try lia; done.
Qed.

Lemma round53_large N : 2 ^ 53 ≤ N → 2 ^ 53 ≤ round53 N.
Proof.
  intros HN.
  destruct (round53_spec N HN) as (s & q & r & Hs & _ & _ & Hq & Hround & _).
  assert (2 ^ 1 ≤ 2 ^ s) as HP by (apply Z.pow_le_mono_r; lia).
  change (2 ^ 1) with 2 in HP.
  change (2 ^ 52) with 4503599627370496 in *.
  change (2 ^ 53) with 9007199254740992 in *.
  assert (4503599627370496 * 2 ^ s ≤ q * 2 ^ s)
    by (apply Z.mul_le_mono_nonneg_r; lia).
  assert (q * 2 ^ s ≤ (q + 1) * 2 ^ s)
    by (apply Z.mul_le_mono_nonneg_r; lia).
  destruct Hround as [-> | ->]; lia.
Qed.

(** Dividing an integer below [2^53] by a positive integer in doubles and
    rounding up gives the exact quotient rounded up: the rounded quotient
    never crosses an integer. *)
Lemma ceil_div53 (a b : Z) :
  0 ≤ a < 2 ^ 53 → 0 < b →
  Qceiling (div53 a b) = - (- a / b).
Proof.
  intros Ha Hb.
  destruct (decide (a = 0)) as [->|Hne]; [done|].
  destruct (div53_spec a b) as (s & m & Hs & -> & Hq & Hm & Hdown & Hup);
    [lia|done|nia|].
  assert (0 < 2 ^ s) as HP by (by apply pow2_pos).
  set (P := 2 ^ s) in *.
  pose proof (Z.div_mod a b ltac:(lia)) as Hk.
  pose proof (Z.mod_pos_bound a b Hb) as Hr.
  set (k := a / b) in *. set (r := a mod b) in *.
  assert (0 ≤ k) as Hk0 by (apply Z.div_pos; lia).
  pose proof (Z.div_mod (a * P) b ltac:(lia)) as Hqr.
  pose proof (Z.mod_pos_bound (a * P) b Hb) as Hrem.
  set (q := a * P / b) in *. set (rem := (a * P) mod b) in *.
  assert (a * P = k * P * b + r * P) as HaP by (rewrite Hk; ring).
  assert (- a / b = if decide (r = 0) then - k else - (k + 1)) as ->.
  { case_decide.
    - symmetry. apply (Z.div_unique_pos _ _ _ 0); lia.
    - symmetry. apply (Z.div_unique_pos _ _ _ (b - r)); lia. }
  apply Qceiling_unique. rewrite Z2Pos.id by done. fold P.
  change (2 ^ 52) with 4503599627370496 in *.
  change (2 ^ 53) with 9007199254740992 in *.
  case_decide as Hr0.
  - assert (q = k * P ∧ rem = 0) as [Hq' Hrem'].
    { apply (Z.div_mod_unique b); lia. }
    rewrite Hdown by lia. lia.
  - assert (k * P ≤ q) as Hlo.
    { apply Z.div_le_lower_bound; [done|].
      assert (0 ≤ r * P) by (apply Z.mul_nonneg_nonneg; lia). lia. }
    assert (q < (k + 1) * P) as Hhi.
    { apply (Z.mul_lt_mono_pos_r b); [done|].
      assert (r * P < b * P) by (apply Z.mul_lt_mono_pos_r; lia).
      lia. }
    split; [|destruct Hm as [-> | ->]; lia].
    destruct (decide (q = k * P)) as [Heq|Hne'];
      [|destruct Hm as [-> | ->]; lia].
    rewrite Hup; [lia|].
    assert (rem = r * P) as -> by lia.
    assert (1 * P ≤ r * P) by (apply Z.mul_le_mono_nonneg_r; lia).
    assert (b < 2 * P); [|lia].
    apply Z.nle_gt. intros Hb2.
    assert (1 ≤ k) by (destruct (decide (k = 0)) as [->|]; lia).
    assert (k * (2 * P) ≤ k * b) by (apply Z.mul_le_mono_nonneg_l; lia).
    lia.
Qed.

(** The rounded product [n * 0.05] lies in the same unit interval as
    [n / 20]: at most [ceil(n/20)], and above [ceil(n/20) - 1]. *)
Lemma product_bounds (n : Z) :
  0 ≤ n < 2 ^ 53 →
  ((n + 19) / 20 - 1) * 2 ^ 57 < round53 (n * mantissa_0_05)
    ≤ (n + 19) / 20 * 2 ^ 57.
Proof.
  intros Hn. unfold mantissa_0_05.
  set (k := n / 20). set (r := n mod 20).
  assert (n = 20 * k + r) as Hk by (apply Z.div_mod; lia).
  assert (0 ≤ r < 20) as Hr by (apply Z.mod_pos_bound; lia).
  assert (0 ≤ k) as Hk0 by (apply Z.div_pos; lia).
  assert ((n + 19) / 20 = if decide (r = 0) then k else k + 1) as ->.
  { case_decide.
    - symmetry. apply (Z.div_unique_pos _ _ _ 19); lia.
    - symmetry. apply (Z.div_unique_pos _ _ _ (r - 1)); lia. }
  set (N := n * 7205759403792794).
  assert (20 * N = n * (2 ^ 57 + 8)) as HN by (unfold N; lia).
  change (2 ^ 57) with 144115188075855872 in *.
  change (2 ^ 53) with 9007199254740992 in *.
  destruct (decide (N < 9007199254740992)) as [Hsmall|Hbig].
  { rewrite round53_exact by (change (2 ^ 53) with 9007199254740992; lia).
    case_decide; lia. }
  destruct (round53_spec N) as (s & q & rem & Hs & Hdiv & Hrem & Hq & Hround
                                & Hdown & Hup);
    [change (2 ^ 53) with 9007199254740992; lia|].
  change (2 ^ 52) with 4503599627370496 in *.
  change (2 ^ 53) with 9007199254740992 in *.
  set (P := 2 ^ s) in *.
  assert (0 < P) as HP by (apply Z.pow_pos_nonneg; lia).
  assert (4503599627370496 * P ≤ q * P) as HqP
    by (apply Z.mul_le_mono_nonneg_r; lia).
  assert ((q + 1) * P ≤ 9007199254740992 * P) as HqP'
    by (apply Z.mul_le_mono_nonneg_r; lia).
  assert (s < 54) as Hs'.
  { apply (Z.pow_lt_mono_r_iff 2); [lia|lia|]. fold P.
    change (2 ^ 54) with 18014398509481984. lia. }
  set (Dp := 2 ^ (57 - s)).
  assert (P * Dp = 144115188075855872) as HD.
  { unfold P, Dp. rewrite <- Z.pow_add_r by lia.
    by replace (s + (57 - s)) with 57 by lia. }
  assert (16 ≤ Dp) as HDp.
  { change 16 with (2 ^ 4). apply Z.pow_le_mono_r; lia. }
  assert (∀ x, x * 144115188075855872 = x * Dp * P) as HxD.
  { intros x. rewrite <- HD. ring. }
  case_decide as Hr0.
  - (* a multiple of 20: the product is rounded down to [k] *)
    assert (N = k * Dp * P + 8 * k) as HN' by (rewrite <- HxD; lia).
    assert (0 ≤ 8 * k < P) as H8k by lia.
    assert (q = k * Dp ∧ rem = 8 * k) as [Hq' Hrem'].
    { apply (Z.div_mod_unique P); lia. }
    rewrite Hdown by lia. rewrite Hq', <- HxD. lia.
  - (* otherwise it stays strictly between [k] and [k + 1] *)
    assert (k * Dp * P < N < (k + 1) * Dp * P) as HNk
      by (rewrite <- !HxD; lia).
    assert (q < (k + 1) * Dp) as Hqhi.
    { apply (Z.mul_lt_mono_pos_r P); lia. }
    assert (k * Dp ≤ q) as Hqlo.
    { apply Z.lt_succ_r. apply (Z.mul_lt_mono_pos_r P); lia. }
    assert ((q + 1) * P ≤ (k + 1) * Dp * P) as Hhi
      by (apply Z.mul_le_mono_nonneg_r; lia).
    rewrite !HxD. split; [|destruct Hround as [-> | ->]; lia].
    destruct (decide (q = k * Dp)) as [Heq|Hne].
    + assert (16 * P ≤ Dp * P) as HDpP
        by (apply Z.mul_le_mono_nonneg_r; lia).
      rewrite Hup; [lia|].
      assert (20 * rem = 20 * N - 20 * (k * Dp * P)) as H20 by lia.
      rewrite <- HxD in H20. lia.
    + assert ((k * Dp + 1) * P ≤ q * P) as Hstep
        by (apply Z.mul_le_mono_nonneg_r; lia).
      destruct Hround as [-> | ->]; lia.
Qed.

(** [int(math.ceil(n * 0.05))] is [ceil(n / 20)] for every [n] below
    [2^53]: the rounding of [0.05] and of the product never moves the
    result across an integer. *)
Lemma ceil_times_0_05 (n : Z) :
  0 ≤ n < 2 ^ 53 → Qceiling (int_times_0_05 n) = (n + 19) / 20.
Proof.
  intros Hn. unfold int_times_0_05. rewrite (round53_exact n) by done.
  apply Qceiling_unique. apply (product_bounds n Hn).
Qed.

End FloatFacts.

Module GridSliceFacts.
Import GridSlice Float FloatFacts.

Lemma of_int_pos (n : Z) : 0 < n → of_int n = round53 n.
Proof.
  intros Hn. unfold of_int. rewrite Z.sgn_pos, Z.abs_eq by lia. lia.
Qed.

Lemma round53_pos (n : Z) : 0 < n → 0 < round53 n.
Proof.
  intros Hn. destruct (decide (n < 2 ^ 53)) as [Hlt|Hge].
  - rewrite round53_exact by lia. done.
  - pose proof (round53_large n ltac:(lia)) as H.
    change (2 ^ 53) with 9007199254740992 in H. lia.
Qed.

Lemma truediv_pos (x y : Z) : 0 ≤ x → 0 < y → truediv x y = div53 x y.
Proof.
  intros Hx Hy. unfold truediv.
  rewrite (Z.abs_eq x), (Z.abs_eq y) by lia.
  destruct (decide _) as [Hneg|_]; [|done].
  rewrite (Z.sgn_pos y) in Hneg by done.
  pose proof (Z.sgn_nonneg x). lia.
Qed.

(** For a grid below [2^53] points the float64 quotient, rounded up, is
    the exact quotient by the divisor as a double, rounded up. *)
Lemma num_slices_value (t pc : Z) :
  0 < pc → 0 ≤ t < 2 ^ 53 →
  num_slices t pc = Ok (- (- t / round53 pc)).
Proof.
  intros Hpc Ht. unfold num_slices.
  destruct (decide (pc = 0)) as [->|_]; [lia|].
  rewrite (of_int_pos pc) by done.
  assert (of_int t = t) as ->.
  { destruct (decide (t = 0)) as [->|]; [done|].
    rewrite of_int_pos by lia. by apply round53_exact. }
  rewrite truediv_pos by (lia || by apply round53_pos).
  by rewrite ceil_div53 by (done || by apply round53_pos).
Qed.

Lemma num_slices_bounds (t pc : Z) :
  0 < pc → 0 ≤ t < 2 ^ 53 →
  ∃ n, num_slices t pc = Ok n ∧ 0 ≤ n ∧ (n - 1) * pc < t ≤ n * pc.
Proof.
  intros Hpc Ht. rewrite num_slices_value by done.
  eexists; split; [reflexivity|].
  destruct (decide (pc < 2 ^ 53)) as [Hlt|Hge].
  - rewrite round53_exact by lia.
    pose proof (Z.div_mod (- t) pc ltac:(lia)) as Hdm.
    pose proof (Z.mod_pos_bound (- t) pc ltac:(lia)) as Hm.
    nia.
  - pose proof (round53_large pc ltac:(lia)) as HB.
    change (2 ^ 53) with 9007199254740992 in *.
    destruct (decide (t = 0)) as [->|Hne].
    + rewrite Z.div_0_l by lia. lia.
    + assert (- t / round53 pc = - 1) as ->; [|lia].
      symmetry. apply (Z.div_unique_pos _ _ _ (round53 pc - t)); lia.
Qed.

Lemma elem_of_flat_index (k pc t i : Z) :
  i ∈ flat_index k pc t ↔ k * pc ≤ i < Z.min ((k + 1) * pc) t.
Proof. unfold flat_index, np_arange. rewrite elem_of_seqZ. lia. Qed.

Lemma flat_index_prefix (pc t : Z) (m : nat) :
  0 < pc → 0 ≤ t →
  concat ((λ k, flat_index k pc t) <$> py_range (Z.of_nat m))
  = seqZ 0 (Z.min (Z.of_nat m * pc) t).
Proof.
  intros Hpc Ht. unfold py_range. induction m as [|m IH].
  - simpl. by rewrite seqZ_nil by lia.
  - rewrite seqZ_S, fmap_app, concat_app, IH. simpl.
    rewrite app_nil_r. unfold flat_index, np_arange.
    destruct (decide (Z.of_nat m * pc ≤ t)) as [Hle|Hgt].
    + rewrite (Z.min_l (Z.of_nat m * pc)) by lia.
      replace (Z.min (Z.of_nat (S m) * pc) t)
        with (Z.of_nat m * pc + (Z.min ((0 + Z.of_nat m + 1) * pc) t
                                  - (0 + Z.of_nat m) * pc)) by lia.
      by rewrite seqZ_app by lia.
    + rewrite (seqZ_nil ((0 + Z.of_nat m) * pc)) by lia.
      rewrite app_nil_r. f_equal. lia.
Qed.

Lemma all_flat_indices_arange (pc t : Z) :
  0 < pc → 0 ≤ t < 2 ^ 53 → all_flat_indices pc t = Ok (np_arange 0 t).
Proof.
  intros Hpc Ht. unfold all_flat_indices.
  destruct (num_slices_bounds t pc Hpc Ht) as (n & -> & Hn & Hlo & Hhi).
  simpl. f_equal. rewrite <- (Z2Nat.id n) by done.
  rewrite flat_index_prefix by lia. unfold np_arange.
  f_equal. rewrite Z2Nat.id by done. lia.
Qed.

Lemma ravel_unravel (i nx ny nz : Z) :
  0 ≤ nx → 0 ≤ ny → 0 ≤ nz → 0 ≤ i < nx * ny * nz →
  ∃ p, unravel_index i (nx, ny, nz) = Ok p
       ∧ ravel p (nx, ny, nz) = i
       ∧ (0 ≤ p.1.1 < nx ∧ 0 ≤ p.1.2 < ny ∧ 0 ≤ p.2 < nz).
Proof.
  intros Hx Hy Hz Hi. unfold unravel_index.
  destruct (decide _) as [_|?]; [|lia].
  eexists; split; [reflexivity|]. simpl.
  assert (0 < nz) by nia. assert (0 < ny) by nia.
  pose proof (Z.div_mod i nz ltac:(lia)).
  pose proof (Z.mod_pos_bound i nz ltac:(lia)).
  pose proof (Z.div_mod (i `div` nz) ny ltac:(lia)).
  pose proof (Z.mod_pos_bound (i `div` nz) ny ltac:(lia)).
  assert (i `div` (ny * nz) = (i `div` nz) `div` ny) as ->.
  { rewrite (Z.mul_comm ny nz). by rewrite Z.div_div by lia. }
  assert (0 ≤ (i `div` nz) `div` ny).
  { apply Z.div_pos; [apply Z.div_pos|]; lia. }
  assert ((i `div` nz) `div` ny < nx).
  { apply Z.div_lt_upper_bound; [lia|].
    apply Z.div_lt_upper_bound; [lia|]. nia. }
  repeat split; try lia; nia.
Qed.

Lemma comprehension_ok {A B} (f : A → result B) (g : B → A) (P : A → Prop)
    (Q : B → Prop) l :
  (∀ x, P x → ∃ y, f x = Ok y ∧ g y = x ∧ Q y) →
  Forall P l →
  ∃ ys, comprehension f l = Ok ys ∧ g <$> ys = l ∧ Forall Q ys.
Proof.
  intros Hf. induction 1 as [|x l Hx _ (ys & Hys & Hg & HQ)]; simpl.
  - by exists [].
  - destruct (Hf x Hx) as (y & -> & Hy & Hy'). rewrite Hys.
    exists (y :: ys). rewrite fmap_cons, Hy, Hg. by repeat constructor.
Qed.

Lemma pos_index_row_major (k pc nx ny nz : Z) :
  0 ≤ nx → 0 ≤ ny → 0 ≤ nz → 0 < pc → 0 ≤ k →
  ∃ ps, pos_index k pc (nx, ny, nz) = Ok ps
        ∧ (λ p, ravel p (nx, ny, nz)) <$> ps
          = flat_index k pc (np_prod [nx; ny; nz])
        ∧ Forall (λ p, 0 ≤ p.1.1 < nx ∧ 0 ≤ p.1.2 < ny ∧ 0 ≤ p.2 < nz) ps.
Proof.
  intros Hx Hy Hz Hpc Hk. unfold pos_index.
  apply (comprehension_ok _ _ (λ i, 0 ≤ i < nx * ny * nz)).
  - intros i Hi. destruct (ravel_unravel i nx ny nz) as (p & ? & ? & ?); eauto.
  - apply Forall_forall. intros i [Hlo Hhi]%elem_of_flat_index.
    unfold np_prod in Hhi. simpl in Hhi. nia.
Qed.

(** C3.  For a grid of shape (nx, ny, nz) with fewer than [2^53] points
    and a positive probe count (an int64): slice [k] holds exactly the
    flat indices in [k*probe_count, min((k+1)*probe_count, total)); the
    number of slices is the ceiling of total/probe_count (the least [n]
    with [total <= n*probe_count]); the slices 0 .. num_slices-1
    concatenated in order are 0 .. total-1, each index once; and the
    positions a slice reads are the row-major unravelling of its flat
    indices, each coordinate within the shape. *)
Theorem grid_slices_partition (nx ny nz probe_count : Z) :
  0 ≤ nx → 0 ≤ ny → 0 ≤ nz → nx * ny * nz < 2 ^ 53 →
  0 < probe_count < 2 ^ 63 →
  (∀ k i, i ∈ flat_index k probe_count (np_prod [nx; ny; nz])
          ↔ k * probe_count ≤ i
            < Z.min ((k + 1) * probe_count) (np_prod [nx; ny; nz]))
  ∧ (∃ n, num_slices (np_prod [nx; ny; nz]) probe_count = Ok n
          ∧ 0 ≤ n
          ∧ (n - 1) * probe_count < np_prod [nx; ny; nz] ≤ n * probe_count)
  ∧ all_flat_indices probe_count (np_prod [nx; ny; nz])
    = Ok (np_arange 0 (np_prod [nx; ny; nz]))
  ∧ NoDup (np_arange 0 (np_prod [nx; ny; nz]))
  ∧ (∀ i, i ∈ np_arange 0 (np_prod [nx; ny; nz]) ↔ 0 ≤ i < nx * ny * nz)
  ∧ (∀ k, 0 ≤ k →
       ∃ ps, pos_index k probe_count (nx, ny, nz) = Ok ps
             ∧ (λ p, ravel p (nx, ny, nz)) <$> ps
               = flat_index k probe_count (np_prod [nx; ny; nz])
             ∧ Forall (λ p, 0 ≤ p.1.1 < nx ∧ 0 ≤ p.1.2 < ny ∧ 0 ≤ p.2 < nz)
                 ps).
Proof.
  intros Hx Hy Hz Hsize [Hpc _].
  assert (0 ≤ np_prod [nx; ny; nz] < 2 ^ 53) as Ht.
  { unfold np_prod; simpl. rewrite Z.mul_1_r, Z.mul_assoc. split; [nia|done]. }
  split_and!.
  - intros k i. apply elem_of_flat_index.
  - by apply num_slices_bounds.
  - by apply all_flat_indices_arange.
  - apply NoDup_seqZ.
  - intros i. unfold np_arange. rewrite elem_of_seqZ.
    unfold np_prod; simpl. lia.
  - intros k Hk. by apply pos_index_row_major.
Qed.

Lemma grid_slices_partition_witness :
  all_flat_indices 5 (np_prod [2; 3; 2]) = Ok (np_arange 0 12)
  ∧ num_slices (np_prod [2; 3; 2]) 5 = Ok 3
  ∧ flat_index 2 5 (np_prod [2; 3; 2]) = [10; 11].
Proof.
  split; [|split; reflexivity].
  exact (proj1 (proj2 (proj2
    (grid_slices_partition 2 3 2 5 ltac:(lia) ltac:(lia) ltac:(lia)
       ltac:(done) ltac:(done))))).
Defined.

End GridSliceFacts.

Module GridIteratorFacts.
Import GridIterator.
Section iterator.
Local Open Scope nat_scope.
Context {Res Tensor : Type}.
Variable to_torch : Res → Tensor.
Variable static_get_slice : nat → Res.

Local Abbreviation delivered k := (to_torch (static_get_slice k)).

(** The reordering buffer's invariant before slice [k] of [n] is
    delivered: the slices still to deliver are split between the pending
    map and the part of the arrival order not yet read. *)
Record buffer_inv (n k : nat) (finished : gmap nat Tensor)
    (order : list nat) : Prop := {
  inv_nodup : NoDup order;
  inv_cover : ∀ i, i ∈ order ∨ is_Some (finished !! i) ↔ k ≤ i < n;
  inv_disjoint : ∀ i, i ∈ order → finished !! i = None;
  inv_value : ∀ i t, finished !! i = Some t → t = delivered i;
}.

Lemma buffer_inv_iter n order :
  order ≡ₚ seq 0 n → buffer_inv n 0 ∅ order.
Proof.
  intros Hp. split.
  - rewrite Hp. apply NoDup_seq.
  - intros i. rewrite Hp, elem_of_seq, lookup_empty.
    split; [intros [?|[? [=]]]|]; [lia|]. intros. left. lia.
  - intros. apply lookup_empty.
  - intros i t. by rewrite lookup_empty.
Qed.

Lemma retrieve_spec n k finished order :
  k < n → buffer_inv n k finished order →
  ∃ finished' read order',
    retrieve to_torch k finished (worker_results static_get_slice order)
      = Some (finished', worker_results static_get_slice order')
    ∧ order = read ++ order'
    ∧ finished' !! k = Some (delivered k)
    ∧ buffer_inv n k finished' order'.
Proof.
  intros Hk. revert finished.
  induction order as [|i order IH]; intros finished Hinv; simpl.
  - destruct (decide (is_Some (finished !! k))) as [[t Ht]|Hno].
    + exists finished, [], []. split_and!; try done.
      by rewrite Ht, (inv_value _ _ _ _ Hinv k t Ht).
    + exfalso. destruct (proj2 (inv_cover _ _ _ _ Hinv k)) as [Hin|?];
        [lia| |done]. by apply elem_of_nil in Hin.
  - destruct (decide (is_Some (finished !! k))) as [[t Ht]|Hno].
    + exists finished, [], (i :: order). split_and!; try done.
      by rewrite Ht, (inv_value _ _ _ _ Hinv k t Ht).
    + destruct (IH (<[i := delivered i]> finished))
        as (finished' & read & order' & Hr & Ho & Hf & Hinv').
      { destruct Hinv as [Hnd Hcov Hdis Hval].
        apply NoDup_cons in Hnd as [Hi Hnd]. split.
        - done.
        - intros j. rewrite <- Hcov, elem_of_cons, lookup_insert_is_Some.
          destruct (decide (i = j)); naive_solver.
        - intros j Hj. rewrite lookup_insert_ne by (intros ->; done).
          apply Hdis. by right.
        - intros j t. rewrite lookup_insert.
          case_decide; [naive_solver|]. apply Hval. }
      exists finished', (i :: read), order'. split_and!; try done.
      by rewrite Ho.
Qed.

Lemma buffer_inv_deliver n k finished order :
  buffer_inv n k finished order → is_Some (finished !! k) →
  buffer_inv n (S k) (delete k finished) order.
Proof.
  intros [Hnd Hcov Hdis Hval] Hk. split.
  - done.
  - intros i. rewrite lookup_delete_is_Some. split.
    + intros [Hi|[Hne Hi]].
      * assert (k ≤ i < n) by (apply Hcov; by left).
        assert (i ≠ k); [|lia]. intros ->. apply Hdis in Hi.
        rewrite Hi in Hk. by destruct Hk.
      * assert (k ≤ i < n) by (apply Hcov; by right). lia.
    + intros Hi. destruct (proj2 (Hcov i)) as [?|?]; [lia|by left|].
      right. split; [lia|done].
  - intros i Hi. destruct (decide (k = i)) as [->|].
    + apply lookup_delete_eq.
    + rewrite lookup_delete_ne by done. by apply Hdis.
  - intros i t. rewrite lookup_delete.
    case_decide; [done|]. apply Hval.
Qed.

Lemma buffer_inv_end n finished order :
  buffer_inv n n finished order → finished = ∅ ∧ order = [].
Proof.
  intros [_ Hcov _ _]. split.
  - apply map_empty. intros i. apply eq_None_not_Some. intros Hi.
    assert (n ≤ i < n) by (apply Hcov; by right). lia.
  - destruct order as [|i order]; [done|].
    assert (n ≤ i < n); [|lia]. apply Hcov. left. apply elem_of_cons. by left.
Qed.

Lemma collect_from n m k finished order fuel :
  k + m = n → m < fuel → buffer_inv n k finished order →
  collect to_torch fuel
    (State k n finished (worker_results static_get_slice order))
  = Some ((λ i, delivered i) <$> seq k m, State n n ∅ []).
Proof.
  revert k finished order fuel.
  induction m as [|m IH]; intros k finished order fuel Hkm Hfuel Hinv.
  - destruct fuel as [|fuel]; [lia|]. simpl. unfold next. simpl.
    destruct (decide (k < n)); [lia|].
    assert (k = n) as -> by lia.
    by destruct (buffer_inv_end _ _ _ Hinv) as [-> ->].
  - destruct fuel as [|fuel]; [lia|]. simpl. unfold next. simpl.
    destruct (decide (k < n)); [|lia].
    destruct (retrieve_spec n k finished order)
      as (finished' & read & order' & -> & _ & Hf & Hinv'); [done..|].
    rewrite Hf.
    rewrite (IH (S k) (delete k finished') order' fuel); [done|lia|lia|].
    apply buffer_inv_deliver; [done|by rewrite Hf].
Qed.

Lemma next_yield_step (s s' : state) res :
  next to_torch s = Yield res s' →
  ∃ read,
    result_queue s = read ++ result_queue s'
    ∧ finished_slices s'
      = delete (current_slice s)
          (foldl (λ m ir, <[ir.1 := to_torch ir.2]> m) (finished_slices s) read)
    ∧ current_slice s' = S (current_slice s)
    ∧ finished_slices s' !! current_slice s = None.
Proof.
  unfold next. destruct (decide _) as [_|]; [|done].
  assert (∀ q fin fin' q',
    retrieve to_torch (current_slice s) fin q = Some (fin', q') →
    ∃ read, q = read ++ q'
      ∧ fin' = foldl (λ m ir, <[ir.1 := to_torch ir.2]> m) fin read) as Hret.
  { induction q as [|[i r] q IH]; intros fin fin' q'; simpl;
      destruct (decide _); intros Hr; simplify_eq; try by exists [].
    destruct (IH _ _ _ Hr) as (read & -> & ->). by exists ((i, r) :: read). }
  destruct (retrieve _ _ _ _) as [[fin' q']|] eqn:Hr; [|done].
  destruct (fin' !! current_slice s) eqn:Hl; [|done].
  intros [= <- <-]. simpl.
  destruct (Hret _ _ _ _ Hr) as (read & -> & ->).
  exists read. split_and!; try done. apply lookup_delete_eq.
Qed.

(** C2.  Whatever order the workers' results arrive in, as long as it
    is a permutation of all slice indices, iterating yields the slice
    results for 0, 1, ..., num_slices-1 in that order and then raises
    StopIteration, with the pending map and the channel left empty.
    Every delivery reads the channel into the pending map, keyed by slice
    index, until the expected slice is there, and removes that entry. *)
Theorem iterator_yields_in_slice_order (n : nat) (order : list nat) (fuel : nat) :
  order ≡ₚ seq 0 n → n < fuel →
  collect to_torch fuel (iter static_get_slice n order)
    = Some ((λ i, delivered i) <$> seq 0 n, State n n ∅ [])
  ∧ next to_torch (State n n ∅ []) = StopIteration (State n n ∅ [])
  ∧ ∀ s s' res, next to_torch s = Yield res s' →
      ∃ read,
        result_queue s = read ++ result_queue s'
        ∧ finished_slices s'
          = delete (current_slice s)
              (foldl (λ m ir, <[ir.1 := to_torch ir.2]> m)
                     (finished_slices s) read)
        ∧ current_slice s' = S (current_slice s)
        ∧ finished_slices s' !! current_slice s = None.
Proof.
  intros Hp Hfuel. split_and!.
  - apply collect_from; [done|done|]. by apply buffer_inv_iter.
  - unfold next. simpl. destruct (decide (n < n)); [lia|done].
  - apply next_yield_step.
Qed.

End iterator.

Lemma reverse_order_example : [3; 1; 0; 2]%nat ≡ₚ seq 0 4.
Proof. by apply (bool_decide_unpack _). Qed.

Lemma iterator_yields_in_slice_order_witness :
  collect (λ r : nat, r) 5 (iter (λ k, 10 * k)%nat 4 [3; 1; 0; 2]%nat)
    = Some ([0; 10; 20; 30]%nat, State 4 4 ∅ []).
Proof.
  exact (proj1 (iterator_yields_in_slice_order (λ r : nat, r) (λ k, 10 * k)%nat
                  4 [3; 1; 0; 2]%nat 5 reverse_order_example ltac:(lia))).
Defined.

End GridIteratorFacts.

Module RotatingPoolFacts.
Import RotatingPool PyFacts.
Section pool.
Local Open Scope nat_scope.
Context {Sample : Type}.
Variable parent_data : dataset (Sample := Sample).

(** What holds of the pool from the end of [__init__] onwards. *)
Record pool_inv (size : nat) (s : state (Sample := Sample)) : Prop := {
  inv_size : pool_size s = size;
  inv_length : length (data_pool s) = size;
  inv_pool : Forall (loaded parent_data) (data_pool s);
  inv_queue : Forall (loaded parent_data) (loader_queue s);
  inv_pending : Forall (λ i, i < ds_len parent_data) (pending s);
  inv_slot : transfer_index s < size ∨ size = 0;
}.

Lemma fill_pool_loaded size draws pool :
  rng_integers (ds_len parent_data) size draws →
  fill_pool parent_data draws = Ok pool →
  length pool = size ∧ Forall (loaded parent_data) pool.
Proof.
  intros [Hlen Hdraws] Hfill. apply comprehension_Forall2 in Hfill.
  split.
  - by rewrite <- (Forall2_length _ _ _ Hfill).
  - clear Hlen. induction Hfill as [|i x draws pool Hx _ IH];
      constructor.
    + exists i. split; [|done]. by apply Forall_cons in Hdraws as [? _].
    + apply IH. by apply Forall_cons in Hdraws as [_ ?].
Qed.

Lemma init_inv size draws s :
  rng_integers (ds_len parent_data) size draws →
  init parent_data size draws = Ok s →
  pool_inv size s ∧ loader_queue s = [] ∧ transfer_index s = 0
  ∧ Ok (data_pool s) = fill_pool parent_data draws.
Proof.
  intros Hrng. unfold init. destruct (decide _); [done|].
  destruct (fill_pool parent_data draws) as [pool|] eqn:Hfill; [|done].
  intros [= <-]. simpl.
  destruct (fill_pool_loaded _ _ _ Hrng Hfill) as [Hlen Hpool].
  split_and!; try done. split; simpl; try done.
  destruct size; [by right|left; lia].
Qed.

Lemma step_inv size s s' :
  pool_inv size s → step parent_data s s' → pool_inv size s'.
Proof.
  intros [Hsz Hlen Hpool Hq Hpend Hslot] Hstep.
  destruct Hstep as [s perm _ _ Hperm|s index rest x _ Hp Hx _|s x rest _ Hqe Hlt];
    split; simpl; try done.
  - unfold rng_permutation in Hperm. rewrite Hperm.
    apply Forall_forall. intros i. rewrite elem_of_seq. lia.
  - apply Forall_app. split; [done|]. apply Forall_singleton.
    exists index. split; [|done]. rewrite Hp in Hpend.
    by apply Forall_cons in Hpend as [? _].
  - rewrite Hp in Hpend. by apply Forall_cons in Hpend as [_ ?].
  - by rewrite length_insert.
  - apply Forall_insert; [done|]. rewrite Hqe in Hq.
    by apply Forall_cons in Hq as [? _].
  - rewrite Hqe in Hq. by apply Forall_cons in Hq as [_ ?].
  - case_decide; lia.
Qed.

Lemma rtc_step_inv size s s' :
  pool_inv size s → rtc (step parent_data) s s' → pool_inv size s'.
Proof. intros Hinv Hrtc. induction Hrtc; eauto using step_inv. Qed.

Lemma getitem_inv size s (i : nat) :
  pool_inv size s → i < size →
  ∃ x, getitem s (Z.of_nat i) = Ok x ∧ loaded parent_data x
       ∧ data_pool s !! i = Some x.
Proof.
  intros [_ Hlen Hpool _ _ _] Hi. unfold getitem.
  destruct (decide (Z.of_nat i < 0)%Z); [lia|].
  destruct (decide _) as [_|]; [|lia].
  rewrite Nat2Z.id.
  destruct (lookup_lt_is_Some_2 (data_pool s) i) as [x Hx]; [lia|].
  rewrite Hx. exists x. split_and!; try done.
  by eapply Forall_lookup_1 in Hpool.
Qed.

(** C10.  If the constructor returns, it has filled all [pool_size]
    slots itself, from the parent dataset at the indices the generator
    drew, with the handoff queue still empty and no slot yet rewritten by
    the transfer thread.  From then on, whatever the producer and the
    transfer thread do, [len()] is [pool_size] and [get(i)] for every
    [0 <= i < pool_size] returns a sample loaded in full from the parent
    dataset.  The constructor does return whenever the parent is not
    empty and every drawn item can be read. *)
Theorem rotating_pool_always_full (size : nat) (draws : list nat) :
  rng_integers (ds_len parent_data) size draws →
  (0 < ds_len parent_data →
   Forall (λ i, is_ok (ds_getitem parent_data i)) draws →
   is_ok (init parent_data size draws))
  ∧ ∀ s0, init parent_data size draws = Ok s0 →
      (Ok (data_pool s0) = fill_pool parent_data draws
       ∧ loader_queue s0 = [] ∧ transfer_index s0 = 0)
      ∧ ∀ s, rtc (step parent_data) s0 s →
          len s = size
          ∧ length (data_pool s) = size
          ∧ ∀ i, i < size →
              ∃ x, getitem s (Z.of_nat i) = Ok x ∧ loaded parent_data x.
Proof.
  intros Hrng. split.
  - intros Hlen Hread. unfold init.
    destruct (decide _); [lia|].
    destruct (comprehension_total _ _ Hread) as [pool Hpool].
    unfold fill_pool. rewrite Hpool. by eexists.
  - intros s0 Hinit.
    destruct (init_inv _ _ _ Hrng Hinit) as (Hinv & Hq & Ht & Hfill).
    split; [done|]. intros s Hrtc.
    pose proof (rtc_step_inv _ _ _ Hinv Hrtc) as Hinv'.
    split_and!.
    + apply (inv_size _ _ Hinv').
    + apply (inv_length _ _ Hinv').
    + intros i Hi.
      destruct (getitem_inv _ _ _ Hinv' Hi) as (x & ? & ? & _). eauto.
Qed.

End pool.

(** A three-item dataset and a pool of two slots, after one permutation,
    one put and one transfer. *)
Definition example_dataset : dataset (Sample := string) :=
  {| ds_len := 3;
     ds_getitem := λ i, match [ "a"; "b"; "c" ] !! i with
                        | Some x => Ok x
                        | None => Raise IndexError
                        end |}.

Lemma example_run :
  rtc (step example_dataset)
    (State 2 [ "c"; "a" ] [] [] 0 true)
    (State 2 [ "b"; "a" ] [] [0; 2]%nat 1 true).
Proof.
  eapply rtc_l.
  { apply (step_permute example_dataset (State 2 [ "c"; "a" ] [] [] 0 true)
             [1; 0; 2]%nat); [done|done|].
    unfold rng_permutation. simpl. by apply (bool_decide_unpack _). }
  eapply rtc_l.
  { apply (step_put example_dataset _ 1%nat [0; 2]%nat "b"); simpl;
      unfold queue_capacity; try done; lia. }
  eapply rtc_l.
  { apply (step_transfer example_dataset _ "b" []); simpl; try done; lia. }
  simpl. apply rtc_refl.
Qed.

Lemma rotating_pool_always_full_witness :
  len (State 2 [ "b"; "a" ] [] [0; 2]%nat 1 true) = 2%nat
  ∧ ∃ x, getitem (State 2 [ "b"; "a" ] [] [0; 2]%nat 1 true) 0 = Ok x
         ∧ loaded example_dataset x.
Proof.
  assert (rng_integers (ds_len example_dataset) 2 [2; 0]%nat) as Hrng.
  { split; [done|]. repeat constructor. }
  destruct (proj2 (rotating_pool_always_full example_dataset 2 [2; 0]%nat Hrng)
              _ eq_refl) as [_ Hrun].
  destruct (Hrun _ example_run) as (Hlen & _ & Hget).
  split; [exact Hlen|]. exact (Hget 0%nat ltac:(lia)).
Defined.

End RotatingPoolFacts.

Module GraphFacts.
Import Numpy Ase Graph PyFacts.
Local Open Scope Qc_scope.

(** *** The selection rule, in the words of the specification *)

(** Some lattice vector has length at most 1e-4. *)
Definition degenerate_cell (lib : libraries) (atoms : Atoms) : Prop :=
  ∃ l, l ∈ cell_lengths lib atoms ∧ l ≤ degenerate_length.

(** Some periodicity flag is set. *)
Definition periodic (atoms : Atoms) : Prop := true ∈ pbc_flags atoms.

(** Some lattice vector is shorter than the cutoff. *)
Definition short_cell (lib : libraries) (atoms : Atoms) (cutoff : Qc) : Prop :=
  ∃ l, l ∈ cell_lengths lib atoms ∧ l < cutoff.

Definition fallback_rule (lib : libraries) (atoms : Atoms) (cutoff : Qc) : Prop :=
  degenerate_cell lib atoms ∨ (periodic atoms ∧ short_cell lib atoms cutoff).

Lemma any_true (l : list bool) : any l = true ↔ true ∈ l.
Proof.
  unfold any. rewrite existsb_exists. setoid_rewrite <- list_elem_of_In.
  naive_solver.
Qed.

Lemma any_fmap_decide {A} (P : A → Prop) `{!∀ x, Decision (P x)} (l : list A) :
  any ((λ x, bool_decide (P x)) <$> l) = true ↔ ∃ x, x ∈ l ∧ P x.
Proof.
  rewrite any_true, list_elem_of_fmap. split.
  - intros (x & Hx & ?). exists x. split; [done|].
    symmetry in Hx. by apply bool_decide_eq_true_1 in Hx.
  - intros (x & ? & HP). exists x. split; [|done].
    symmetry. by apply bool_decide_eq_true_2.
Qed.

Lemma selection_condition lib atoms cutoff :
  any ((λ l, bool_decide (l ≤ degenerate_length)) <$> cell_lengths lib atoms)
  || (any (pbc_flags atoms)
      && any ((λ l, bool_decide (l < cutoff)) <$> cell_lengths lib atoms))
  = true
  ↔ fallback_rule lib atoms cutoff.
Proof.
  rewrite orb_true_iff, andb_true_iff.
  rewrite (any_fmap_decide (λ l, l ≤ degenerate_length)).
  rewrite (any_fmap_decide (λ l, l < cutoff)), any_true.
  reflexivity.
Qed.

(** C4.  Both places that build a neighbour index take the fallback
    wrapper exactly when some lattice vector is at most 1e-4 long, or a
    periodicity flag is set and some lattice vector is shorter than the
    cutoff, and ask for the fast index otherwise.  [atoms_to_graph]
    returns the index so chosen, and [probes_to_graph] applies the same
    rule, to the same structure, whenever the index it is given has no
    point query. *)
Theorem fallback_selection (lib : libraries) (atoms : Atoms) (cutoff : Qc)
    (probe_pos : list vec3) :
  (atoms_to_graph_index lib atoms cutoff
     = Ok (Fallback (wrapper_init lib cutoff atoms))
   ∧ probes_to_graph_index lib atoms (extend atoms (probe_atoms probe_pos)) cutoff
     = Ok (Fallback (wrapper_init lib cutoff
                       (extend atoms (probe_atoms probe_pos))))
   ↔ fallback_rule lib atoms cutoff)
  ∧ (¬ fallback_rule lib atoms cutoff →
     atoms_to_graph_index lib atoms cutoff
       = (f <- asap3_FullNeighborList lib cutoff atoms; Ok (Fast f))
     ∧ probes_to_graph_index lib atoms (extend atoms (probe_atoms probe_pos)) cutoff
       = (f <- asap3_FullNeighborList lib cutoff
                 (extend atoms (probe_atoms probe_pos)); Ok (Fast f)))
  ∧ (∀ edges features nl,
       atoms_to_graph lib atoms cutoff = Ok (edges, features, nl) →
       atoms_to_graph_index lib atoms cutoff = Ok nl)
  ∧ (∀ nl, has_querypoint nl = false →
       probe_results lib atoms probe_pos cutoff nl
       = (nl' <- probes_to_graph_index lib atoms
                   (extend atoms (probe_atoms probe_pos)) cutoff;
          results <- comprehension
                       (λ i, index_get_neighbors nl' (i + len atoms)%nat cutoff)
                       (seq 0 (length probe_pos));
          Ok (results, numbers (extend atoms (probe_atoms probe_pos))))).
Proof.
  pose proof (selection_condition lib atoms cutoff) as Hsel.
  split_and!.
  - unfold atoms_to_graph_index, probes_to_graph_index.
    destruct (_ || _) eqn:Hc.
    + split; [intros _; by apply Hsel|done].
    + split; [|intros Hr%Hsel; congruence].
      intros [H _]. by destruct (asap3_FullNeighborList lib cutoff atoms).
  - intros Hno. unfold atoms_to_graph_index, probes_to_graph_index.
    destruct (_ || _) eqn:Hc; [|done]. destruct Hno. by apply Hsel.
  - intros edges features nl. unfold atoms_to_graph.
    destruct (atoms_to_graph_index lib atoms cutoff) as [nl'|]; simpl; [|done].
    destruct (comprehension _ _); simpl; [|done]. by intros [= _ _ ->].
  - intros nl Hnl. by destruct nl.
Qed.

(** *** The cutoff check *)

Lemma take_ok {A} (a : list A) (idx : list nat) :
  Forall (λ i, (i < length a)%nat) idx →
  ∃ xs, take a idx = Ok xs ∧ length xs = length idx.
Proof.
  intros Hidx. unfold take.
  destruct (comprehension_total
              (λ i, match a !! i with Some x => Ok x | None => Raise IndexError end)
              idx) as [xs Hxs].
  - eapply Forall_impl; [done|]. intros i Hi. simpl in Hi.
    destruct (lookup_lt_is_Some_2 a i Hi) as [x ->]. by eexists.
  - exists xs. split; [done|].
    apply comprehension_Forall2 in Hxs. by rewrite (Forall2_length _ _ _ Hxs).
Qed.

Lemma take_lookup {A} (a : list A) (idx : list nat) xs :
  take a idx = Ok xs → Forall2 (λ i x, a !! i = Some x) idx xs.
Proof.
  intros H%comprehension_Forall2. eapply Forall2_impl; [done|].
  intros i x. simpl. by destruct (a !! i); intros [= ->].
Qed.

Lemma wrapper_mismatch lib c atoms i c' :
  c' ≠ c →
  wrapper_get_neighbors (wrapper_init lib c atoms) i c'
  = Raise (AssertionError
             "Cutoff must be the same as used to initialise the neighborlist").
Proof.
  intros Hne. unfold wrapper_get_neighbors. simpl.
  by destruct (decide (c' = c)).
Qed.

Lemma wrapper_same_cutoff lib c atoms i indices offsets :
  primitive_get_neighbors (neighborlist (wrapper_init lib c atoms)) i
    = Ok (indices, offsets) →
  length indices = length offsets →
  Forall (λ j, (j < length (positions atoms))%nat) indices →
  (i < length (positions atoms))%nat →
  ∃ rel dist2,
    wrapper_get_neighbors (wrapper_init lib c atoms) i c
      = Ok (indices, rel, dist2)
    ∧ length rel = length indices ∧ dist2 = norm2 <$> rel.
Proof.
  intros Hget Hlen Hidx Hi. unfold wrapper_get_neighbors.
  destruct (decide (c = cutoff (wrapper_init lib c atoms))) as [_|]; [|done].
  rewrite Hget. simpl.
  destruct (take_ok (positions atoms) indices Hidx) as (ps & -> & Hps). simpl.
  destruct (decide _) as [_|]; [|done].
  destruct (take_ok (positions atoms) [i]) as (self_pos & -> & _).
  { by apply Forall_singleton. }
  simpl. eexists _, _. split_and!; [done| |done].
  rewrite length_zip_with. lia.
Qed.

Lemma probes_fast_ignores_cutoff lib atoms probe_pos f (c1 c2 : Qc) :
  probes_to_graph lib atoms probe_pos c1 (Fast f)
  = probes_to_graph lib atoms probe_pos c2 (Fast f).
Proof. reflexivity. Qed.

(** C9 (as amended).  The fallback index checks the cutoff of every
    query: a cutoff other than the one it was built with raises the
    assertion error, and the same cutoff passes the check and returns the
    neighbours whenever the underlying list answers with indices of the
    structure.  The fast index is queried through the library: its point
    query takes no cutoff at all, so [probes_to_graph] with a fast index
    gives the same result for every cutoff passed to it. *)
Theorem cutoff_checked_by_fallback_index (lib : libraries) (c : Qc) (atoms : Atoms) :
  (∀ i c', c' ≠ c →
     index_get_neighbors (Fallback (wrapper_init lib c atoms)) i c'
     = Raise (AssertionError
                "Cutoff must be the same as used to initialise the neighborlist"))
  ∧ (∀ i indices offsets,
       primitive_get_neighbors (neighborlist (wrapper_init lib c atoms)) i
         = Ok (indices, offsets) →
       length indices = length offsets →
       Forall (λ j, (j < length (positions atoms))%nat) indices →
       (i < length (positions atoms))%nat →
       ∃ rel dist2,
         index_get_neighbors (Fallback (wrapper_init lib c atoms)) i c
           = Ok (indices, rel, dist2))
  ∧ (∀ f i c', index_get_neighbors (Fast f) i c' = get_neighbors f i c')
  ∧ (∀ f probe_pos c1 c2,
       probes_to_graph lib atoms probe_pos c1 (Fast f)
       = probes_to_graph lib atoms probe_pos c2 (Fast f)).
Proof.
  split_and!.
  - intros i c' Hne. by apply wrapper_mismatch.
  - intros i indices offsets Hget Hlen Hidx Hi. simpl.
    destruct (wrapper_same_cutoff lib c atoms i indices offsets)
      as (rel & dist2 & -> & _); eauto.
  - done.
  - intros. apply probes_fast_ignores_cutoff.
Qed.

(** *** Probe edges *)

Lemma mask_spec {A} (a : list A) (m : list bool) xs :
  mask a m = Ok xs →
  length a = length m
  ∧ xs = (fst <$> filter (λ xb, xb.2 = true) (zip a m)).
Proof. unfold mask. destruct (decide _); [|done]. by intros [= <-]. Qed.

Lemma mask_elem {A} (a : list A) (m : list bool) xs x :
  mask a m = Ok xs → x ∈ xs →
  ∃ p, a !! p = Some x ∧ m !! p = Some true.
Proof.
  intros [_ ->]%mask_spec ([x' b] & -> & Hin)%list_elem_of_fmap.
  apply list_elem_of_filter in Hin as [Hb Hin]. simpl in *. subst b.
  apply list_elem_of_lookup in Hin as [p Hp].
  apply lookup_zip_with_Some in Hp as (y & b & [= <- <-] & ? & ?).
  by exists p.
Qed.

Lemma mask_length {A B} (a : list A) (b : list B) (m : list bool) xs ys :
  mask a m = Ok xs → mask b m = Ok ys → length xs = length ys.
Proof.
  intros [Ha ->]%mask_spec [Hb ->]%mask_spec. rewrite !length_fmap.
  revert a b Ha Hb. induction m as [|t m IH]; intros [|x a] [|y b] Ha Hb;
    simplify_eq/=; [done|].
  rewrite !filter_cons. simpl.
  destruct t; repeat case_decide; try done; simpl; auto.
Qed.

Lemma stack_axis1_spec {A} (a b : list A) e :
  stack_axis1 a b = Ok e →
  length a = length b ∧ width e = 2%nat
  ∧ rows e = zip_with (λ x y, [x; y]) a b.
Proof. unfold stack_axis1. destruct (decide _); [|done]. by intros [= <-]. Qed.

Lemma stack_self_index_rows (idx : list nat) (i : nat) e :
  stack_axis1 idx (replicate (length idx) i) = Ok e →
  width e = 2%nat ∧ rows e = (λ j, [j; i]) <$> idx.
Proof.
  intros (_ & Hw & ->)%stack_axis1_spec. split; [done|].
  clear Hw. induction idx as [|j idx IH]; simpl; [done|]. by rewrite IH.
Qed.

Lemma probe_edges_of_spec lib atomic_numbers i r e f :
  probe_edges_of lib atomic_numbers i r = Ok (e, f) →
  width e = 2%nat
  ∧ length f = length (rows e)
  ∧ ∀ row, row ∈ rows e →
      ∃ a z, row = [a; i] ∧ atomic_numbers !! a = Some z ∧ z ≠ 0%Z.
Proof.
  destruct r as [[neigh_idx neigh_diff] neigh_dist2]. unfold probe_edges_of.
  intros (species & Htake & H)%bind_ok.
  apply bind_ok in H as (neigh_atoms & Hmask & H).
  apply bind_ok in H as (edges & Hstack & H).
  apply bind_ok in H as (features & Hfeat & [= <- <-]).
  apply stack_self_index_rows in Hstack as [Hw Hrows].
  split_and!; [done| |].
  - rewrite Hrows, length_fmap. symmetry. by eapply mask_length.
  - intros row. rewrite Hrows.
    intros (a & -> & Ha)%list_elem_of_fmap.
    destruct (mask_elem _ _ _ _ Hmask Ha) as (p & Hp & Hm).
    apply list_lookup_fmap_Some in Hm as (z & Hz & Hs).
    apply take_lookup in Htake.
    destruct (Forall2_lookup_l _ _ _ _ _ Htake Hp) as (z' & Hz' & Hnum).
    assert (z' = z) as -> by congruence.
    exists a, z. split_and!; [done|done|].
    symmetry in Hz. by apply bool_decide_eq_true_1 in Hz.
Qed.

Lemma comprehension_imap_lookup {A B} (g : nat * A → result B) results ys k y :
  comprehension g (imap (λ i r, (i, r)) results) = Ok ys →
  ys !! k = Some y →
  ∃ r, results !! k = Some r ∧ g (k, r) = Ok y.
Proof.
  intros H%comprehension_Forall2 Hk.
  destruct (Forall2_lookup_r _ _ _ _ _ H Hk) as ([k' r] & Hir & Hg).
  rewrite list_lookup_imap in Hir.
  destruct (results !! k) as [r'|] eqn:Hr; simplify_eq/=. by exists r.
Qed.

Lemma comprehension_length {A B} (g : A → result B) l ys :
  comprehension g l = Ok ys → length ys = length l.
Proof.
  intros H%comprehension_Forall2. by rewrite (Forall2_length _ _ _ H).
Qed.

Lemma probe_results_spec lib atoms probe_pos cutoff nl results atomic_numbers :
  (∀ f rs, nl = Fast f → get_neighbors_querypoint f probe_pos = Ok rs →
           length rs = length probe_pos) →
  probe_results lib atoms probe_pos cutoff nl = Ok (results, atomic_numbers) →
  length results = length probe_pos
  ∧ ∀ a z, atomic_numbers !! a = Some z → z ≠ 0%Z →
           (a < len atoms)%nat ∧ numbers atoms !! a = Some z.
Proof.
  intros Hfast Hres.
  assert (∀ a z, (numbers atoms ++ replicate (length probe_pos) 0%Z) !! a = Some z →
                 z ≠ 0%Z → (a < len atoms)%nat ∧ numbers atoms !! a = Some z) as Happ.
  { intros a z Ha Hz. apply lookup_app_Some in Ha as [Ha|[_ Ha]].
    - split; [|done]. by apply lookup_lt_Some in Ha.
    - by apply lookup_replicate in Ha as [-> _]. }
  assert (∀ nl', nl' = NoIndex ∨ (∃ w, nl' = Fallback w) →
    (nl0 <- probes_to_graph_index lib atoms
              (extend atoms (probe_atoms probe_pos)) cutoff;
     rs <- comprehension
             (λ i, index_get_neighbors nl0 (i + len atoms)%nat cutoff)
             (seq 0 (length probe_pos));
     Ok (rs, numbers (extend atoms (probe_atoms probe_pos))))
    = Ok (results, atomic_numbers) →
    length results = length probe_pos
    ∧ ∀ a z, atomic_numbers !! a = Some z → z ≠ 0%Z →
             (a < len atoms)%nat ∧ numbers atoms !! a = Some z) as Hslow.
  { intros _ _ (nl0 & _ & H)%bind_ok.
    apply bind_ok in H as (rs & Hrs & [= <- <-]).
    split; [|done].
    by rewrite (comprehension_length _ _ _ Hrs), length_seq. }
  destruct nl as [|f|w]; simpl in Hres.
  - apply (Hslow NoIndex); [by left|done].
  - apply bind_ok in Hres as (rs & Hrs & [= <- <-]). split; [by eapply Hfast|].
    intros a z Ha _. split; [|done]. by apply lookup_lt_Some in Ha.
  - apply (Hslow (Fallback w)); [right; by eexists|done].
Qed.

(** C7.  Every row of every array [probes_to_graph] returns is a pair
    [atom index, probe index]: the first entry is an index into the atoms
    of the structure (and that atom has a non-zero atomic number, so it is
    not one of the probes appended as pseudo-atoms), and the second is the
    position of the probe in the probe set, below [num_probes]; there is
    one array per probe.  The library's point query is assumed to answer
    with one result per query point. *)
Theorem probe_edges_link_atoms_to_probes (lib : libraries) (atoms : Atoms)
    (probe_pos : list vec3) (cutoff : Qc) (nl : neighbor_index)
    (edges : list (ndarray2 nat)) (features : list (list Qc)) :
  (∀ f rs, nl = Fast f → get_neighbors_querypoint f probe_pos = Ok rs →
           length rs = length probe_pos) →
  probes_to_graph lib atoms probe_pos cutoff nl = Ok (edges, features) →
  length edges = length probe_pos
  ∧ ∀ k e row, edges !! k = Some e → row ∈ rows e →
      width e = 2%nat
      ∧ ∃ a z, row = [a; k]
               ∧ (k < length probe_pos)%nat
               ∧ (a < len atoms)%nat
               ∧ numbers atoms !! a = Some z ∧ z ≠ 0%Z.
Proof.
  intros Hfast. unfold probes_to_graph.
  intros ([results atomic_numbers] & Hres & H)%bind_ok.
  apply bind_ok in H as (per_probe & Hper & [= <- <-]).
  destruct (probe_results_spec _ _ _ _ _ _ _ Hfast Hres) as [Hlen Hnum].
  assert (length per_probe = length probe_pos) as Hlen'.
  { by rewrite (comprehension_length _ _ _ Hper), length_imap. }
  split; [by rewrite length_fmap|].
  intros k e row Hk Hrow.
  apply list_lookup_fmap_Some in Hk as ([e' f] & -> & Hk). simpl in Hrow.
  pose proof (lookup_lt_Some _ _ _ Hk) as Hklt.
  destruct (comprehension_imap_lookup _ _ _ _ _ Hper Hk) as (r & Hr & Hg).
  simpl in Hg. apply probe_edges_of_spec in Hg as (Hw & _ & Hrows).
  split; [done|].
  destruct (Hrows row Hrow) as (a & z & -> & Ha & Hz).
  destruct (Hnum a z Ha Hz) as [Halt Hanum].
  exists a, z. split_and!; try done. lia.
Qed.

(** *** Atom edges *)

(** [src -> tgt] with length [d] is an edge of the graph: some row [k] of
    the array built for some atom is [[src; tgt]] and entry [k] of that
    atom's feature array is [d]. *)
Definition has_edge (edges : list (ndarray2 nat)) (features : list (list Qc))
    (src tgt : nat) (d : Qc) : Prop :=
  ∃ i e f k, edges !! i = Some e ∧ features !! i = Some f
             ∧ rows e !! k = Some [src; tgt] ∧ f !! k = Some d.

Definition opposite (S : offset) : offset :=
  let '(a, b, c) := S in (- a, - b, - c)%Z.

(** An image is displaced along periodic directions only. *)
Definition respects_pbc (flags : bool * bool * bool) (S : offset) : Prop :=
  let '(px, py, pz) := flags in
  let '(x, y, z) := S in
  (px = false → x = 0%Z) ∧ (py = false → y = 0%Z) ∧ (pz = false → z = 0%Z).

(** The squared distance from the atom at [p_i] to the image of the atom
    at [p_j] displaced by [S] lattice vectors, in the order in which
    [AseNeigborListWrapper.get_neighbors] computes it. *)
Definition image_dist2 (cell : vec3 * vec3 * vec3) (p_i p_j : vec3)
    (S : offset) : Qc :=
  norm2 (vsub (vadd p_j (offset_at_cell S cell)) p_i).

(** What is taken of an [ase] primitive list, by the options it was built
    with.  The list decides by a criterion [near] on the squared distance
    which images are neighbours.  Every entry [(j, S)] of atom [i] is an
    image within reach, displaced along periodic directions only and,
    without self interaction, not atom [i] itself in place; and a list
    built both ways holds every such image.  (Of a list that is not built
    both ways nothing is taken but the first part.) *)
Definition primitive_contract (near : Qc → Prop) (opts : primitive_options)
    (flags : bool * bool * bool) (cell : vec3 * vec3 * vec3)
    (pos : list vec3) (p : PrimitiveNeighborList) : Prop :=
  ∀ i p_i idx offs,
    pos !! i = Some p_i →
    primitive_get_neighbors p i = Ok (idx, offs) →
    (∀ k j S p_j,
       idx !! k = Some j → offs !! k = Some S → pos !! j = Some p_j →
       respects_pbc flags S
       ∧ near (image_dist2 cell p_i p_j S)
       ∧ (self_interaction opts = false → (j, S) ≠ (i, (0, 0, 0)%Z)))
    ∧ (bothways opts = true →
       ∀ j S p_j,
         pos !! j = Some p_j → respects_pbc flags S →
         near (image_dist2 cell p_i p_j S) →
         (self_interaction opts = false → (j, S) ≠ (i, (0, 0, 0)%Z)) →
         ∃ k, idx !! k = Some j ∧ offs !! k = Some S).

(** The contract of [NewPrimitiveNeighborList] over a structure, for
    every choice of the two flags. *)
Definition ase_contract (lib : libraries) (near : Qc → Prop) (c : Qc)
    (atoms : Atoms) : Prop :=
  ∀ si bw,
    primitive_contract near
      {| skin := Q2Qc 0; self_interaction := si; bothways := bw |}
      (pbc atoms) (cell atoms) (positions atoms)
      (ase_NewPrimitiveNeighborList lib c
         {| skin := Q2Qc 0; self_interaction := si; bothways := bw |}
         (pbc atoms) (cell atoms) (positions atoms)).

(** What is taken of an [asap3] full list: a query that returns is a
    query for an atom of the structure, and its entries are exactly the
    images within reach other than the atom itself in place, each with
    its squared distance. *)
Definition full_contract (near : Qc → Prop) (atoms : Atoms) (c : Qc)
    (f : FullNeighborList) : Prop :=
  ∀ i idx rel d2,
    get_neighbors f i c = Ok (idx, rel, d2) →
    ∃ p_i,
      positions atoms !! i = Some p_i
      ∧ (∀ k j q,
           idx !! k = Some j → d2 !! k = Some q →
           ∃ S p_j,
             positions atoms !! j = Some p_j
             ∧ respects_pbc (pbc atoms) S
             ∧ q = image_dist2 (cell atoms) p_i p_j S
             ∧ near q
             ∧ (j, S) ≠ (i, (0, 0, 0)%Z))
      ∧ (∀ j S p_j,
           positions atoms !! j = Some p_j →
           respects_pbc (pbc atoms) S →
           near (image_dist2 (cell atoms) p_i p_j S) →
           (j, S) ≠ (i, (0, 0, 0)%Z) →
           ∃ k, idx !! k = Some j
                ∧ d2 !! k = Some (image_dist2 (cell atoms) p_i p_j S)).

Definition asap3_contract (lib : libraries) (near : Qc → Prop) (c : Qc)
    (atoms : Atoms) : Prop :=
  ∀ f, asap3_FullNeighborList lib c atoms = Ok f →
       full_contract near atoms c f.

(** Seen from the other end, an image is as far away: in exact
    arithmetic the two sums the code forms agree. *)
Lemma image_dist2_opposite (cell : vec3 * vec3 * vec3) (p q : vec3)
    (S : offset) :
  image_dist2 cell q p (opposite S) = image_dist2 cell p q S.
Proof.
  destruct p as [[p1 p2] p3], q as [[q1 q2] q3], S as [[s1 s2] s3],
    cell as [[[[a1 a2] a3] [[b1 b2] b3]] [[c1 c2] c3]].
  unfold image_dist2, opposite, offset_at_cell, vscale, vadd, vsub, norm2.
  rewrite !Z2Qc_inj_opp. ring.
Qed.

Lemma image_dist2_self (cell : vec3 * vec3 * vec3) (p : vec3) (S : offset) :
  image_dist2 cell p p S = norm2 (offset_at_cell S cell).
Proof.
  destruct p as [[p1 p2] p3], S as [[s1 s2] s3],
    cell as [[[[a1 a2] a3] [[b1 b2] b3]] [[c1 c2] c3]].
  unfold image_dist2, offset_at_cell, vscale, vadd, vsub, norm2. ring.
Qed.

Lemma respects_pbc_opposite flags S :
  respects_pbc flags S → respects_pbc flags (opposite S).
Proof.
  destruct flags as [[px py] pz], S as [[x y] z]. simpl.
  intros (Hx & Hy & Hz). split_and!; intros H; [rewrite Hx|rewrite Hy|rewrite Hz];
    done.
Qed.

Lemma respects_no_pbc S :
  respects_pbc (false, false, false) S → S = (0, 0, 0)%Z.
Proof.
  destruct S as [[x y] z]. simpl. intros (-> & -> & ->); done.
Qed.

Lemma opposite_origin S : opposite S = (0, 0, 0)%Z → S = (0, 0, 0)%Z.
Proof.
  destruct S as [[x y] z]. simpl. intros [= Hx Hy Hz]. f_equal; [f_equal|]; lia.
Qed.

(** What a successful query of the wrapper returned, entry by entry. *)
Lemma wrapper_get_neighbors_entries w i c idx rel d2 :
  wrapper_get_neighbors w i c = Ok (idx, rel, d2) →
  ∃ offs p_i,
    primitive_get_neighbors (neighborlist w) i = Ok (idx, offs)
    ∧ atoms_positions w !! i = Some p_i
    ∧ ∀ k j, idx !! k = Some j →
        ∃ S p_j, offs !! k = Some S ∧ atoms_positions w !! j = Some p_j
                 ∧ d2 !! k = Some (image_dist2 (atoms_cell w) p_i p_j S).
Proof.
  unfold wrapper_get_neighbors. destruct (decide _); [|done].
  intros ([idx0 offs] & Hprim & H)%bind_ok.
  apply bind_ok in H as (neigh_pos & Htake & H).
  destruct (decide _) as [Hlen|]; [|done].
  apply bind_ok in H as (self_pos & Hself & [= <- <- <-]).
  apply take_lookup in Hself.
  apply Forall2_cons_inv_l in Hself as (p_i & tl & Hpi & Htl & ->).
  apply Forall2_nil_inv_l in Htl as ->. simpl.
  exists offs, p_i. split_and!; [done|done|].
  intros k j Hk. apply take_lookup in Htake.
  destruct (Forall2_lookup_l _ _ _ _ _ Htake Hk) as (p_j & Hpj & Hpos).
  destruct (lookup_lt_is_Some_2 offs k) as [S HS].
  { rewrite <- Hlen. by eapply lookup_lt_Some. }
  exists S, p_j. split_and!; [done|done|].
  rewrite list_lookup_fmap, lookup_zip_with, Hpj. simpl. by rewrite HS.
Qed.

Lemma atom_edges_of_spec lib atoms c nl i e f :
  atom_edges_of lib atoms c nl i = Ok (e, f) →
  ∃ idx rel d2,
    index_get_neighbors nl i c = Ok (idx, rel, d2)
    ∧ width e = 2%nat
    ∧ rows e = (λ j, [j; i]) <$> idx
    ∧ f = (np_sqrt lib <$> d2)
    ∧ Forall (λ j, (j < len atoms)%nat) idx.
Proof.
  unfold atom_edges_of. intros ([[idx rel] d2] & Hget & H)%bind_ok.
  apply bind_ok in H as (species & Htake & H).
  apply bind_ok in H as (edges & Hstack & [= <- <-]).
  apply stack_self_index_rows in Hstack as [Hw Hrows].
  exists idx, rel, d2. split_and!; try done.
  apply take_lookup in Htake. apply Forall_forall. intros j Hj.
  apply list_elem_of_lookup in Hj as [k Hk].
  destruct (Forall2_lookup_l _ _ _ _ _ Htake Hk) as (z & _ & Hz).
  by apply lookup_lt_Some in Hz.
Qed.

Lemma atoms_to_graph_per_atom lib atoms c edges features nl :
  atoms_to_graph lib atoms c = Ok (edges, features, nl) →
  atoms_to_graph_index lib atoms c = Ok nl
  ∧ length edges = len atoms
  ∧ ∀ i, ((∃ e f, edges !! i = Some e ∧ features !! i = Some f)
          ∨ (edges !! i = None ∧ features !! i = None ∧ (len atoms ≤ i)%nat))
         ∧ ∀ e f, edges !! i = Some e → features !! i = Some f →
                  atom_edges_of lib atoms c nl i = Ok (e, f).
Proof.
  unfold atoms_to_graph. intros (nl0 & Hnl & H)%bind_ok.
  apply bind_ok in H as (per_atom & Hper & [= <- <- <-]).
  pose proof (comprehension_length _ _ _ Hper) as Hlen.
  rewrite length_seq in Hlen.
  split_and!; [done|by rewrite length_fmap|].
  intros i. split.
  - rewrite !list_lookup_fmap.
    destruct (per_atom !! i) as [[e f]|] eqn:Hi; simpl.
    + left. by exists e, f.
    + right. split_and!; try done. apply lookup_ge_None in Hi. lia.
  - intros e f. rewrite !list_lookup_fmap.
    destruct (per_atom !! i) as [[e' f']|] eqn:Hi; simpl; [|done].
    intros [= ->] [= ->].
    apply comprehension_Forall2 in Hper.
    destruct (Forall2_lookup_r _ _ _ _ _ Hper Hi) as (i' & Hseq & Hg).
    apply lookup_seq in Hseq as [-> _]. done.
Qed.

(** An edge of the graph, read back as an entry of a neighbour query. *)
Lemma has_edge_query lib atoms c edges features nl src tgt d :
  atoms_to_graph lib atoms c = Ok (edges, features, nl) →
  has_edge edges features src tgt d ↔
  ∃ idx rel d2 k q,
    (tgt < len atoms)%nat
    ∧ index_get_neighbors nl tgt c = Ok (idx, rel, d2)
    ∧ idx !! k = Some src ∧ d2 !! k = Some q ∧ d = np_sqrt lib q.
Proof.
  intros Hrun.
  destruct (atoms_to_graph_per_atom _ _ _ _ _ _ Hrun) as (_ & Hlen & Hper).
  split.
  - intros (i & e & f & k & He & Hf & Hrow & Hd).
    destruct (Hper i) as [_ Hspec].
    destruct (atom_edges_of_spec _ _ _ _ _ _ _ (Hspec e f He Hf))
      as (idx & rel & d2 & Hget & _ & Hrows & -> & _).
    rewrite Hrows in Hrow.
    apply list_lookup_fmap_Some in Hrow as (j & [= <- <-] & Hj).
    apply list_lookup_fmap_Some in Hd as (q & -> & Hq).
    exists idx, rel, d2, k, q. split_and!; try done.
    rewrite <- Hlen. by eapply lookup_lt_Some.
  - intros (idx & rel & d2 & k & q & Hlt & Hget & Hk & Hq & ->).
    destruct (Hper tgt) as [[(e & f & He & Hf)|(_ & _ & ?)] Hspec]; [|lia].
    destruct (atom_edges_of_spec _ _ _ _ _ _ _ (Hspec e f He Hf))
      as (idx' & rel' & d2' & Hget' & _ & Hrows & -> & _).
    rewrite Hget in Hget'. injection Hget' as <- <- <-.
    exists tgt, e, (np_sqrt lib <$> d2), k. split_and!; try done.
    + by rewrite Hrows, list_lookup_fmap, Hk.
    + by rewrite list_lookup_fmap, Hq.
Qed.

Lemma has_edge_source_in_range lib atoms c edges features nl src tgt d :
  atoms_to_graph lib atoms c = Ok (edges, features, nl) →
  has_edge edges features src tgt d → (src < len atoms)%nat.
Proof.
  intros Hrun (i & e & f & k & He & Hf & Hrow & Hd).
  destruct (atoms_to_graph_per_atom _ _ _ _ _ _ Hrun) as (_ & _ & Hper).
  destruct (Hper i) as [_ Hspec].
  destruct (atom_edges_of_spec _ _ _ _ _ _ _ (Hspec e f He Hf))
    as (idx & rel & d2 & _ & _ & Hrows & _ & Hidx).
  rewrite Hrows in Hrow.
  apply list_lookup_fmap_Some in Hrow as (j & [= <- <-] & Hj).
  by eapply Forall_lookup_1 in Hidx.
Qed.

Lemma query_of_atom lib atoms c edges features nl i :
  atoms_to_graph lib atoms c = Ok (edges, features, nl) →
  (i < len atoms)%nat →
  ∃ idx rel d2, index_get_neighbors nl i c = Ok (idx, rel, d2).
Proof.
  intros Hrun Hi.
  destruct (atoms_to_graph_per_atom _ _ _ _ _ _ Hrun) as (_ & _ & Hper).
  destruct (Hper i) as [[(e & f & He & Hf)|(_ & _ & ?)] Hspec]; [|lia].
  destruct (atom_edges_of_spec _ _ _ _ _ _ _ (Hspec e f He Hf))
    as (idx & rel & d2 & Hget & _). eauto.
Qed.

Lemma index_fallback lib atoms c :
  fallback_rule lib atoms c →
  atoms_to_graph_index lib atoms c = Ok (Fallback (wrapper_init lib c atoms)).
Proof.
  intros H%selection_condition. unfold atoms_to_graph_index. by rewrite H.
Qed.

Lemma index_fast lib atoms c f :
  atoms_to_graph_index lib atoms c = Ok (Fast f) → ¬ fallback_rule lib atoms c.
Proof.
  intros Hidx Hr%index_fallback. congruence.
Qed.

Lemma index_never_none lib atoms c :
  atoms_to_graph_index lib atoms c ≠ Ok NoIndex.
Proof.
  unfold atoms_to_graph_index. destruct (_ || _); [done|].
  by destruct (asap3_FullNeighborList lib c atoms).
Qed.

(** What an index built by [atoms_to_graph] answers, whichever library
    is behind it: the entries of atom [i] are exactly the images within
    reach other than atom [i] in place, each with its squared
    distance. *)
Definition geometric (near : Qc → Prop) (atoms : Atoms) (c : Qc)
    (nl : neighbor_index) : Prop :=
  ∀ i idx rel d2,
    index_get_neighbors nl i c = Ok (idx, rel, d2) →
    ∃ p_i,
      positions atoms !! i = Some p_i
      ∧ (∀ k j q,
           idx !! k = Some j → d2 !! k = Some q →
           ∃ S p_j,
             positions atoms !! j = Some p_j
             ∧ respects_pbc (pbc atoms) S
             ∧ q = image_dist2 (cell atoms) p_i p_j S
             ∧ near q
             ∧ (j, S) ≠ (i, (0, 0, 0)%Z))
      ∧ (∀ j S p_j,
           positions atoms !! j = Some p_j →
           respects_pbc (pbc atoms) S →
           near (image_dist2 (cell atoms) p_i p_j S) →
           (j, S) ≠ (i, (0, 0, 0)%Z) →
           ∃ k, idx !! k = Some j
                ∧ d2 !! k = Some (image_dist2 (cell atoms) p_i p_j S)).

(** The wrapper asks for a list both ways and without self interaction,
    and adds the distances itself. *)
Lemma wrapper_geometric lib near atoms c :
  ase_contract lib near c atoms →
  geometric near atoms c (Fallback (wrapper_init lib c atoms)).
Proof.
  intros Hase i idx rel d2 Hget. simpl in Hget.
  apply wrapper_get_neighbors_entries in Hget
    as (offs & p_i & Hprim & Hpos & Hent).
  simpl in Hprim, Hpos, Hent.
  destruct (Hase false true i p_i idx offs Hpos Hprim) as [Hsound Hcomplete].
  exists p_i. split_and!; [done| |].
  - intros k j q Hk Hq.
    destruct (Hent k j Hk) as (S & p_j & HS & Hpj & Hd).
    destruct (Hsound k j S p_j Hk HS Hpj) as (Hpbc & Hnear & Hself).
    exists S, p_j. rewrite Hq in Hd. injection Hd as ->.
    split_and!; try done. by apply Hself.
  - intros j S p_j Hpj Hpbc Hnear Hne.
    destruct (Hcomplete eq_refl j S p_j Hpj Hpbc Hnear (λ _, Hne))
      as (k & Hk & HS).
    exists k. split; [done|].
    destruct (Hent k j Hk) as (S' & p_j' & HS' & Hpj' & Hd).
    by assert (S' = S) as -> by congruence;
       assert (p_j' = p_j) as -> by congruence.
Qed.

Lemma index_geometric lib near atoms c nl :
  atoms_to_graph_index lib atoms c = Ok nl →
  ase_contract lib near c atoms →
  asap3_contract lib near c atoms →
  geometric near atoms c nl.
Proof.
  unfold atoms_to_graph_index. intros Hidx Hase Hasap.
  destruct (_ || _).
  - injection Hidx as <-. by apply wrapper_geometric.
  - apply bind_ok in Hidx as (f & Hf & [= <-]).
    intros i idx rel d2 Hget. simpl in Hget.
    exact (Hasap f Hf i idx rel d2 Hget).
Qed.

(** C6 (as amended).  The libraries are taken to list, for every atom,
    exactly the images of atoms within reach (the ASE list when built
    both ways, and without atom [i] itself in place when built without
    self interaction; the asap3 full list always).  Then the atom edges
    are symmetric.  An edge [src -> tgt] stands for an image of [src] at
    some cell offset [S], and its length is the root of the squared
    distance formed from [src + S@cell - tgt]; with it there is the edge
    [tgt -> src], for the image at the opposite offset, whose length is
    formed from [tgt - S@cell - src].  In exact arithmetic the two
    lengths are equal, so the edge [tgt -> src] has length [d] too; the
    float64 values of the two sums, formed in different orders, are not
    modelled.  A row [(i, i)] is never atom [i] in place: it stands for
    a periodic image of atom [i] at a non-zero cell offset [S], its
    length is the length of [S] in the cell, and a structure without
    periodic directions has none. *)
Theorem atom_edges_symmetric (lib : libraries) (near : Qc → Prop)
    (atoms : Atoms) (c : Qc) (edges : list (ndarray2 nat))
    (features : list (list Qc)) (nl : neighbor_index) :
  atoms_to_graph lib atoms c = Ok (edges, features, nl) →
  ase_contract lib near c atoms →
  asap3_contract lib near c atoms →
  (∀ src tgt d, has_edge edges features src tgt d →
                has_edge edges features tgt src d)
  ∧ (∀ src tgt d, has_edge edges features src tgt d →
       ∃ S p_src p_tgt,
         positions atoms !! src = Some p_src
         ∧ positions atoms !! tgt = Some p_tgt
         ∧ respects_pbc (pbc atoms) S
         ∧ (src, S) ≠ (tgt, (0, 0, 0)%Z)
         ∧ d = np_sqrt lib (image_dist2 (cell atoms) p_tgt p_src S)
         ∧ has_edge edges features tgt src
             (np_sqrt lib
                (image_dist2 (cell atoms) p_src p_tgt (opposite S))))
  ∧ (∀ i d, has_edge edges features i i d →
       ∃ S, S ≠ (0, 0, 0)%Z
            ∧ respects_pbc (pbc atoms) S
            ∧ d = np_sqrt lib (norm2 (offset_at_cell S (cell atoms))))
  ∧ (pbc atoms = (false, false, false) →
     ∀ i d, ¬ has_edge edges features i i d).
Proof.
  intros Hrun Hase Hasap.
  destruct (atoms_to_graph_per_atom _ _ _ _ _ _ Hrun) as (Hidx & _).
  pose proof (index_geometric _ _ _ _ _ Hidx Hase Hasap) as Hgeo.
  assert (∀ src tgt d, has_edge edges features src tgt d →
            ∃ S p_src p_tgt,
              positions atoms !! src = Some p_src
              ∧ positions atoms !! tgt = Some p_tgt
              ∧ respects_pbc (pbc atoms) S
              ∧ (src, S) ≠ (tgt, (0, 0, 0)%Z)
              ∧ d = np_sqrt lib (image_dist2 (cell atoms) p_tgt p_src S)
              ∧ has_edge edges features tgt src
                  (np_sqrt lib
                     (image_dist2 (cell atoms) p_src p_tgt (opposite S))))
    as Hboth.
  { intros src tgt d Hedge.
    pose proof (has_edge_source_in_range _ _ _ _ _ _ _ _ _ Hrun Hedge) as Hsrc.
    apply (has_edge_query _ _ _ _ _ _ _ _ _ Hrun) in Hedge
      as (idx & rel & d2 & k & q & Htgt & Hget & Hk & Hq & ->).
    destruct (query_of_atom _ _ _ _ _ _ src Hrun Hsrc)
      as (idx' & rel' & d2' & Hget').
    destruct (Hgeo tgt idx rel d2 Hget) as (p_t & Hpt & Hsound & _).
    destruct (Hgeo src idx' rel' d2' Hget') as (p_s & Hps & _ & Hcomplete).
    destruct (Hsound k src q Hk Hq)
      as (S & p_s' & Hps' & Hpbc & -> & Hnear & Hne).
    assert (p_s' = p_s) as -> by congruence.
    rewrite <- image_dist2_opposite in Hnear.
    destruct (Hcomplete tgt (opposite S) p_t Hpt
                (respects_pbc_opposite _ _ Hpbc) Hnear)
      as (k' & Hk' & Hq').
    { intros [= -> HS]. apply Hne. by rewrite (opposite_origin _ HS). }
    exists S, p_s, p_t. split_and!; try done.
    apply (has_edge_query _ _ _ _ _ _ _ _ _ Hrun).
    exists idx', rel', d2', k', (image_dist2 (cell atoms) p_s p_t (opposite S)).
    by split_and!. }
  assert (∀ i d, has_edge edges features i i d →
            ∃ S, S ≠ (0, 0, 0)%Z
                 ∧ respects_pbc (pbc atoms) S
                 ∧ d = np_sqrt lib (norm2 (offset_at_cell S (cell atoms))))
    as Hself.
  { intros i d Hedge.
    destruct (Hboth i i d Hedge)
      as (S & p & p' & Hp & Hp' & Hpbc & Hne & -> & _).
    assert (p' = p) as -> by congruence.
    exists S. split_and!; [by intros ->|done|by rewrite image_dist2_self]. }
  split_and!; [|done|done|].
  - intros src tgt d Hedge.
    destruct (Hboth src tgt d Hedge)
      as (S & p_s & p_t & _ & _ & _ & _ & -> & Hback).
    by rewrite image_dist2_opposite in Hback.
  - intros Hpbc i d Hedge.
    destruct (Hself i d Hedge) as (S & HS & Hresp & _).
    rewrite Hpbc in Hresp. by apply HS, respects_no_pbc.
Qed.

End GraphFacts.

Module GraphDictFacts.
Import Numpy Ase Graph Torch GraphDict PyFacts GraphFacts.

Lemma concatenate2_ok {A} (arrays : list (ndarray2 A)) (w : nat) :
  arrays ≠ [] → Forall (λ a, width a = w) arrays →
  concatenate2 arrays = Ok (Array2 w (concat (rows <$> arrays))).
Proof.
  intros Hne Hw. destruct arrays as [|a arrays]; [done|]. unfold concatenate2.
  assert (width a = w) as Ha by (by apply Forall_cons in Hw as [? _]).
  rewrite Ha.
  assert (forallb (λ b, Nat.eqb (width b) w) (a :: arrays) = true) as ->; [|done].
  apply forallb_forall. intros b Hb%list_elem_of_In.
  apply Nat.eqb_eq. by eapply Forall_forall in Hw.
Qed.

Lemma concatenate1_ok {A} (arrays : list (list A)) :
  arrays ≠ [] → concatenate1 arrays = Ok (concat arrays).
Proof. by destruct arrays. Qed.

Lemma concat_all_nil {A} (l : list (list A)) :
  Forall (λ x, x = []) l → concat l = [].
Proof. induction 1 as [|x l -> _ IH]; simpl; [done|]. by rewrite IH. Qed.

Lemma concat_rows_nil {A} (arrays : list (ndarray2 A)) :
  Forall (λ e, rows e = []) arrays → concat (rows <$> arrays) = [].
Proof. intros H. apply concat_all_nil. by apply Forall_fmap. Qed.

(** What [probes_to_graph] returns, array by array. *)
Lemma probes_to_graph_arrays lib atoms probe_pos c nl edges features :
  probes_to_graph lib atoms probe_pos c nl = Ok (edges, features) →
  Forall2 (λ e f, width e = 2%nat ∧ length f = length (rows e)) edges features.
Proof.
  unfold probes_to_graph. intros ([results nums] & _ & H)%bind_ok.
  apply bind_ok in H as (per_probe & Hper & [= <- <-]).
  apply comprehension_Forall2 in Hper.
  apply Forall2_fmap. clear -Hper.
  induction Hper as [|[i r] [e f] l l' H _ IH]; constructor; [|done].
  simpl in *. by apply probe_edges_of_spec in H as (? & ? & _).
Qed.

(** What [atoms_to_graph] returns, array by array. *)
Lemma atoms_to_graph_arrays lib atoms c edges features nl :
  atoms_to_graph lib atoms c = Ok (edges, features, nl) →
  length edges = len atoms ∧ length features = len atoms
  ∧ Forall (λ e, width e = 2%nat) edges.
Proof.
  unfold atoms_to_graph. intros (nl0 & _ & H)%bind_ok.
  apply bind_ok in H as (per_atom & Hper & [= <- <- <-]).
  pose proof (comprehension_length _ _ _ Hper) as Hlen.
  rewrite length_seq in Hlen. rewrite !length_fmap.
  split_and!; [done|done|].
  apply comprehension_Forall2 in Hper. apply Forall_fmap.
  clear Hlen. induction Hper as [|i [e f] l l' H _ IH]; constructor; [|done].
  simpl. by apply atom_edges_of_spec in H as (? & ? & ? & _ & ? & _).
Qed.

Lemma or_placeholder_arrays edges features :
  Forall2 (λ e f, width e = 2%nat ∧ length f = length (rows e)) edges features →
  (or_placeholder edges features).1 ≠ []
  ∧ (or_placeholder edges features).2 ≠ []
  ∧ Forall (λ e, width e = 2%nat) (or_placeholder edges features).1
  ∧ (Forall (λ e, rows e = []) edges →
     Forall (λ e, rows e = []) (or_placeholder edges features).1
     ∧ Forall (λ f, f = []) (or_placeholder edges features).2).
Proof.
  intros H. destruct H as [|e f edges features [Hw Hlen] H]; simpl.
  - split_and!; try done; repeat constructor.
  - split_and!; try done.
    + constructor; [done|]. eapply Forall2_Forall_l; [done|].
      apply Forall_true. by intros ? ? [? _].
    + intros Hnil. split; [done|].
      apply Forall_cons in Hnil as [He Hnil]. constructor.
      * apply length_zero_iff_nil. by rewrite Hlen, He.
      * clear -H Hnil. induction H as [|e' f' ? ? [_ Hl] _ IH]; [done|].
        apply Forall_cons in Hnil as [He Hnil]. constructor; [|auto].
        apply length_zero_iff_nil. by rewrite Hl, He.
Qed.

(** C8 (as amended).  For a structure with at least one atom, whenever
    the probes have been drawn and the graph construction of a training
    sample has returned, the builder returns a dictionary; if no probe has
    an edge (also when there is no probe at all, where the placeholder is
    substituted), its [probe_edges] is an array with no rows and two
    columns and its [probe_edges_features] an array with no rows and one
    column, and the same holds of [atom_edges] and [atom_edges_features]
    when no atom has a neighbour.  For a grid slice the same holds of the
    probe fields, for every structure. *)
Theorem empty_edge_sets_are_zero_row_arrays (lib : libraries)
    (density : list Qc) (atoms : Atoms) (grid_pos : list vec3) (cutoff : Qc)
    (probe_choice : list nat) :
  (0 < len atoms)%nat →
  (∀ probe_pos atom_edges atom_features nl probe_edges probe_features,
     take grid_pos probe_choice = Ok probe_pos →
     is_ok (take density probe_choice) →
     atoms_to_graph lib atoms cutoff = Ok (atom_edges, atom_features, nl) →
     probes_to_graph lib atoms probe_pos cutoff nl
       = Ok (probe_edges, probe_features) →
     ∃ res,
       atoms_and_probe_sample_to_graph_dict lib density atoms grid_pos cutoff
         probe_choice = Ok res
       ∧ (Forall (λ e, rows e = []) probe_edges →
          res !! "probe_edges" = Some (T2 (Array2 2 []))
          ∧ res !! "probe_edges_features" = Some (T2 (Array2 1 [])))
       ∧ (Forall (λ e, rows e = []) atom_edges →
          Forall (λ f, f = []) atom_features →
          res !! "atom_edges" = Some (T2 (Array2 2 []))
          ∧ res !! "atom_edges_features" = Some (T2 (Array2 1 []))))
  ∧ (∀ any_atoms slice_index meshgrid shape probe_count nl pos_index probe_pos
       probe_edges probe_features,
       GridSlice.pos_index slice_index probe_count shape = Ok pos_index →
       take meshgrid ((λ p, Z.to_nat (GridSlice.ravel p shape)) <$> pos_index)
         = Ok probe_pos →
       probes_to_graph lib any_atoms probe_pos cutoff nl
         = Ok (probe_edges, probe_features) →
       ∃ res,
         static_get_slice lib slice_index any_atoms meshgrid shape probe_count
           cutoff nl = Ok res
         ∧ (Forall (λ e, rows e = []) probe_edges →
            res !! "probe_edges" = Some (T2 (Array2 2 []))
            ∧ res !! "probe_edges_features" = Some (T2 (Array2 1 [])))).
Proof.
  intros Hatoms. split.
  - intros probe_pos ae af nl pe pf Hpos [target Htarget] Hag Hpg.
    unfold atoms_and_probe_sample_to_graph_dict.
    destruct (decide _) as [[Hz Hdraw]|_].
    { apply length_zero_iff_nil in Hz. subst grid_pos.
      destruct probe_choice as [|i draws]; [simpl in Hdraw; lia|].
      discriminate Hpos. }
    rewrite Hpos, Htarget, Hag. cbn [Py.bind]. rewrite Hpg. cbn [Py.bind].
    destruct (atoms_to_graph_arrays _ _ _ _ _ _ Hag) as (Hlen & Hlen' & Hw).
    destruct (or_placeholder_arrays _ _ (probes_to_graph_arrays _ _ _ _ _ _ _ Hpg))
      as (Hne1 & Hne2 & Hw' & Hnil).
    destruct (or_placeholder pe pf) as [pe' pf']. simpl in *.
    rewrite (concatenate2_ok ae 2), (concatenate1_ok af); try done.
    2: { intros ->. simpl in Hlen'. lia. }
    2: { intros ->. simpl in Hlen. lia. }
    cbn [Py.bind].
    rewrite (concatenate2_ok pe' 2), (concatenate1_ok pf') by done.
    cbn [Py.bind]. eexists. split; [reflexivity|]. split.
    + intros [Hpe Hpf]%Hnil.
      rewrite (concat_rows_nil _ Hpe), (concat_all_nil _ Hpf).
      by simplify_map_eq.
    + intros Hae Haf.
      rewrite (concat_rows_nil _ Hae), (concat_all_nil _ Haf).
      by simplify_map_eq.
  - intros any_atoms slice_index meshgrid [[nx ny] nz] probe_count nl pos
      probe_pos pe pf Hpos Htake Hpg.
    unfold static_get_slice. rewrite Hpos. cbn [Py.bind].
    rewrite Htake. cbn [Py.bind]. rewrite Hpg. cbn [Py.bind].
    destruct (or_placeholder_arrays _ _ (probes_to_graph_arrays _ _ _ _ _ _ _ Hpg))
      as (Hne1 & Hne2 & Hw' & Hnil).
    destruct (or_placeholder pe pf) as [pe' pf']. simpl in *.
    rewrite (concatenate2_ok pe' 2), (concatenate1_ok pf') by done.
    cbn [Py.bind]. eexists. split; [reflexivity|].
    intros [Hpe Hpf]%Hnil.
    rewrite (concat_rows_nil _ Hpe), (concat_all_nil _ Hpf).
    by simplify_map_eq.
Qed.

End GraphDictFacts.

Module CollateFacts.
Import Numpy Ase Graph Torch GraphDict Collate PyFacts.

Lemma column_lookup l k col :
  column l k = Ok col ↔ Forall2 (λ dic v, dic !! k = Some v) l col.
Proof.
  unfold column. split.
  - intros H%comprehension_Forall2. eapply Forall2_impl; [done|].
    intros dic v. unfold getitem. by destruct (dic !! k); intros [= ->].
  - intros H. apply comprehension_of_Forall2.
    eapply Forall2_impl; [done|]. intros dic v Hv. unfold getitem.
    by rewrite Hv.
Qed.

Lemma column_raise l k e :
  column l k = Raise e → e = KeyError k ∧ ∃ dic, dic ∈ l ∧ dic !! k = None.
Proof.
  intros (dic & Hdic & Hget)%comprehension_raise. unfold getitem in Hget.
  destruct (dic !! k) eqn:Hk; [done|]. injection Hget as <-. eauto.
Qed.

Lemma column_ok l k :
  (∀ dic, dic ∈ l → is_Some (dic !! k)) → is_ok (column l k).
Proof.
  intros H. apply comprehension_total, Forall_forall. intros dic Hdic.
  destruct (H dic Hdic) as [v Hv]. unfold getitem. rewrite Hv. by eexists.
Qed.

Lemma elem_of_keys (dic : gmap string tensor) k : k ∈ keys dic ↔ k ∈ dom dic.
Proof.
  unfold keys. rewrite elem_of_dom, list_elem_of_fmap. split.
  - intros ([k' v] & -> & Hkv%elem_of_map_to_list). by exists v.
  - intros [v Hv]. exists (k, v). split; [done|]. by apply elem_of_map_to_list.
Qed.

Lemma NoDup_keys (dic : gmap string tensor) : NoDup (keys dic).
Proof. apply NoDup_fst_map_to_list. Qed.

(** [dict_of_lists] returns one column per key of the first dictionary. *)
Lemma dict_of_lists_spec first rest d :
  dict_of_lists (first :: rest) = Ok d →
  d.*1 = keys first
  ∧ ∀ k col, (k, col) ∈ d → column (first :: rest) k = Ok col.
Proof.
  unfold dict_of_lists. intros H%comprehension_Forall2.
  split.
  - remember (keys first) as ks eqn:Hks. clear Hks.
    induction H as [|k [k' col] ks d Hk _ IH]; [done|].
    apply bind_ok in Hk as (col' & _ & [= <- <-]).
    rewrite fmap_cons. simpl. by f_equal.
  - intros k col Hin. apply list_elem_of_lookup in Hin as [i Hi].
    destruct (Forall2_lookup_r _ _ _ _ _ H Hi) as (k' & _ & Hk).
    by apply bind_ok in Hk as (col' & Hcol & [= <- <-]).
Qed.

Lemma dict_of_lists_raise first rest e :
  dict_of_lists (first :: rest) = Raise e →
  ∃ k dic, e = KeyError k ∧ k ∈ dom first
           ∧ dic ∈ first :: rest ∧ dic !! k = None.
Proof.
  unfold dict_of_lists. intros (k & Hk%elem_of_keys & H)%comprehension_raise.
  destruct (column (first :: rest) k) as [col|e'] eqn:Hcol; [done|].
  injection H as ->. apply column_raise in Hcol as (-> & dic & ? & ?).
  by exists k, dic.
Qed.

Lemma dict_of_lists_ok first rest :
  (∀ dic k, dic ∈ first :: rest → k ∈ dom first → is_Some (dic !! k)) →
  is_ok (dict_of_lists (first :: rest)).
Proof.
  intros H. apply comprehension_total, Forall_forall.
  intros k Hk%elem_of_keys.
  destruct (column_ok (first :: rest) k) as [col ->]; [by eauto|].
  by eexists.
Qed.

(** The batch, field by field. *)
Lemma collate_fields torch first rest pm batch :
  collate_list_of_dicts torch (first :: rest) pm = Ok batch →
  dom batch = dom first
  ∧ ∀ k, k ∈ dom first →
      ∃ col t, column (first :: rest) k = Ok col
               ∧ pad_and_stack torch col = Ok t
               ∧ batch !! k = Some (pin torch pm t).
Proof.
  unfold collate_list_of_dicts. intros (d & Hd & H)%bind_ok.
  apply bind_ok in H as (collated & Hc & [= <-]).
  apply dict_of_lists_spec in Hd as [Hkeys Hcols].
  apply comprehension_Forall2 in Hc.
  assert (collated.*1 = d.*1) as Hfst.
  { clear -Hc. induction Hc as [|[k col] [k' t] d c Hk _ IH]; [done|].
    apply bind_ok in Hk as (t' & _ & [= <- <-]).
    rewrite !fmap_cons. simpl. by f_equal. }
  assert (NoDup collated.*1) as Hnd.
  { rewrite Hfst, Hkeys. apply NoDup_keys. }
  split.
  - apply set_eq. intros k.
    rewrite dom_list_to_map_L, elem_of_list_to_set, Hfst, Hkeys.
    apply elem_of_keys.
  - intros k Hk. apply elem_of_keys in Hk. rewrite <- Hkeys in Hk.
    apply list_elem_of_fmap in Hk as ([k' col] & -> & Hin). simpl.
    apply list_elem_of_lookup in Hin as [i Hi].
    destruct (Forall2_lookup_l _ _ _ _ _ Hc Hi) as ([k'' t] & Hi' & Hk).
    apply bind_ok in Hk as (t' & Hpad & [= <- <-]). simpl in *.
    exists col, t'. split_and!; [|done|].
    + apply Hcols. by eapply list_elem_of_lookup_2.
    + apply elem_of_list_to_map_1; [done|]. by eapply list_elem_of_lookup_2.
Qed.

Lemma collate_ok torch first rest pm :
  (∀ dic k, dic ∈ first :: rest → k ∈ dom first → is_Some (dic !! k)) →
  (∀ col, length col = S (length rest) → is_ok (pad_and_stack torch col)) →
  is_ok (collate_list_of_dicts torch (first :: rest) pm).
Proof.
  intros Hkeys Hpad. unfold collate_list_of_dicts.
  destruct (dict_of_lists_ok first rest Hkeys) as [d Hd]. rewrite Hd.
  cbn [Py.bind]. apply dict_of_lists_spec in Hd as [_ Hcols].
  destruct (comprehension_total
              (λ kv : string * list tensor,
                 t <- pad_and_stack torch kv.2; Ok (kv.1, pin torch pm t)) d)
    as [collated ->]; [|by eexists].
  apply Forall_forall. intros [k col] Hin. simpl.
  destruct (Hpad col) as [t ->]; [|by eexists].
  apply Hcols, column_lookup in Hin.
  by rewrite <- (Forall2_length _ _ _ Hin).
Qed.

(** C5 (as amended).  Collation raises [KeyError] exactly when one of the
    graphs lacks a field of the FIRST graph; the fields are looked up
    before [pad_and_stack] is called at all.  When every graph has the
    fields of the first one, and [pad_and_stack] does not fail, collation
    returns a batch with exactly the fields of the first graph: a field
    that only later graphs have is dropped without an error.  An empty list
    of graphs raises [IndexError]. *)
Theorem collate_missing_field (torch : layers)
    (first : gmap string tensor) (rest : list (gmap string tensor))
    (pin_memory : bool) :
  ((∃ dic k, dic ∈ first :: rest ∧ k ∈ dom first ∧ dic !! k = None)
   ↔ ∃ k, Collate.dict_of_lists (first :: rest) = Raise (KeyError k))
  ∧ (∀ e, Collate.dict_of_lists (first :: rest) = Raise e →
       collate_list_of_dicts torch (first :: rest) pin_memory = Raise e
       ∧ ∃ k dic, e = KeyError k ∧ k ∈ dom first
                  ∧ dic ∈ first :: rest ∧ dic !! k = None)
  ∧ ((∀ dic k, dic ∈ first :: rest → k ∈ dom first → is_Some (dic !! k)) →
     (∀ col, length col = S (length rest) → is_ok (pad_and_stack torch col)) →
     ∃ batch,
       collate_list_of_dicts torch (first :: rest) pin_memory = Ok batch
       ∧ dom batch = dom first)
  ∧ collate_list_of_dicts torch [] pin_memory = Raise IndexError.
Proof.
  split_and!.
  - split.
    + intros (dic & k & Hdic & Hk & Hnone).
      destruct (Collate.dict_of_lists (first :: rest)) as [d|e] eqn:Hd.
      * apply dict_of_lists_spec in Hd as [Hkeys Hcols].
        apply elem_of_keys in Hk. rewrite <- Hkeys in Hk.
        apply list_elem_of_fmap in Hk as ([k' col] & -> & Hin).
        apply Hcols, column_lookup in Hin.
        apply list_elem_of_lookup in Hdic as [i Hi].
        destruct (Forall2_lookup_l _ _ _ _ _ Hin Hi) as (v & _ & Hv).
        simpl in *. congruence.
      * apply dict_of_lists_raise in Hd as (k' & _ & -> & _). by exists k'.
    + intros [k Hd].
      apply dict_of_lists_raise in Hd as (k' & dic & _ & ? & ? & ?).
      by exists dic, k'.
  - intros e Hd. split.
    + unfold collate_list_of_dicts. by rewrite Hd.
    + by apply dict_of_lists_raise.
  - intros Hkeys Hpad.
    destruct (collate_ok torch first rest pin_memory Hkeys Hpad) as [batch Hb].
    exists batch. split; [done|]. by apply collate_fields in Hb as [? _].
  - done.
Qed.

(** *** Batched edge indices, in the words of the specification *)

(** The number of nodes of a graph. *)
Definition spec_node_count (g : gmap string tensor) : Z :=
  match g !! "nodes" with
  | Some (T1 xs) => Z.of_nat (length xs)
  | _ => 0
  end.

Definition spec_shift (offset : Z) (x : scalar) : scalar :=
  match x with
  | IntS z => IntS (z + offset)
  | FloatS q => FloatS q
  end.

(** The rows of an edge field of all graphs in turn, those of each graph
    shifted by the number of nodes of the graphs before it. *)
Fixpoint spec_offset_rows (field : string) (offset : Z)
    (graphs : list (gmap string tensor)) : list (list scalar) :=
  match graphs with
  | [] => []
  | g :: graphs' =>
      match g !! field with
      | Some (T2 a) => map (map (spec_shift offset)) (rows a)
      | _ => []
      end ++ spec_offset_rows field (offset + spec_node_count g) graphs'
  end.

(** The claim: the batch holds the edge field concatenated with running
    node offsets. *)
Definition spec_batched_with_offsets (torch : layers) (field : string)
    (graphs : list (gmap string tensor)) : Prop :=
  ∃ batch,
    collate_list_of_dicts torch graphs false = Ok batch
    ∧ batch !! field = Some (T2 (Array2 2 (spec_offset_rows field 0 graphs))).

Lemma collate_same_column torch pm first rest batch first' rest' batch' k :
  collate_list_of_dicts torch (first :: rest) pm = Ok batch →
  collate_list_of_dicts torch (first' :: rest') pm = Ok batch' →
  k ∈ dom first → k ∈ dom first' →
  column (first :: rest) k = column (first' :: rest') k →
  batch !! k = batch' !! k.
Proof.
  intros [_ Hf]%collate_fields [_ Hf']%collate_fields Hk Hk' Hsame.
  destruct (Hf k Hk) as (col & t & Hcol & Hpad & ->).
  destruct (Hf' k Hk') as (col' & t' & Hcol' & Hpad' & ->).
  congruence.
Qed.

(** C1 (as amended).  Each field of the batch is [pad_and_stack] (then
    [pin]) of that field's values over the graphs, in order, for the fields
    of the first graph and no other.  So a batched field is determined by
    the members' values of that same field: two lists of graphs that agree
    on a field get the same batched field, whatever their node counts, and
    collation itself adds no node offset to edge indices. *)
Theorem collate_is_fieldwise (torch : layers)
    (first : gmap string tensor) (rest : list (gmap string tensor))
    (pin_memory : bool) (batch : gmap string tensor) :
  collate_list_of_dicts torch (first :: rest) pin_memory = Ok batch →
  dom batch = dom first
  ∧ (∀ k, k ∈ dom first →
       ∃ col t, Forall2 (λ dic v, dic !! k = Some v) (first :: rest) col
                ∧ pad_and_stack torch col = Ok t
                ∧ batch !! k = Some (pin torch pin_memory t))
  ∧ (∀ first' rest' batch' k,
       collate_list_of_dicts torch (first' :: rest') pin_memory = Ok batch' →
       k ∈ dom first → k ∈ dom first' →
       column (first :: rest) k = column (first' :: rest') k →
       batch !! k = batch' !! k).
Proof.
  intros Hb. destruct (collate_fields _ _ _ _ _ Hb) as [Hdom Hfields].
  split_and!; [done| |].
  - intros k Hk. destruct (Hfields k Hk) as (col & t & Hcol & Hpad & Hlook).
    exists col, t. split_and!; try done. by apply column_lookup.
  - intros first' rest' batch' k Hb' Hk Hk' Hsame.
    by eapply collate_same_column.
Qed.

End CollateFacts.

(** ** The builders on the reference structures *)

Module ReferenceFacts.
Import Numpy Ase Graph Torch GraphDict Collate Reference.
Import PyFacts GraphFacts GraphDictFacts CollateFacts.
Local Open Scope Qc_scope.

Definition chain_cutoff : Qc := Q2Qc (6 # 5).

Lemma chain_fallback : fallback_rule lib chain chain_cutoff.
Proof. apply selection_condition. by vm_compute. Qed.

Ltac qc_literals :=
  repeat (f_equal; try (apply Qc_is_canon; reflexivity)).

(** The chain's graph: atom 0 has its own two images at distance 1 and
    atom 1 twice at distance 1/2, and the same from atom 1. *)
Lemma chain_graph :
  atoms_to_graph lib chain chain_cutoff
  = Ok ([Array2 2 [[0; 0]; [0; 0]; [1; 0]; [1; 0]]%nat;
         Array2 2 [[0; 1]; [0; 1]; [1; 1]; [1; 1]]%nat],
        [[Q2Qc 1; Q2Qc 1; Q2Qc (1 # 2); Q2Qc (1 # 2)];
         [Q2Qc (1 # 2); Q2Qc (1 # 2); Q2Qc 1; Q2Qc 1]],
        Fallback (wrapper_init lib chain_cutoff chain)).
Proof.
  pose (nl := Fallback (wrapper_init lib chain_cutoff chain)).
  destruct (comprehension (atom_edges_of lib chain chain_cutoff nl)
              (seq 0 (len chain))) as [per_atom|e] eqn:Hper;
    [|by vm_compute in Hper].
  unfold atoms_to_graph.
  rewrite (index_fallback _ _ _ chain_fallback). cbn [Py.bind]. fold nl.
  rewrite Hper. cbn [Py.bind]. vm_compute in Hper. injection Hper as <-.
  cbn [fmap list_fmap fst snd]. qc_literals.
Qed.

(** *** The reference lists keep the contract of the libraries *)

(** The criterion of the reference lists: closer than the cutoff. *)
Definition within (c q : Qc) : Prop := q < c * c.

Lemma elem_of_search c flags cell pts centre keep j S rel q :
  (j, S, rel, q) ∈ search c flags cell pts centre keep ↔
  ∃ p, pts !! j = Some p ∧ S ∈ shifts flags
       ∧ rel = vsub (vadd p (offset_at_cell S cell)) centre
       ∧ q = norm2 rel ∧ q < c * c ∧ keep j S = true.
Proof.
  unfold search. rewrite list_elem_of_bind. split.
  - intros ([j' p] & Hin & Himap).
    apply elem_of_lookup_imap in Himap as (j'' & p' & [= -> ->] & Hp).
    apply list_elem_of_bind in Hin as (S' & Hin & HS).
    destruct (bool_decide _ && keep _ _) eqn:Htest;
      [|by apply elem_of_nil in Hin].
    apply list_elem_of_singleton in Hin. injection Hin as -> -> -> ->.
    apply andb_true_iff in Htest as [Hlt%bool_decide_eq_true_1 Hkeep].
    by exists p'.
  - intros (p & Hp & HS & -> & -> & Hlt & Hkeep).
    exists (j, p). split; [|apply elem_of_lookup_imap; eauto].
    apply list_elem_of_bind. exists S. split; [|done].
    rewrite bool_decide_eq_true_2, Hkeep by done. simpl.
    by apply list_elem_of_singleton.
Qed.

Lemma elem_of_shifts px py pz x y z :
  (x, y, z) ∈ shifts (px, py, pz)
  ↔ x ∈ axis_shifts px ∧ y ∈ axis_shifts py ∧ z ∈ axis_shifts pz.
Proof.
  unfold shifts. rewrite list_elem_of_bind. split.
  - intros (x' & Hin & Hx).
    apply list_elem_of_bind in Hin as (y' & Hin & Hy).
    apply list_elem_of_bind in Hin as (z' & Hin & Hz).
    apply list_elem_of_singleton in Hin. by injection Hin as -> -> ->.
  - intros (Hx & Hy & Hz). exists x. split; [|done].
    apply list_elem_of_bind. exists y. split; [|done].
    apply list_elem_of_bind. exists z. split; [|done].
    by apply list_elem_of_singleton.
Qed.

Lemma shifts_respect flags S : S ∈ shifts flags → respects_pbc flags S.
Proof.
  destruct flags as [[px py] pz], S as [[x y] z].
  intros (Hx & Hy & Hz)%elem_of_shifts. simpl.
  split_and!; intros ->; simpl in *;
    match goal with H : _ ∈ [0%Z] |- _ =>
      by apply list_elem_of_singleton in H end.
Qed.

(** The reference search looks [reach] cells far: it finds every image
    within the cutoff when none of them is further away. *)
Definition in_reach (c : Qc) (flags : bool * bool * bool)
    (cell : vec3 * vec3 * vec3) (pos : list vec3) : Prop :=
  ∀ p_i p_j S,
    p_i ∈ pos → p_j ∈ pos → respects_pbc flags S →
    within c (image_dist2 cell p_i p_j S) → S ∈ shifts flags.

Lemma primitive_keeps_contract c opts flags cell pos :
  in_reach c flags cell pos →
  primitive_contract (within c) opts flags cell pos
    (primitive c opts flags cell pos).
Proof.
  intros Hreach i p_i idx offs Hpi Hget. simpl in Hget.
  rewrite Hpi in Hget. injection Hget as <- <-. split.
  - intros k j S p_j Hk HS Hpj.
    rewrite list_lookup_fmap in Hk. rewrite list_lookup_fmap in HS.
    destruct (search _ _ _ _ _ _ !! k) as [[[[j' S'] rel] q]|] eqn:Hr;
      [|done].
    simpl in Hk, HS. injection Hk as ->. injection HS as ->.
    apply list_elem_of_lookup_2, elem_of_search in Hr
      as (p & Hp & Hsh & -> & -> & Hlt & Hkeep).
    assert (p = p_j) as -> by congruence.
    split_and!; [by apply shifts_respect|done|].
    intros Hsi [= -> ->]. rewrite Hsi in Hkeep.
    unfold is_zero in Hkeep. by rewrite !bool_decide_eq_true_2 in Hkeep.
  - intros Hbw j S p_j Hpj Hpbc Hnear Hself.
    assert ((j, S, vsub (vadd p_j (offset_at_cell S cell)) p_i,
             image_dist2 cell p_i p_j S)
            ∈ search c flags cell pos p_i
                (λ j S,
                   (self_interaction opts
                    || negb (bool_decide (j = i) && is_zero S))
                   && (bothways opts || bool_decide (i < j)%nat
                       || (bool_decide (j = i) && lex_positive S))))
      as Hin.
    { apply elem_of_search. exists p_j. split_and!; try done.
      - apply (Hreach p_i p_j); try done; by eapply list_elem_of_lookup_2.
      - rewrite Hbw. simpl. rewrite andb_true_r.
        destruct (self_interaction opts); [done|]. simpl.
        apply negb_true_iff, andb_false_iff.
        destruct (decide (j = i)) as [->|Hne].
        + right. apply bool_decide_eq_false_2. intros ->.
          by apply (Hself eq_refl).
        + left. by apply bool_decide_eq_false_2. }
    apply list_elem_of_lookup in Hin as [k Hk].
    exists k. by rewrite !list_lookup_fmap, Hk.
Qed.

Lemma full_keeps_contract c atoms :
  in_reach c (pbc atoms) (cell atoms) (positions atoms) →
  full_contract (within c) atoms c (full c atoms).
Proof.
  intros Hreach i idx rel d2 Hget. simpl in Hget.
  destruct (decide (c = c)) as [_|]; [|done].
  destruct (positions atoms !! i) as [p_i|] eqn:Hpi; [|done].
  injection Hget as <- <- <-. exists p_i. split_and!; [done| |].
  - intros k j q Hk Hq.
    rewrite list_lookup_fmap in Hk. rewrite list_lookup_fmap in Hq.
    destruct (search _ _ _ _ _ _ !! k) as [[[[j' S] rel] q']|] eqn:Hr;
      [|done].
    simpl in Hk, Hq. injection Hk as ->. injection Hq as ->.
    apply list_elem_of_lookup_2, elem_of_search in Hr
      as (p_j & Hp & Hsh & -> & -> & Hlt & Hkeep).
    exists S, p_j. split_and!; [done|by apply shifts_respect|done|done|].
    intros [= -> ->]. unfold is_zero in Hkeep.
    by rewrite !bool_decide_eq_true_2 in Hkeep.
  - intros j S p_j Hpj Hpbc Hnear Hne.
    assert ((j, S, vsub (vadd p_j (offset_at_cell S (cell atoms))) p_i,
             image_dist2 (cell atoms) p_i p_j S)
            ∈ search c (pbc atoms) (cell atoms) (positions atoms) p_i
                (λ j S, negb (bool_decide (j = i) && is_zero S)))
      as Hin.
    { apply elem_of_search. exists p_j. split_and!; try done.
      - apply (Hreach p_i p_j); try done; by eapply list_elem_of_lookup_2.
      - apply negb_true_iff, andb_false_iff.
        destruct (decide (j = i)) as [->|Hne'].
        + right. apply bool_decide_eq_false_2. by intros ->.
        + left. by apply bool_decide_eq_false_2. }
    apply list_elem_of_lookup in Hin as [k Hk].
    exists k. by rewrite !list_lookup_fmap, Hk.
Qed.

(** Rationals in canonical form, read as plain rationals. *)
Lemma this_plus (x y : Qc) : (this (x + y) == this x + this y)%Q.
Proof. unfold Qcplus. simpl. apply Qred_correct. Qed.

Lemma this_mult (x y : Qc) : (this (x * y) == this x * this y)%Q.
Proof. unfold Qcmult. simpl. apply Qred_correct. Qed.

Lemma this_Q2Qc (q : Q) : (this (Q2Qc q) == q)%Q.
Proof. simpl. apply Qred_correct. Qed.

(** Along one axis with period 1: the image [s] cells away of a point at
    most half a cell off is further than 6/5 unless [|s| <= 2]. *)
Lemma reach_bound (s : Z) (δ : Qc) :
  Q2Qc (- 1 # 2) ≤ δ → δ ≤ Q2Qc (1 # 2) →
  (Qc_of_Z s + δ) * (Qc_of_Z s + δ) < Q2Qc (6 # 5) * Q2Qc (6 # 5) →
  (- 2 ≤ s ≤ 2)%Z.
Proof.
  unfold Qcle, Qclt. rewrite !this_mult, !this_plus, !this_Q2Qc.
  change (this (Qc_of_Z s)) with (inject_Z s).
  intros Hlo Hhi H.
  destruct (decide (s ≤ -3)%Z) as [Hs|?].
  - rewrite Zle_Qle in Hs. change (inject_Z (-3)) with (-3 # 1)%Q in Hs. nra.
  - destruct (decide (3 ≤ s)%Z) as [Hs|?]; [|lia].
    rewrite Zle_Qle in Hs. change (inject_Z 3) with (3 # 1)%Q in Hs. nra.
Qed.

Lemma chain_image_dist2 (x_i x_j : Qc) (s : Z) :
  image_dist2 (cell chain) (x_i, Q2Qc 0, Q2Qc 0) (x_j, Q2Qc 0, Q2Qc 0)
    (s, 0, 0)%Z
  = (Qc_of_Z s + (x_j - x_i)) * (Qc_of_Z s + (x_j - x_i)).
Proof.
  unfold image_dist2, chain, cell, box, Qz, offset_at_cell, vscale, vadd,
    vsub, norm2.
  assert (Qc_of_Z 0 = 0) as -> by (apply Qc_is_canon; reflexivity).
  assert (Qc_of_Z 1 = 1) as -> by (apply Qc_is_canon; reflexivity).
  ring.
Qed.

Lemma chain_in_reach :
  in_reach chain_cutoff (pbc chain) (cell chain) (positions chain).
Proof.
  intros p_i p_j [[x y] z] Hi Hj (_ & Hy & Hz) Hnear.
  rewrite (Hy eq_refl), (Hz eq_refl) in *. clear Hy Hz.
  assert (∃ x_i x_j,
            p_i = (x_i, Q2Qc 0, Q2Qc 0) ∧ p_j = (x_j, Q2Qc 0, Q2Qc 0)
            ∧ Q2Qc (- 1 # 2) ≤ x_j - x_i ∧ x_j - x_i ≤ Q2Qc (1 # 2))
    as (x_i & x_j & -> & -> & Hlo & Hhi).
  { simpl in Hi, Hj.
    apply elem_of_cons in Hi as [->|Hi%list_elem_of_singleton];
      apply elem_of_cons in Hj as [->|Hj%list_elem_of_singleton];
      subst; eexists _, _; (split; [reflexivity|]); (split; [reflexivity|]);
      split; by vm_compute. }
  unfold within in Hnear. rewrite chain_image_dist2 in Hnear.
  pose proof (reach_bound x _ Hlo Hhi Hnear) as Hx.
  apply elem_of_shifts. split_and!; [|by left|by left].
  simpl. unfold reach. apply elem_of_seqZ. lia.
Qed.

Lemma chain_ase_contract :
  ase_contract lib (within chain_cutoff) chain_cutoff chain.
Proof. intros si bw. apply primitive_keeps_contract, chain_in_reach. Qed.

Lemma chain_asap3_contract :
  asap3_contract lib (within chain_cutoff) chain_cutoff chain.
Proof.
  intros f Hf. injection Hf as <-.
  apply full_keeps_contract, chain_in_reach.
Qed.

(** Counterexample to C6 as stated.  In the periodic chain the two atoms
    are half a unit apart, well within the cutoff, and the graph has the
    row (0, 0): atom 0 is linked to its own image one cell away, at
    distance 1. *)
Lemma periodic_chain_has_self_edge :
  ∃ edges features nl,
    atoms_to_graph lib chain chain_cutoff = Ok (edges, features, nl)
    ∧ has_edge edges features 1 0 (Q2Qc (1 # 2))
    ∧ has_edge edges features 0 0 (Q2Qc 1).
Proof.
  eexists _, _, _. split; [exact chain_graph|]. split.
  - exists 0%nat. eexists _, _. exists 2%nat. split_and!; reflexivity.
  - exists 0%nat. eexists _, _. exists 0%nat. split_and!; reflexivity.
Qed.

(** Without periodic directions there is nothing to search but the
    structure itself. *)
Lemma no_pbc_in_reach c cell pos : in_reach c (false, false, false) cell pos.
Proof.
  intros p_i p_j S _ _ HS%respects_no_pbc _. subst S.
  apply elem_of_shifts. split_and!; by apply list_elem_of_singleton.
Qed.

(** The dimer gets the fast index. *)
Lemma dimer_graph_runs :
  ∃ edges features,
    atoms_to_graph lib dimer (Qz 2)
    = Ok (edges, features, Fast (full (Qz 2) dimer)).
Proof.
  unfold atoms_to_graph, atoms_to_graph_index.
  destruct (_ || _) eqn:Hrule; [by vm_compute in Hrule|].
  cbn [Py.bind asap3_FullNeighborList lib].
  destruct (comprehension
              (atom_edges_of lib dimer (Qz 2) (Fast (full (Qz 2) dimer)))
              (seq 0 (len dimer))) as [per_atom|e] eqn:Hper;
    [|by vm_compute in Hper].
  by eexists _, _.
Qed.

Lemma atom_edges_symmetric_witness :
  (∃ edges features nl,
     atoms_to_graph lib chain chain_cutoff = Ok (edges, features, nl)
     ∧ ∀ src tgt d, has_edge edges features src tgt d →
                    has_edge edges features tgt src d)
  ∧ (∃ edges features nl,
       atoms_to_graph lib dimer (Qz 2) = Ok (edges, features, nl)
       ∧ has_querypoint nl = true
       ∧ ∀ src tgt d, has_edge edges features src tgt d →
                      has_edge edges features tgt src d).
Proof.
  split.
  - eexists _, _, _. split; [exact chain_graph|].
    exact (proj1 (atom_edges_symmetric lib (within chain_cutoff) chain
                    chain_cutoff _ _ _ chain_graph chain_ase_contract
                    chain_asap3_contract)).
  - destruct dimer_graph_runs as (edges & features & Hrun).
    exists edges, features, (Fast (full (Qz 2) dimer)).
    split; [exact Hrun|]. split; [reflexivity|].
    apply (atom_edges_symmetric lib (within (Qz 2)) dimer (Qz 2) _ _ _ Hrun).
    + intros si bw. apply primitive_keeps_contract, no_pbc_in_reach.
    + intros f Hf. injection Hf as <-.
      apply full_keeps_contract, no_pbc_in_reach.
Defined.

Definition quarter_probe : list vec3 := [point (1 # 4) 0 0].

Lemma chain_probe_graph :
  is_ok (probes_to_graph lib chain quarter_probe chain_cutoff NoIndex).
Proof.
  destruct (probes_to_graph lib chain quarter_probe chain_cutoff NoIndex)
    as [r|e] eqn:Hrun; [by exists r|by vm_compute in Hrun].
Qed.

Lemma probe_edges_link_atoms_to_probes_witness :
  ∃ edges features,
    probes_to_graph lib chain quarter_probe chain_cutoff NoIndex
      = Ok (edges, features)
    ∧ length edges = 1%nat
    ∧ ∀ k e row, edges !! k = Some e → row ∈ rows e →
        width e = 2%nat
        ∧ ∃ a z, row = [a; k] ∧ (k < 1)%nat ∧ (a < len chain)%nat
                 ∧ numbers chain !! a = Some z ∧ z ≠ 0%Z.
Proof.
  destruct chain_probe_graph as [[edges features] Hrun].
  exists edges, features. split; [exact Hrun|].
  apply (probe_edges_link_atoms_to_probes lib chain quarter_probe
           chain_cutoff NoIndex edges features); [|exact Hrun].
  intros f rs Hf. discriminate Hf.
Defined.

(** Counterexample to C9 as stated.  A fast index built over the dimer
    with cutoff 2 is handed to [probes_to_graph] together with the cutoff
    1/4: nothing is raised, and the probe halfway between the atoms gets
    both atoms as neighbours, at distance 1/2. *)
Lemma fast_index_accepts_other_cutoff :
  ∃ f,
    asap3_FullNeighborList lib (Qz 2) dimer = Ok f
    ∧ Q2Qc (1 # 4) ≠ Qz 2
    ∧ probes_to_graph lib dimer [point (1 # 2) 0 0] (Q2Qc (1 # 4)) (Fast f)
      = Ok ([Array2 2 [[0; 0]; [1; 0]]%nat],
            [[Q2Qc (1 # 2); Q2Qc (1 # 2)]]).
Proof.
  exists (full (Qz 2) dimer). split_and!; [done|by intros [=]|].
  destruct (probes_to_graph lib dimer [point (1 # 2) 0 0] (Q2Qc (1 # 4))
              (Fast (full (Qz 2) dimer)))
    as [[edges features]|e] eqn:Hrun; vm_compute in Hrun; [|done].
  injection Hrun as <- <-. qc_literals.
Qed.

(** A probe five units off the chain, out of reach of every atom. *)
Definition far_probe : list vec3 := [point (1 # 4) 5 0].

Lemma chain_far_probe :
  probes_to_graph lib chain far_probe chain_cutoff
    (Fallback (wrapper_init lib chain_cutoff chain))
  = Ok ([Array2 2 []], [[]]).
Proof.
  destruct (probes_to_graph lib chain far_probe chain_cutoff
              (Fallback (wrapper_init lib chain_cutoff chain)))
    as [[edges features]|e] eqn:Hrun; vm_compute in Hrun; [|done].
  by injection Hrun as <- <-.
Qed.

(** No probe at all: [probes_to_graph] returns two empty lists, and the
    builders substitute the placeholder. *)
Lemma chain_no_probe :
  probes_to_graph lib chain [] chain_cutoff
    (Fallback (wrapper_init lib chain_cutoff chain))
  = Ok ([], []).
Proof.
  destruct (probes_to_graph lib chain [] chain_cutoff
              (Fallback (wrapper_init lib chain_cutoff chain)))
    as [[edges features]|e] eqn:Hrun; vm_compute in Hrun; [|done].
  by injection Hrun as <- <-.
Qed.

Lemma empty_edge_sets_are_zero_row_arrays_witness :
  ∃ res,
    atoms_and_probe_sample_to_graph_dict lib [] chain [] chain_cutoff []
      = Ok res
    ∧ res !! "probe_edges" = Some (T2 (Array2 2 []))
    ∧ res !! "probe_edges_features" = Some (T2 (Array2 1 [])).
Proof.
  destruct (proj1 (empty_edge_sets_are_zero_row_arrays lib [] chain
                     [] chain_cutoff [] (Nat.lt_0_succ 1))
              [] _ _ _ _ _ eq_refl (ex_intro _ [] eq_refl)
              chain_graph chain_no_probe)
    as (res & Hres & Hprobe & _).
  exists res. split; [exact Hres|]. apply Hprobe. constructor.
Defined.

(** The empty structure [ase.Atoms()]: no atom, the zero cell. *)
Definition no_atoms : Atoms :=
  {| numbers := []; positions := []; cell := zero_cell;
     pbc := (false, false, false) |}.

Lemma no_atoms_fallback : fallback_rule lib no_atoms chain_cutoff.
Proof. apply selection_condition. by vm_compute. Qed.

(** Counterexample to C8 as stated.  For the empty structure and no
    probe, graph construction returns (no atom edges, no probe edges) and
    the probe placeholder is substituted, but the builder raises
    [ValueError]: [np.concatenate] is given the empty list of atom edge
    arrays. *)
Lemma empty_structure_builder_raises :
  atoms_to_graph lib no_atoms chain_cutoff
    = Ok ([], [], Fallback (wrapper_init lib chain_cutoff no_atoms))
  ∧ probes_to_graph lib no_atoms [] chain_cutoff
      (Fallback (wrapper_init lib chain_cutoff no_atoms)) = Ok ([], [])
  ∧ atoms_and_probe_sample_to_graph_dict lib [Q2Qc 1] no_atoms
      [point 0 0 0] chain_cutoff [] = Raise ValueError.
Proof.
  assert (atoms_to_graph lib no_atoms chain_cutoff
          = Ok ([], [], Fallback (wrapper_init lib chain_cutoff no_atoms)))
    as Hag.
  { unfold atoms_to_graph. by rewrite (index_fallback _ _ _ no_atoms_fallback). }
  assert (probes_to_graph lib no_atoms [] chain_cutoff
            (Fallback (wrapper_init lib chain_cutoff no_atoms)) = Ok ([], []))
    as Hpg.
  { destruct (probes_to_graph _ _ _ _ _) as [[e f]|e] eqn:Hrun;
      vm_compute in Hrun; [|done]. by injection Hrun as <- <-. }
  split_and!; [done|done|].
  unfold atoms_and_probe_sample_to_graph_dict.
  destruct (decide _) as [|_]; [done|].
  cbn [take comprehension Py.bind]. rewrite Hag. cbn [Py.bind].
  rewrite Hpg. reflexivity.
Qed.

(** *** Collation *)

Lemma pair_graph_fields :
  "atom_edges" ∈ dom pair_graph ∧ "atom_edges" ∈ dom triple_graph.
Proof. split; apply elem_of_dom; by eexists. Qed.

(** Counterexample to C1 as stated.  The graphs [pair_graph] and
    [triple_graph] have the same edges and two and three nodes.  Followed
    by [pair_graph], they would need its edges shifted by 2 in one batch
    and by 3 in the other; but both batches get their [atom_edges] from
    the same list of edge arrays, so no [pad_and_stack] whatever makes
    both batches carry the node offsets. *)
Lemma collate_cannot_offset_edges :
  ¬ ∃ torch,
      spec_batched_with_offsets torch "atom_edges" [pair_graph; pair_graph]
      ∧ spec_batched_with_offsets torch "atom_edges" [triple_graph; pair_graph].
Proof.
  intros (torch & (b & Hb & Hf) & (b' & Hb' & Hf')).
  destruct pair_graph_fields as [Hk Hk'].
  pose proof (collate_same_column torch false _ _ _ _ _ _ "atom_edges"
                Hb Hb' Hk Hk' eq_refl) as Hsame.
  rewrite Hf, Hf' in Hsame. discriminate Hsame.
Qed.

Lemma collate_is_fieldwise_witness :
  ∃ batch,
    collate_list_of_dicts count_layers
      [{[ "num_nodes" := count 2 ]}; {[ "num_nodes" := count 3 ]}] false
      = Ok batch
    ∧ dom batch = dom ({[ "num_nodes" := count 2 ]} : gmap string tensor).
Proof.
  exists {[ "num_nodes" := T1 [IntS 2; IntS 3] ]}.
  split; [reflexivity|].
  exact (proj1 (collate_is_fieldwise count_layers
                  {[ "num_nodes" := count 2 ]} [{[ "num_nodes" := count 3 ]}]
                  false {[ "num_nodes" := T1 [IntS 2; IntS 3] ]} eq_refl)).
Defined.

(** Counterexample to C5 as stated.  When the first graph lacks a field
    that a later graph has, nothing is raised: with an empty first graph
    the batch is empty whatever [pad_and_stack] does, and with a first
    graph that has only [nodes] collation succeeds for every
    [pad_and_stack] that does not itself fail. *)
Lemma later_fields_are_dropped :
  (¬ ∃ torch pin_memory,
       collate_list_of_dicts torch [∅; pair_graph] pin_memory ≠ Ok ∅)
  ∧ (¬ ∃ torch,
         (∀ col, is_ok (pad_and_stack torch col))
         ∧ ¬ is_ok (collate_list_of_dicts torch
                      [{[ "nodes" := T1 [IntS 1] ]}; pair_graph] false)).
Proof.
  split.
  - intros (torch & pm & H). by apply H.
  - intros (torch & Hpad & H). apply H. apply collate_ok; [|by intros; apply Hpad].
    intros dic k Hdic Hk. rewrite dom_singleton_L in Hk.
    apply elem_of_singleton in Hk as ->.
    apply elem_of_cons in Hdic as [->|Hdic]; [by eexists|].
    apply list_elem_of_singleton in Hdic as ->. by eexists.
Qed.

End ReferenceFacts.

(** ** Further properties *)

Module BufferDataFacts.
Import RotatingPool BufferData PyFacts.
Local Open Scope nat_scope.

Lemma comprehension_first_raise {A B} (f : A → result B) l e :
  comprehension f l = Raise e →
  ∃ i x, l !! i = Some x ∧ f x = Raise e
         ∧ ∀ j y, j < i → l !! j = Some y → is_ok (f y).
Proof.
  induction l as [|x l IH]; simpl; [done|].
  destruct (f x) as [y|e'] eqn:Hx.
  - destruct (comprehension f l) as [ys|e'']; [done|].
    intros [= ->]. destruct IH as (i & x' & Hi & Hx' & Hbefore); [done|].
    exists (S i), x'. split_and!; [done|done|].
    intros [|j] z Hj Hz; simpl in Hz.
    + injection Hz as <-. by eexists.
    + apply (Hbefore j z); [lia|done].
  - intros [= ->]. exists 0, x. split_and!; [done|done|]. lia.
Qed.

Lemma list_getitem_nonneg {A} (l : list A) (i : nat) x :
  l !! i = Some x → PyList.getitem l (Z.of_nat i) = Ok x.
Proof.
  intros Hi. pose proof (lookup_lt_Some _ _ _ Hi). unfold PyList.getitem.
  destruct (decide (Z.of_nat i < 0)%Z); [lia|].
  destruct (decide _) as [_|]; [|lia]. by rewrite Nat2Z.id, Hi.
Qed.

Lemma list_getitem_negative {A} (l : list A) (i : nat) x :
  0 < i ≤ length l → l !! (length l - i) = Some x →
  PyList.getitem l (- Z.of_nat i) = Ok x.
Proof.
  intros Hpos Hi. pose proof (lookup_lt_Some _ _ _ Hi). unfold PyList.getitem.
  destruct (decide (- Z.of_nat i < 0)%Z); [|lia].
  destruct (decide _) as [_|]; [|lia].
  replace (Z.to_nat (- Z.of_nat i + Z.of_nat (length l))) with (length l - i) by lia.
  by rewrite Hi.
Qed.

Lemma list_getitem_out_of_range {A} (l : list A) (index : Z) :
  (index < - Z.of_nat (length l) ∨ Z.of_nat (length l) ≤ index)%Z →
  PyList.getitem l index = Raise IndexError.
Proof.
  intros H. unfold PyList.getitem.
  destruct (decide (index < 0)%Z); destruct (decide _); try done; lia.
Qed.

(** X1.  [BufferData] loads the whole dataset in order when it is built:
    afterwards its length is the dataset's and item [i] is what
    [dataset[i]] returned, for indices counted from the start or (negative)
    from the end, and an index outside the range raises [IndexError].  It
    cannot be built when an item cannot be read: the error of the first
    such item is raised, and it is built whenever all items can be
    read. *)
Theorem buffer_data_mirrors_dataset {Sample} (ds : dataset (Sample := Sample)) :
  (∀ objs, init ds = Ok objs →
     len objs = ds_len ds
     ∧ (∀ i, i < ds_len ds → Ok <$> objs !! i = Some (ds_getitem ds i))
     ∧ (∀ i, i < ds_len ds →
          getitem objs (Z.of_nat i) = ds_getitem ds i)
     ∧ (∀ i, 0 < i ≤ ds_len ds →
          getitem objs (- Z.of_nat i) = ds_getitem ds (ds_len ds - i))
     ∧ (∀ index, (index < - Z.of_nat (ds_len ds)
                  ∨ Z.of_nat (ds_len ds) ≤ index)%Z →
          getitem objs index = Raise IndexError))
  ∧ (∀ e, init ds = Raise e →
       ∃ i, i < ds_len ds ∧ ds_getitem ds i = Raise e
            ∧ ∀ j, j < i → is_ok (ds_getitem ds j))
  ∧ ((∀ i, i < ds_len ds → is_ok (ds_getitem ds i)) → is_ok (init ds)).
Proof.
  split_and!.
  - intros objs Hinit. unfold init in Hinit.
    pose proof (comprehension_Forall2 _ _ _ Hinit) as HF.
    assert (length objs = ds_len ds) as Hlen.
    { by rewrite <- (Forall2_length _ _ _ HF), length_seq. }
    assert (∀ i, i < ds_len ds → ∃ x, objs !! i = Some x
                                      ∧ ds_getitem ds i = Ok x) as Hitem.
    { intros i Hi.
      destruct (Forall2_lookup_l _ _ _ _ _ HF (lookup_seq_lt 0 _ _ Hi))
        as (x & Hx & Hget). by exists x. }
    split_and!; [done| | | |].
    + intros i Hi. destruct (Hitem i Hi) as (x & -> & ->). done.
    + intros i Hi. destruct (Hitem i Hi) as (x & Hx & ->).
      by apply list_getitem_nonneg.
    + intros i Hi. destruct (Hitem (ds_len ds - i)) as (x & Hx & ->); [lia|].
      apply list_getitem_negative; [lia|]. by rewrite Hlen.
    + intros index Hindex. apply list_getitem_out_of_range. by rewrite Hlen.
  - intros e Hinit. unfold init in Hinit.
    apply comprehension_first_raise in Hinit as (i & x & Hi & Hx & Hbefore).
    apply lookup_seq in Hi as [-> Hi]. exists i. split_and!; [done|done|].
    intros j Hj. apply (Hbefore j j Hj). apply lookup_seq_lt. lia.
  - intros Hall. unfold init. apply comprehension_total, Forall_forall.
    intros i Hi%elem_of_seq. apply Hall. lia.
Qed.

End BufferDataFacts.

Module TransferThreadFacts.
Import TransferThread.
Local Open Scope nat_scope.

Lemma transfer_app {Sample} (xs ys datalist : list Sample) index :
  transfer (xs ++ ys) datalist index
  = transfer ys (transfer xs datalist index).1 (transfer xs datalist index).2.
Proof.
  revert datalist index. induction xs as [|x xs IH]; intros; simpl; [done|].
  by rewrite IH.
Qed.

Lemma transfer_length {Sample} (xs datalist : list Sample) index :
  length (transfer xs datalist index).1 = length datalist.
Proof.
  revert datalist index. induction xs as [|x xs IH]; intros; simpl; [done|].
  by rewrite IH, length_insert.
Qed.

Lemma transfer_to_end {Sample} (items datalist : list Sample) index :
  items ≠ [] → index + length items = length datalist →
  transfer items datalist index = (take index datalist ++ items, 0).
Proof.
  revert datalist index.
  induction items as [|x items IH]; intros datalist index Hne Hlen; [done|].
  destruct items as [|y items]; simpl in *.
  - destruct (decide _); [lia|]. f_equal.
    rewrite <- (take_drop index datalist) at 1.
    rewrite insert_app_r_alt by (rewrite length_take; lia).
    rewrite length_take, Nat.min_l, Nat.sub_diag by lia.
    destruct (drop index datalist) as [|z [|z' tl]] eqn:Hdrop; simpl.
    + apply (f_equal length) in Hdrop. rewrite length_drop in Hdrop.
      simpl in Hdrop. lia.
    + done.
    + apply (f_equal length) in Hdrop. rewrite length_drop in Hdrop.
      simpl in Hdrop. lia.
  - destruct (decide _) as [_|]; [|simpl in Hlen; lia].
    rewrite IH; [|done|rewrite length_insert; simpl in *; lia].
    f_equal.
    assert (is_Some (datalist !! index)) as [z Hz].
    { apply lookup_lt_is_Some. lia. }
    rewrite (take_S_r _ _ x) by (apply list_lookup_insert_eq; lia).
    rewrite take_insert_ge by lia. by rewrite <- app_assoc.
Qed.

Lemma transfer_full_round {Sample} (items datalist : list Sample) :
  datalist ≠ [] → length items = length datalist →
  transfer items datalist 0 = (items, 0).
Proof.
  intros Hne Hlen. rewrite transfer_to_end; [by rewrite take_0| |done].
  intros ->. by destruct datalist.
Qed.

(** X2.  The transfer thread fills the pool round robin: after whole
    rounds of handed-over items the pool holds exactly the items of the
    last round, in the order they were handed over, and the next slot to
    be written is slot 0 again.  The pool never changes its length. *)
Theorem transfer_thread_round_robin {Sample} (rounds : list (list Sample))
    (last_round datalist : list Sample) :
  datalist ≠ [] →
  Forall (λ r, length r = length datalist) (rounds ++ [last_round]) →
  transfer (concat (rounds ++ [last_round])) datalist 0 = (last_round, 0)
  ∧ ∀ items index,
      length (transfer items datalist index).1 = length datalist.
Proof.
  intros Hne Hlen. split; [|intros; apply transfer_length].
  revert datalist Hne Hlen.
  induction rounds as [|r rounds IH]; intros datalist Hne Hlen; simpl in *.
  - rewrite app_nil_r. apply transfer_full_round; [done|].
    by apply Forall_cons in Hlen as [? _].
  - apply Forall_cons in Hlen as [Hr Hlen].
    rewrite transfer_app, transfer_full_round by done. simpl.
    apply IH.
    + intros ->. by destruct datalist.
    + eapply Forall_impl; [done|]. intros r'. simpl. congruence.
Qed.

Lemma transfer_thread_round_robin_witness :
  transfer (concat ([[1; 2; 3]; [4; 5; 6]] ++ [[7; 8; 9]])) [0; 0; 0] 0
  = ([7; 8; 9], 0).
Proof.
  refine (proj1 (transfer_thread_round_robin [[1; 2; 3]; [4; 5; 6]]
                   [7; 8; 9] [0; 0; 0] _ _)); [done|].
  repeat constructor.
Defined.

End TransferThreadFacts.

Module GridIteratorRunFacts.
Import GridIterator GridIteratorRun.
Section stall.
Local Open Scope nat_scope.
Context {Res Tensor : Type}.
Variable to_torch : Res → Tensor.
Variable static_get_slice : nat → Res.

Local Abbreviation delivered k := (to_torch (static_get_slice k)).

Lemma retrieve_never_arrives k finished order :
  k ∉ order → finished !! k = None →
  retrieve to_torch k finished (worker_results static_get_slice order) = None.
Proof.
  revert finished. induction order as [|i order IH]; intros finished Hk Hf; simpl.
  - destruct (decide _) as [[? ?]|]; [congruence|done].
  - destruct (decide _) as [[? ?]|]; [congruence|].
    apply not_elem_of_cons in Hk as [Hne Hk].
    apply IH; [done|]. by rewrite lookup_insert_ne.
Qed.

(** Before slice [j] is delivered, while slice [k] is missing: all slices
    from [j] up to [k] are pending or still to arrive, and [k] is
    neither. *)
Record stall_inv (k j : nat) (finished : gmap nat Tensor)
    (order : list nat) : Prop := {
  stall_cover : ∀ i, j ≤ i < k → i ∈ order ∨ is_Some (finished !! i);
  stall_missing : k ∉ order ∧ finished !! k = None;
  stall_value : ∀ i t, finished !! i = Some t → t = delivered i;
}.

Lemma retrieve_before_stall k j finished order :
  j < k → stall_inv k j finished order →
  ∃ finished' order',
    retrieve to_torch j finished (worker_results static_get_slice order)
      = Some (finished', worker_results static_get_slice order')
    ∧ finished' !! j = Some (delivered j)
    ∧ stall_inv k j finished' order'.
Proof.
  intros Hj. revert finished.
  induction order as [|i order IH]; intros finished Hinv; simpl.
  - destruct (decide (is_Some (finished !! j))) as [[t Ht]|Hno].
    + exists finished, []. split_and!; try done.
      by rewrite Ht, (stall_value _ _ _ _ Hinv j t Ht).
    + destruct (stall_cover _ _ _ _ Hinv j) as [Hin|?]; [lia| |done].
      by apply elem_of_nil in Hin.
  - destruct (decide (is_Some (finished !! j))) as [[t Ht]|Hno].
    + exists finished, (i :: order). split_and!; try done.
      by rewrite Ht, (stall_value _ _ _ _ Hinv j t Ht).
    + apply IH. destruct Hinv as [Hcov [Hk Hfk] Hval].
      apply not_elem_of_cons in Hk as [Hne Hk]. split.
      * intros i' Hi'. rewrite lookup_insert_is_Some.
        destruct (Hcov i' Hi') as [[->|?]%elem_of_cons|?]; auto.
        destruct (decide (i = i')); auto.
      * split; [done|]. by rewrite lookup_insert_ne.
      * intros i' t. rewrite lookup_insert.
        case_decide; [naive_solver|]. apply Hval.
Qed.

Lemma stall_inv_deliver k j finished order :
  j < k → stall_inv k j finished order →
  stall_inv k (S j) (delete j finished) order.
Proof.
  intros Hj [Hcov [Hk Hfk] Hval]. split.
  - intros i Hi. rewrite lookup_delete_is_Some.
    destruct (Hcov i) as [?|?]; [lia|by left|]. right. split; [lia|done].
  - split; [done|]. rewrite lookup_delete_ne by lia. done.
  - intros i t. rewrite lookup_delete. case_decide; [done|]. apply Hval.
Qed.

Lemma drain_until_stall n k m j finished order fuel :
  j + m = k → k < n → m < fuel → stall_inv k j finished order →
  drain to_torch fuel
    (State j n finished (worker_results static_get_slice order))
  = ((λ i, delivered i) <$> seq j m, Some Blocked).
Proof.
  revert j finished order fuel.
  induction m as [|m IH]; intros j finished order fuel Hjm Hk Hfuel Hinv.
  - destruct fuel as [|fuel]; [lia|]. simpl. unfold next. simpl.
    destruct (decide (j < n)); [|lia].
    assert (j = k) as -> by lia.
    destruct (stall_missing _ _ _ _ Hinv) as [Hko Hkf].
    by rewrite retrieve_never_arrives.
  - destruct fuel as [|fuel]; [lia|]. simpl. unfold next. simpl.
    destruct (decide (j < n)); [|lia].
    destruct (retrieve_before_stall k j finished order)
      as (finished' & order' & -> & Hf & Hinv'); [lia|done|].
    rewrite Hf.
    rewrite (IH (S j) (delete j finished') order' fuel); [done|lia|lia|lia|].
    apply stall_inv_deliver; [lia|done].
Qed.

(** X3.  If the result of slice [k] never arrives (its worker died), while
    those of all earlier slices do, the consumer delivers slices
    [0 .. k-1] in order and then waits for ever on the result queue: the
    call for slice [k] never returns, whatever else has arrived, and the
    results of later slices are never delivered. *)
Theorem iterator_stalls_at_missing_slice (n k : nat) (order : list nat)
    (fuel : nat) :
  k < n → k ∉ order → (∀ i, i < k → i ∈ order) → k < fuel →
  drain to_torch fuel (iter static_get_slice n order)
  = ((λ i, delivered i) <$> seq 0 k, Some Blocked).
Proof.
  intros Hk Hmiss Hbefore Hfuel.
  apply (drain_until_stall n k k 0 ∅ order fuel); [done|done|done|].
  split.
  - intros i Hi. left. apply Hbefore. lia.
  - split; [done|apply lookup_empty].
  - intros i t. by rewrite lookup_empty.
Qed.

End stall.

Lemma iterator_stalls_at_missing_slice_witness :
  drain (λ r : nat, r) 10 (iter (λ k, 10 * k)%nat 5 [4; 1; 0; 3]%nat)
  = ([0; 10]%nat, Some Blocked).
Proof.
  refine (iterator_stalls_at_missing_slice (λ r : nat, r) (λ k, 10 * k)%nat
            5 2 [4; 1; 0; 3]%nat 10 _ _ _ _); [lia| |  |lia].
  - by apply (bool_decide_unpack _).
  - intros [|[|i]] Hi; [by apply (bool_decide_unpack _)..|lia].
Defined.

End GridIteratorRunFacts.

Module WorkersFacts.
Import Workers.
Section workers.
Local Open Scope nat_scope.
Context {Res : Type}.
Variable static_get_slice : nat → Res.

(** Every slice id is in exactly one place: waiting, with a worker, or
    answered; and every answer is the slice of its id. *)
Definition accounted (n : nat) (s : state (Res := Res)) : Prop :=
  slice_id_queue s ++ in_flight s ++ (results s).*1 ≡ₚ seq 0 n
  ∧ results s = GridIterator.worker_results static_get_slice (results s).*1.

Lemma accounted_start n : accounted n (start n).
Proof.
  split; simpl; [by rewrite app_nil_r|done].
Qed.

Lemma accounted_step n s s' :
  accounted n s → step static_get_slice s s' → accounted n s'.
Proof.
  intros [Hperm Hres] Hstep.
  destruct Hstep as [i q fl res|i q before after res]; simpl in *.
  - split; simpl; [|done]. rewrite <- Hperm. solve_Permutation.
  - split; simpl.
    + rewrite <- Hperm. rewrite (fmap_app fst res). simpl. solve_Permutation.
    + rewrite fmap_app. unfold GridIterator.worker_results in *. rewrite fmap_app.
      simpl. by rewrite <- Hres.
Qed.

Lemma accounted_rtc n s s' :
  accounted n s → rtc (step static_get_slice) s s' → accounted n s'.
Proof. intros H Hrtc. induction Hrtc; eauto using accounted_step. Qed.

(** X4.  However the workers interleave, once the work queue is empty and
    every worker has answered, the result queue has received every slice
    exactly once, each with the result of its own id: the order of
    arrival is a permutation of [0 .. num_slices-1].  The consumer then
    delivers all slices in order. *)
Theorem workers_answer_every_slice_once {Tensor : Type}
    (to_torch : Res → Tensor) (n : nat) (s : state (Res := Res)) (fuel : nat) :
  rtc (step static_get_slice) (start n) s → finished s → n < fuel →
  (results s).*1 ≡ₚ seq 0 n
  ∧ results s = GridIterator.worker_results static_get_slice (results s).*1
  ∧ GridIterator.collect to_torch fuel
      (GridIterator.State 0 n ∅ (results s))
    = Some ((λ i, to_torch (static_get_slice i)) <$> seq 0 n,
            GridIterator.State n n ∅ []).
Proof.
  intros Hrun [Hq Hfl] Hfuel.
  destruct (accounted_rtc n _ _ (accounted_start n) Hrun) as [Hperm Hres].
  rewrite Hq, Hfl in Hperm. simpl in Hperm.
  split_and!; [done|done|].
  rewrite Hres.
  apply (GridIteratorFacts.collect_from to_torch static_get_slice n n 0 ∅);
    [done|done|].
  by apply GridIteratorFacts.buffer_inv_iter.
Qed.

End workers.

Lemma two_workers_run :
  rtc (step (λ k, 10 * k)%nat) (start 3)
      (State [] [] [(1, 10); (0, 0); (2, 20)]%nat).
Proof.
  eapply rtc_l; [apply step_get|]. eapply rtc_l; [apply step_get|].
  eapply rtc_l; [apply (step_put _ 1%nat _ [] [0%nat])|]. simpl.
  eapply rtc_l; [apply step_get|].
  eapply rtc_l; [apply (step_put _ 0%nat _ [2%nat] [])|]. simpl.
  eapply rtc_l; [apply (step_put _ 2%nat _ [] [])|]. simpl.
  apply rtc_refl.
Qed.

Lemma workers_answer_every_slice_once_witness :
  GridIterator.collect (λ r : nat, r) 4
    (GridIterator.State 0 3 ∅ [(1, 10); (0, 0); (2, 20)]%nat)
  = Some ([0; 10; 20]%nat, GridIterator.State 3 3 ∅ []).
Proof.
  exact (proj2 (proj2 (workers_answer_every_slice_once (λ k, 10 * k)%nat
                         (λ r : nat, r) 3 _ 4 two_workers_run
                         (conj eq_refl eq_refl) ltac:(lia)))).
Defined.

End WorkersFacts.

Module GridSliceSizes.
Import GridSlice GridSliceFacts.

Lemma length_flat_index (k pc t : Z) :
  Z.of_nat (length (flat_index k pc t))
  = Z.max 0 (Z.min ((k + 1) * pc) t - k * pc).
Proof. unfold flat_index, np_arange. rewrite length_seqZ. lia. Qed.

(** X5.  With [num_slices] slices of a grid of [total] points (fewer than
    [2^53], and an int64 probe count): every slice
    but the last has exactly [probe_count] points, the last one has the
    remaining [total - (num_slices-1)*probe_count] points, between 1 and
    [probe_count]; a slice index from [num_slices] on gives an empty
    slice; and there is no slice at all exactly when the grid is empty. *)
Theorem slice_sizes (probe_count total n : Z) :
  0 < probe_count < 2 ^ 63 → 0 ≤ total < 2 ^ 53 →
  num_slices total probe_count = Ok n →
  (∀ k, 0 ≤ k < n - 1 →
     Z.of_nat (length (flat_index k probe_count total)) = probe_count)
  ∧ (0 < n →
     Z.of_nat (length (flat_index (n - 1) probe_count total))
       = total - (n - 1) * probe_count
     ∧ 0 < total - (n - 1) * probe_count ≤ probe_count)
  ∧ (∀ k, n ≤ k → flat_index k probe_count total = [])
  ∧ (n = 0 ↔ total = 0).
Proof.
  intros [Hpc _] Ht Hn.
  destruct (num_slices_bounds total probe_count Hpc Ht)
    as (n' & Hn' & H0 & Hlo & Hhi).
  assert (n' = n) as -> by congruence.
  split_and!.
  - intros k Hk. rewrite length_flat_index. nia.
  - intros Hpos. rewrite length_flat_index. nia.
  - intros k Hk. apply length_zero_iff_nil.
    apply Nat2Z.inj. rewrite length_flat_index. nia.
  - nia.
Qed.

Lemma slice_sizes_witness :
  Z.of_nat (length (flat_index 2 5 12)) = 12 - (3 - 1) * 5
  ∧ 0 < 12 - (3 - 1) * 5 ≤ 5.
Proof.
  exact (proj1 (proj2 (slice_sizes 5 12 3 ltac:(done) ltac:(done) eq_refl))
           ltac:(lia)).
Defined.

End GridSliceSizes.

Module GraphDictCounts.
Import Numpy Ase Graph Torch GraphDict PyFacts GraphFacts GraphDictFacts.

Lemma or_placeholder_aligned edges features :
  Forall2 (λ e f, width e = 2%nat ∧ length f = length (rows e)) edges features →
  Forall2 (λ e f, width e = 2%nat ∧ length f = length (rows e))
    (or_placeholder edges features).1 (or_placeholder edges features).2.
Proof.
  intros H. destruct H as [|e f edges features He H]; simpl.
  - by repeat constructor.
  - by constructor.
Qed.

Lemma concat_aligned {A B} (es : list (ndarray2 A)) (fs : list (list B)) :
  Forall2 (λ e f, width e = 2%nat ∧ length f = length (rows e)) es fs →
  length (concat fs) = length (concat (rows <$> es)).
Proof.
  induction 1 as [|e f es fs [_ Hl] _ IH]; simpl; [done|].
  by rewrite !length_app, Hl, IH.
Qed.

Lemma probe_rows_are_pairs lib atoms probe_pos c nl edges features :
  probes_to_graph lib atoms probe_pos c nl = Ok (edges, features) →
  Forall (λ row, length row = 2%nat) (concat (rows <$> edges)).
Proof.
  unfold probes_to_graph. intros ([results nums] & _ & H)%bind_ok.
  apply bind_ok in H as (per_probe & Hper & [= <- <-]).
  apply comprehension_Forall2 in Hper.
  apply Forall_concat, Forall_fmap, Forall_fmap. clear -Hper.
  induction Hper as [|[i r] [e f] l l' H _ IH]; constructor; [|done].
  simpl in *. apply probe_edges_of_spec in H as (_ & _ & Hrows).
  apply Forall_forall. intros row Hrow.
  by destruct (Hrows row Hrow) as (a & z & -> & _).
Qed.

(** X6.  When [static_get_slice] returns, its dictionary has exactly the
    four fields probe_edges, probe_edges_features, num_probe_edges and
    num_probes; probe_edges has two columns and probe_edges_features one,
    with the same number of rows, which is the value of num_probe_edges;
    and num_probes is the number of grid points of the slice. *)
Theorem slice_result_fields (lib : libraries) (slice_index : Z) (atoms : Atoms)
    (meshgrid : list vec3) (nx ny nz probe_count : Z) (cutoff : Qc)
    (nl : neighbor_index) (res : gmap string tensor) :
  static_get_slice lib slice_index atoms meshgrid (nx, ny, nz) probe_count
    cutoff nl = Ok res →
  dom res = {[ "probe_edges"; "probe_edges_features";
               "num_probe_edges"; "num_probes" ]}
  ∧ ∃ e f,
      res !! "probe_edges" = Some (T2 e)
      ∧ res !! "probe_edges_features" = Some (T2 f)
      ∧ width e = 2%nat ∧ width f = 1%nat
      ∧ length (rows f) = length (rows e)
      ∧ res !! "num_probe_edges" = Some (count (length (rows e)))
      ∧ res !! "num_probes"
        = Some (count (length (GridSlice.flat_index slice_index probe_count
                                 (GridSlice.np_prod [nx; ny; nz])))).
Proof.
  unfold static_get_slice. intros (pos & Hpos & H)%bind_ok.
  apply bind_ok in H as (probe_pos & Htake & H).
  apply bind_ok in H as ([pe pf] & Hpg & H).
  pose proof (or_placeholder_aligned _ _
                (probes_to_graph_arrays _ _ _ _ _ _ _ Hpg)) as Hal.
  destruct (or_placeholder_arrays _ _ (probes_to_graph_arrays _ _ _ _ _ _ _ Hpg))
    as (Hne1 & Hne2 & Hw & _).
  destruct (or_placeholder pe pf) as [pe' pf']. simpl in *.
  rewrite (concatenate2_ok pe' 2), (concatenate1_ok pf') in H by done.
  cbn [Py.bind] in H. injection H as <-. split.
  - rewrite !dom_insert_L, dom_empty_L. set_solver.
  - eexists _, _. split_and!; [by simplify_map_eq..| | |].
    + simpl. rewrite ?length_map, ?length_fmap. by apply concat_aligned.
    + simplify_map_eq. simpl. by rewrite length_map.
    + by simplify_map_eq.
Qed.

(** X7.  When the training-sample builder returns, its dictionary has
    exactly the ten fields of a graph; num_nodes is the number of atoms and
    the length of nodes, num_probes the number of probes drawn and the
    length of probe_target, num_atom_edges and num_probe_edges the numbers
    of rows of the edge arrays, and the probe features have one row per
    probe edge. *)
Theorem sample_graph_fields (lib : libraries) (density : list Qc)
    (atoms : Atoms) (grid_pos : list vec3) (cutoff : Qc)
    (probe_choice : list nat) (res : gmap string tensor) :
  atoms_and_probe_sample_to_graph_dict lib density atoms grid_pos cutoff
    probe_choice = Ok res →
  dom res = {[ "nodes"; "atom_edges"; "atom_edges_features"; "probe_edges";
               "probe_edges_features"; "probe_target"; "num_nodes";
               "num_atom_edges"; "num_probe_edges"; "num_probes" ]}
  ∧ ∃ ae af pe pf target,
      res !! "nodes" = Some (T1 (IntS <$> numbers atoms))
      ∧ res !! "num_nodes" = Some (count (len atoms))
      ∧ res !! "atom_edges" = Some (T2 ae) ∧ width ae = 2%nat
      ∧ res !! "atom_edges_features" = Some (T2 af) ∧ width af = 1%nat
      ∧ res !! "num_atom_edges" = Some (count (length (rows ae)))
      ∧ res !! "probe_edges" = Some (T2 pe) ∧ width pe = 2%nat
      ∧ res !! "probe_edges_features" = Some (T2 pf) ∧ width pf = 1%nat
      ∧ length (rows pf) = length (rows pe)
      ∧ res !! "num_probe_edges" = Some (count (length (rows pe)))
      ∧ res !! "probe_target" = Some (T1 target)
      ∧ length target = length probe_choice
      ∧ res !! "num_probes" = Some (count (length probe_choice)).
Proof.
  unfold atoms_and_probe_sample_to_graph_dict.
  destruct (decide _) as [|_]; [done|].
  intros (probe_pos & Hpos & H)%bind_ok.
  apply bind_ok in H as (target & Htarget & H).
  apply bind_ok in H as ([[ae af] nl] & Hag & H).
  apply bind_ok in H as ([pe pf] & Hpg & H).
  pose proof (or_placeholder_aligned _ _
                (probes_to_graph_arrays _ _ _ _ _ _ _ Hpg)) as Hal.
  destruct (or_placeholder_arrays _ _ (probes_to_graph_arrays _ _ _ _ _ _ _ Hpg))
    as (Hne1 & Hne2 & Hw & _).
  destruct (or_placeholder pe pf) as [pe' pf']. simpl in *.
  apply bind_ok in H as (cae & Hcae & H).
  apply bind_ok in H as (caf & Hcaf & H).
  rewrite (concatenate2_ok pe' 2), (concatenate1_ok pf') in H by done.
  cbn [Py.bind] in H. injection H as <-.
  destruct (atoms_to_graph_arrays _ _ _ _ _ _ Hag) as (Hlen & _ & Hwa).
  assert (ae ≠ []) as Hae by (intros ->; by simpl in Hcae).
  rewrite (concatenate2_ok ae 2) in Hcae by done. injection Hcae as <-.
  assert (length target = length probe_choice) as Htl.
  { apply take_lookup in Htarget. by rewrite (Forall2_length _ _ _ Htarget). }
  split.
  - rewrite !dom_insert_L, dom_empty_L. set_solver.
  - eexists _, _, _, _, _.
    split_and!; try (by simplify_map_eq); try done.
    + simplify_map_eq. simpl. by rewrite length_map.
    + simpl. rewrite ?length_map, ?length_fmap. by apply concat_aligned.
    + simplify_map_eq. simpl. by rewrite length_map.
    + by rewrite length_fmap.
    + simplify_map_eq. by rewrite Htl.
Qed.

(** X8.  When [atoms_to_graph_dict] returns, its dictionary has exactly
    the five atom fields of a graph: nodes holds the atomic numbers,
    num_nodes their number, atom_edges has two columns and
    atom_edges_features one, and num_atom_edges is the number of rows of
    atom_edges. *)
Theorem atoms_graph_fields (lib : libraries) (atoms : Atoms) (cutoff : Qc)
    (res : gmap string tensor) :
  atoms_to_graph_dict lib atoms cutoff = Ok res →
  dom res = {[ "nodes"; "atom_edges"; "atom_edges_features"; "num_nodes";
               "num_atom_edges" ]}
  ∧ ∃ ae af,
      res !! "nodes" = Some (T1 (IntS <$> numbers atoms))
      ∧ res !! "num_nodes" = Some (count (len atoms))
      ∧ res !! "atom_edges" = Some (T2 ae) ∧ width ae = 2%nat
      ∧ res !! "atom_edges_features" = Some (T2 af) ∧ width af = 1%nat
      ∧ res !! "num_atom_edges" = Some (count (length (rows ae))).
Proof.
  unfold atoms_to_graph_dict.
  intros ([[ae af] nl] & Hag & H)%bind_ok.
  apply bind_ok in H as (cae & Hcae & H).
  apply bind_ok in H as (caf & Hcaf & H).
  injection H as <-.
  destruct (atoms_to_graph_arrays _ _ _ _ _ _ Hag) as (Hlen & _ & Hwa).
  assert (ae ≠ []) as Hae by (intros ->; by simpl in Hcae).
  rewrite (concatenate2_ok ae 2) in Hcae by done. injection Hcae as <-.
  split.
  - rewrite !dom_insert_L, dom_empty_L. set_solver.
  - eexists _, _. split_and!; try (by simplify_map_eq); try done.
    simplify_map_eq. simpl. by rewrite length_map.
Qed.

(** X9.  [atoms_to_graph] returns one edge array and one feature array per
    atom; array [i] has two columns and each of its rows is [[j; i]] for
    an atom index [j] of the structure: edges point at the atom whose
    neighbours were asked for, and never leave the structure. *)
Theorem atom_edges_point_at_their_atom (lib : libraries) (atoms : Atoms)
    (cutoff : Qc) (edges : list (ndarray2 nat)) (features : list (list Qc))
    (nl : neighbor_index) :
  atoms_to_graph lib atoms cutoff = Ok (edges, features, nl) →
  length edges = len atoms ∧ length features = len atoms
  ∧ ∀ i e row, edges !! i = Some e → row ∈ rows e →
      width e = 2%nat
      ∧ ∃ j, row = [j; i] ∧ (j < len atoms)%nat ∧ (i < len atoms)%nat.
Proof.
  intros Hrun.
  destruct (atoms_to_graph_arrays _ _ _ _ _ _ Hrun) as (Hlen & Hlen' & _).
  destruct (atoms_to_graph_per_atom _ _ _ _ _ _ Hrun) as (_ & _ & Hper).
  split_and!; [done|done|].
  intros i e row He Hrow.
  destruct (Hper i) as [[(e' & f & He' & Hf)|(Hnone & _)] Hspec];
    [|congruence].
  assert (e' = e) as -> by congruence.
  destruct (atom_edges_of_spec _ _ _ _ _ _ _ (Hspec e f He Hf))
    as (idx & rel & d2 & _ & Hw & Hrows & _ & Hidx).
  split; [done|]. rewrite Hrows in Hrow.
  apply list_elem_of_fmap in Hrow as (j & -> & Hj).
  exists j. split_and!; [done| |].
  - by eapply Forall_forall in Hidx.
  - rewrite <- Hlen. by eapply lookup_lt_Some.
Qed.

(** X10.  With the periodicity switched off ([set_pbc(False)] on a copy,
    as [CollateFuncRandomSample] and [CollateFuncAtoms] do for
    [disable_pbc]), the choice of index no longer depends on the cutoff:
    the fallback wrapper is built exactly when a lattice vector is at most
    1e-4 long, and the fast index is asked for otherwise.  Atoms and cell
    are those of the original structure. *)
Theorem selection_without_pbc (lib : libraries) (atoms : Atoms) (cutoff : Qc) :
  (fallback_rule lib (without_pbc atoms) cutoff ↔ degenerate_cell lib atoms)
  ∧ (degenerate_cell lib atoms →
     atoms_to_graph_index lib (without_pbc atoms) cutoff
     = Ok (Fallback (wrapper_init lib cutoff (without_pbc atoms))))
  ∧ (¬ degenerate_cell lib atoms →
     atoms_to_graph_index lib (without_pbc atoms) cutoff
     = (f <- asap3_FullNeighborList lib cutoff (without_pbc atoms);
        Ok (Fast f)))
  ∧ numbers (without_pbc atoms) = numbers atoms
  ∧ positions (without_pbc atoms) = positions atoms
  ∧ cell (without_pbc atoms) = cell atoms.
Proof.
  assert (fallback_rule lib (without_pbc atoms) cutoff
          ↔ degenerate_cell lib atoms) as Hiff.
  { unfold fallback_rule, degenerate_cell, periodic. split.
    - intros [H|[Hp _]]; [done|].
      simpl in Hp. by repeat (apply elem_of_cons in Hp as [?|Hp]; [done|]);
        apply elem_of_nil in Hp.
    - by left. }
  split_and!; try done.
  - intros Hd. apply index_fallback. by apply Hiff.
  - intros Hnd. unfold atoms_to_graph_index.
    destruct (_ || _) eqn:Hc; [|done].
    destruct Hnd. apply Hiff. by apply selection_condition.
Qed.

End GraphDictCounts.

Module ReferenceRuns.
Import Numpy Ase Graph Torch GraphDict Reference.
Import PyFacts GraphFacts GraphDictFacts ReferenceFacts GraphDictCounts.
Local Open Scope Qc_scope.

Lemma chain_slice_runs :
  is_ok (static_get_slice lib 0 chain quarter_probe (1, 1, 1)%Z 5
           chain_cutoff NoIndex).
Proof.
  destruct chain_probe_graph as [[pe pf] Hpg].
  unfold static_get_slice.
  assert (GridSlice.pos_index 0 5 (1, 1, 1)%Z = Ok [(0, 0, 0)%Z]) as ->
    by reflexivity.
  cbn [Py.bind].
  assert (take quarter_probe
            ((λ p, Z.to_nat (GridSlice.ravel p (1, 1, 1)%Z))
               <$> [(0, 0, 0)%Z]) = Ok quarter_probe) as -> by reflexivity.
  cbn [Py.bind]. rewrite Hpg. cbn [Py.bind].
  destruct (or_placeholder_arrays _ _
              (probes_to_graph_arrays _ _ _ _ _ _ _ Hpg))
    as (Hne1 & Hne2 & Hw & _).
  destruct (or_placeholder pe pf) as [pe' pf']. simpl in *.
  rewrite (concatenate2_ok pe' 2), (concatenate1_ok pf') by done.
  by eexists.
Qed.

Lemma slice_result_fields_witness :
  ∃ res,
    static_get_slice lib 0 chain quarter_probe (1, 1, 1)%Z 5 chain_cutoff
      NoIndex = Ok res
    ∧ dom res = {[ "probe_edges"; "probe_edges_features";
                   "num_probe_edges"; "num_probes" ]}.
Proof.
  destruct chain_slice_runs as [res Hrun]. exists res. split; [exact Hrun|].
  exact (proj1 (slice_result_fields lib 0 chain quarter_probe 1 1 1 5
                  chain_cutoff NoIndex res Hrun)).
Defined.

Lemma chain_sample_runs :
  is_ok (atoms_and_probe_sample_to_graph_dict lib [Q2Qc 1] chain far_probe
           chain_cutoff [0%nat]).
Proof.
  unfold atoms_and_probe_sample_to_graph_dict.
  destruct (decide _) as [[Hgrid _]|_]; [discriminate Hgrid|].
  assert (take far_probe [0%nat] = Ok far_probe) as -> by reflexivity.
  cbn [take comprehension Py.bind lookup list_lookup].
  rewrite chain_graph. cbn [Py.bind]. rewrite chain_far_probe.
  by eexists.
Qed.

Lemma sample_graph_fields_witness :
  ∃ res,
    atoms_and_probe_sample_to_graph_dict lib [Q2Qc 1] chain far_probe
      chain_cutoff [0%nat] = Ok res
    ∧ res !! "num_nodes" = Some (count 2)
    ∧ res !! "num_probes" = Some (count 1).
Proof.
  destruct chain_sample_runs as [res Hrun]. exists res.
  split; [exact Hrun|].
  destruct (sample_graph_fields lib [Q2Qc 1] chain far_probe chain_cutoff
              [0%nat] res Hrun)
    as (_ & ae & af & pe & pf & target & _ & Hn & H).
  split; [exact Hn|]. apply H.
Defined.

Lemma chain_atoms_dict_runs :
  is_ok (atoms_to_graph_dict lib chain chain_cutoff).
Proof.
  unfold atoms_to_graph_dict. rewrite chain_graph. by eexists.
Qed.

Lemma atoms_graph_fields_witness :
  ∃ res,
    atoms_to_graph_dict lib chain chain_cutoff = Ok res
    ∧ res !! "num_nodes" = Some (count 2).
Proof.
  destruct chain_atoms_dict_runs as [res Hrun]. exists res.
  split; [exact Hrun|].
  destruct (atoms_graph_fields lib chain chain_cutoff res Hrun)
    as (_ & ae & af & _ & Hn & _).
  exact Hn.
Defined.

Lemma atom_edges_point_at_their_atom_witness :
  ∃ edges features nl,
    atoms_to_graph lib chain chain_cutoff = Ok (edges, features, nl)
    ∧ length edges = len chain.
Proof.
  eexists _, _, _. split; [exact chain_graph|].
  exact (proj1 (atom_edges_point_at_their_atom lib chain chain_cutoff _ _ _
                  chain_graph)).
Defined.

End ReferenceRuns.

Module GridPosFacts.
Import Ase GridPos.
Local Open Scope Qc_scope.

Lemma lookup_bind_block {A B} (f : A → list B) (m : nat) (l : list A)
    (i j : nat) :
  (∀ x, length (f x) = m) → (j < m)%nat →
  (l ≫= f) !! (i * m + j)%nat = l !! i ≫= λ x, f x !! j.
Proof.
  intros Hm Hj. revert i.
  induction l as [|a l IH]; intros i; [by destruct i|].
  change ((a :: l) ≫= f) with (f a ++ (l ≫= f)).
  destruct i as [|i]; simpl.
  - rewrite lookup_app_l by (rewrite Hm; lia). by destruct (f a !! j).
  - rewrite lookup_app_r by (rewrite Hm; lia).
    rewrite Hm. replace (m + i * m + j - m)%nat with (i * m + j)%nat by lia.
    apply IH.
Qed.

Lemma length_bind_block {A B} (f : A → list B) (m : nat) (l : list A) :
  (∀ x, length (f x) = m) → length (l ≫= f) = (length l * m)%nat.
Proof.
  intros Hm. induction l as [|a l IH]; [done|].
  change ((a :: l) ≫= f) with (f a ++ (l ≫= f)).
  rewrite length_app, Hm, IH. simpl. lia.
Qed.

Lemma length_fractions n : length (fractions n) = n.
Proof. unfold fractions. by rewrite length_fmap, length_seq. Qed.

Lemma lookup_fractions n i :
  (i < n)%nat →
  fractions n !! i = Some (Qc_of_Z (Z.of_nat i) / Qc_of_Z (Z.of_nat n)).
Proof.
  intros Hi. unfold fractions. rewrite list_lookup_fmap.
  by rewrite lookup_seq_lt.
Qed.

(** X11.  [_calculate_grid_pos] gives one position per grid point, in
    row-major order: the position of the grid point [(x, y, z)] is entry
    [(x*ny + y)*nz + z], and it is (in exact arithmetic) the origin plus
    [x/nx], [y/ny] and [z/nz] of the three lattice vectors. *)
Theorem grid_positions_row_major (nx ny nz : nat) (origin : vec3)
    (cell : vec3 * vec3 * vec3) :
  length (calculate_grid_pos (nx, ny, nz) origin cell) = (nx * ny * nz)%nat
  ∧ ∀ x y z, (x < nx)%nat → (y < ny)%nat → (z < nz)%nat →
      calculate_grid_pos (nx, ny, nz) origin cell
        !! ((x * ny + y) * nz + z)%nat
      = Some (vadd (dot_cell (Qc_of_Z (Z.of_nat x) / Qc_of_Z (Z.of_nat nx),
                              Qc_of_Z (Z.of_nat y) / Qc_of_Z (Z.of_nat ny),
                              Qc_of_Z (Z.of_nat z) / Qc_of_Z (Z.of_nat nz))
                      cell) origin).
Proof.
  unfold calculate_grid_pos, meshgrid_ij.
  assert (∀ (x y : Qc),
            length (fractions nz ≫= λ z, [(x, y, z)]) = nz) as Hz.
  { intros x y. rewrite (length_bind_block _ 1) by done.
    rewrite length_fractions. lia. }
  assert (∀ x : Qc,
            length (fractions ny ≫= λ y, fractions nz ≫= λ z, [(x, y, z)])
            = (ny * nz)%nat) as Hy.
  { intros x. rewrite (length_bind_block _ nz) by (intros; apply Hz).
    by rewrite length_fractions. }
  split.
  - rewrite length_fmap, (length_bind_block _ (ny * nz)) by done.
    rewrite length_fractions. lia.
  - intros x y z Hx Hy' Hz'. rewrite list_lookup_fmap.
    replace ((x * ny + y) * nz + z)%nat
      with (x * (ny * nz) + (y * nz + z))%nat by lia.
    rewrite (lookup_bind_block _ (ny * nz)) by (done || nia).
    rewrite lookup_fractions by done. simpl.
    rewrite (lookup_bind_block _ nz) by (intros; apply Hz || done).
    rewrite lookup_fractions by done. simpl.
    replace z with (z * 1 + 0)%nat at 1 by lia.
    rewrite (lookup_bind_block _ 1) by (done || lia).
    rewrite lookup_fractions by done. done.
Qed.

End GridPosFacts.

Module MembersFacts.
Import Members PyFacts.

Lemma prefix_app (p q s : string) :
  String.prefix (p ++ q) s = true → String.prefix p s = true.
Proof.
  revert s. induction p as [|a p IH]; intros s; [by destruct s|].
  destruct s as [|b s]; simpl; [done|].
  destruct (Ascii.ascii_dec a b); [apply IH|done].
Qed.

Lemma prefix_head (a b : Ascii.ascii) (p q s : string) :
  String.prefix (String a p) s = true → String.prefix (String b q) s = true →
  a = b.
Proof.
  destruct s as [|c s]; simpl; [done|].
  destruct (Ascii.ascii_dec a c), (Ascii.ascii_dec b c); congruence.
Qed.

Lemma prefix_second (a b c : Ascii.ascii) (p q s : string) :
  String.prefix (String a (String b p)) s = true →
  String.prefix (String a (String c q)) s = true → b = c.
Proof.
  destruct s as [|d s]; simpl; [done|].
  destruct (Ascii.ascii_dec a d); [|done]. apply prefix_head.
Qed.

Lemma cube_zz_is_zz name :
  endswith name ".cube.zz" = true → endswith name ".zz" = true.
Proof. unfold endswith. apply (prefix_app "zz." "ebuc."). Qed.

Lemma cube_lz4_is_lz4 name :
  endswith name "cube.lz4" = true → endswith name ".lz4" = true.
Proof. unfold endswith. apply (prefix_app "4zl." "ebuc"). Qed.

Lemma lz4_not_zz name :
  endswith name ".lz4" = true → endswith name ".zz" = false.
Proof.
  unfold endswith. intros H. apply not_true_is_false. intros H'.
  by pose proof (prefix_head _ _ _ _ _ H H').
Qed.

Lemma cube_not_zz name :
  endswith name ".cube" = true → endswith name ".zz" = false.
Proof.
  unfold endswith. intros H. apply not_true_is_false. intros H'.
  by pose proof (prefix_head _ _ _ _ _ H H').
Qed.

Lemma cube_not_lz4 name :
  endswith name ".cube" = true → endswith name ".lz4" = false.
Proof.
  unfold endswith. intros H. apply not_true_is_false. intros H'.
  by pose proof (prefix_head _ _ _ _ _ H H').
Qed.

(** X12.  What [extract_member] does with a member, by its name: a name
    ending in [.cube] is read as a cube file as stored, one ending in
    [.cube.zz] after zlib, one ending in [cube.lz4] after lz4; every
    other name goes to the VASP reader, after zlib for [.zz], after lz4
    for [.lz4], and as stored otherwise.  The three cube suffixes exclude
    one another, so the six cases do not overlap. *)
Theorem member_dispatch {Bytes Content} (lib : formats Bytes Content)
    (name : string) (bytesobj : Bytes) :
  (endswith name ".cube" = true →
     read_member lib name bytesobj = read_cube lib bytesobj)
  ∧ (endswith name ".cube.zz" = true →
     read_member lib name bytesobj
     = (c <- zlib_decompress lib bytesobj; read_cube lib c))
  ∧ (endswith name "cube.lz4" = true →
     read_member lib name bytesobj
     = (c <- lz4_decompress lib bytesobj; read_cube lib c))
  ∧ (member_reader name = Vasp →
     read_member lib name bytesobj
     = if endswith name ".zz"
       then c <- zlib_decompress lib bytesobj; read_vasp lib c
       else if endswith name ".lz4"
       then c <- lz4_decompress lib bytesobj; read_vasp lib c
       else read_vasp lib bytesobj)
  ∧ (member_reader name = Cube ↔
     endswith name ".cube" = true ∨ endswith name ".cube.zz" = true
     ∨ endswith name "cube.lz4" = true).
Proof.
  unfold read_member, decompress, decompress_codec, member_reader.
  split_and!.
  - intros H. by rewrite (cube_not_zz _ H), (cube_not_lz4 _ H), H.
  - intros H. rewrite (cube_zz_is_zz _ H), H.
    by rewrite orb_true_r.
  - intros H.
    rewrite (lz4_not_zz _ (cube_lz4_is_lz4 _ H)), (cube_lz4_is_lz4 _ H), H.
    by rewrite orb_true_r.
  - destruct (_ || _ || _); [done|]. intros _.
    by destruct (endswith name ".zz"), (endswith name ".lz4").
  - destruct (endswith name ".cube"), (endswith name ".cube.zz"),
      (endswith name "cube.lz4"); simpl; naive_solver.
Qed.

End MembersFacts.

Module AverageMeterFacts.
Import AverageMeter.

Section MeterFacts.
Context {F : Type}.
Variable zero : F.
Variables add mul div : F → F → F.
Variable is_zero : F → bool.

Notation update := (update add mul div is_zero).
Notation updates := (updates add mul div is_zero).
Notation weighted_total := (weighted_total add mul).
Notation total_weight := (total_weight add).

(** What a run of [update] calls leaves in the meter, from any meter
    [m0]: without a raise, the totals, the quotient and the last value;
    with a raise at call [k], the totals up to and including call [k] and
    the quotient of the call before. *)
Lemma updates_spec (calls : list (F * F)) (m0 : meter F) :
  match updates m0 calls with
  | (m, false) =>
      sum m = weighted_total calls (sum m0)
      ∧ count m = total_weight calls (count m0)
      ∧ (∀ j, (0 < j ≤ length calls)%nat →
           is_zero (total_weight (take j calls) (count m0)) = false)
      ∧ (calls = [] → m = m0)
      ∧ (calls ≠ [] →
           avg m = div (sum m) (count m) ∧ last (calls.*1) = Some (val m))
  | (m, true) =>
      ∃ k v n,
        calls !! k = Some (v, n)
        ∧ (∀ j, (0 < j ≤ k)%nat →
             is_zero (total_weight (take j calls) (count m0)) = false)
        ∧ is_zero (total_weight (take (S k) calls) (count m0)) = true
        ∧ val m = v
        ∧ sum m = weighted_total (take (S k) calls) (sum m0)
        ∧ count m = total_weight (take (S k) calls) (count m0)
        ∧ avg m = match k with
                  | O => avg m0
                  | S _ => div (weighted_total (take k calls) (sum m0))
                             (total_weight (take k calls) (count m0))
                  end
  end.
Proof.
  revert m0. induction calls as [|[v n] calls IH]; intros m0.
  - simpl. split_and!; try done. intros j Hj. simpl in Hj. lia.
  - simpl. unfold update.
    destruct (is_zero (add (count m0) n)) eqn:Hz.
    + exists 0%nat, v, n. split_and!; try done. intros j Hj. lia.
    + specialize (IH {| val := v;
                        avg := div (add (sum m0) (mul v n)) (add (count m0) n);
                        sum := add (sum m0) (mul v n);
                        count := add (count m0) n |}).
      destruct (updates _ calls) as [m [|]]; simpl in IH.
      * destruct IH as (k & v' & n' & Hk & Hbefore & Hat & Hv & Hs & Hc & Ha).
        exists (S k), v', n'. split_and!; try done.
        -- intros [|j] Hj; [lia|]. simpl.
           destruct j as [|j]; [by rewrite take_0|].
           apply Hbefore. lia.
        -- rewrite Ha. by destruct k as [|k]; simpl; rewrite ?take_0.
      * destruct IH as (Hs & Hc & Hbefore & Hnil & Hcons).
        split_and!; try done.
        -- intros [|j] Hj; [lia|]. simpl.
           destruct j as [|j]; [by rewrite take_0|].
           apply Hbefore. simpl in Hj. lia.
        -- intros _. destruct calls as [|c calls].
           ++ by rewrite (Hnil eq_refl).
           ++ destruct (Hcons ltac:(done)) as [Ha Hl]. split; [done|].
              rewrite fmap_cons, last_cons. rewrite fmap_cons in Hl.
              by rewrite Hl.
Qed.

(** X13.  A meter that is reset and then updated with values and weights
    whose running weight is never zero does not raise; it then holds the
    sum of the weighted values and the sum of the weights, both added up
    from the left, and, after at least one update, their quotient in
    [avg] and the last value in [val]. *)
Theorem meter_holds_weighted_mean (calls : list (F * F)) :
  (∀ j, (0 < j ≤ length calls)%nat →
     is_zero (total_weight (take j calls) zero) = false) →
  ∃ m,
    updates (reset zero) calls = (m, false)
    ∧ sum m = weighted_total calls zero
    ∧ count m = total_weight calls zero
    ∧ (calls ≠ [] →
         avg m = div (weighted_total calls zero) (total_weight calls zero)
         ∧ last (calls.*1) = Some (val m)).
Proof.
  intros Hnz. pose proof (updates_spec calls (reset zero)) as H.
  destruct (updates (reset zero) calls) as [m [|]].
  - destruct H as (k & v & n & Hk & _ & Hat & _). simpl in Hat.
    apply lookup_lt_Some in Hk.
    rewrite Hnz in Hat by lia. discriminate Hat.
  - destruct H as (Hs & Hc & _ & _ & Hcons). simpl in Hs, Hc.
    exists m. split_and!; try done.
    intros Hne. destruct (Hcons Hne) as [Ha Hl]. by rewrite <- Hs, <- Hc.
Qed.

(** X14.  When a run of updates of a reset meter raises
    [ZeroDivisionError], it does so at the first call [k] at which the
    running weight is zero; the meter then already holds the value of
    call [k] and the totals including call [k], while [avg] is still the
    quotient of the totals before call [k] (zero if [k] is the first
    call). *)
Theorem meter_division_by_zero (calls : list (F * F)) (m : meter F) :
  updates (reset zero) calls = (m, true) →
  ∃ k v n,
    calls !! k = Some (v, n)
    ∧ (∀ j, (0 < j ≤ k)%nat →
         is_zero (total_weight (take j calls) zero) = false)
    ∧ is_zero (total_weight (take (S k) calls) zero) = true
    ∧ val m = v
    ∧ sum m = weighted_total (take (S k) calls) zero
    ∧ count m = total_weight (take (S k) calls) zero
    ∧ avg m = match k with
              | O => zero
              | S _ => div (weighted_total (take k calls) zero)
                         (total_weight (take k calls) zero)
              end.
Proof.
  intros Hrun. pose proof (updates_spec calls (reset zero)) as H.
  by rewrite Hrun in H.
Qed.

End MeterFacts.

(** The meter on exact rationals, as in the timers of [main]: each call
    has weight 1. *)
Definition Qc_is_zero (x : Qc) : bool := bool_decide (x = Q2Qc 0).

Definition timings : list (Qc * Qc) :=
  [(Q2Qc (1 # 2), Q2Qc 1); (Q2Qc (3 # 2), Q2Qc 1)].

Lemma meter_holds_weighted_mean_witness :
  ∃ m,
    updates Qcplus Qcmult Qcdiv Qc_is_zero
      (reset (Q2Qc 0)) timings = (m, false)
    ∧ sum m = weighted_total Qcplus Qcmult timings (Q2Qc 0)
    ∧ count m = total_weight Qcplus timings (Q2Qc 0).
Proof.
  destruct (meter_holds_weighted_mean (Q2Qc 0) Qcplus Qcmult Qcdiv Qc_is_zero
              timings) as (m & Hrun & Hs & Hc & _).
  - intros [|[|[|j]]] Hj; simpl in Hj; try lia; by vm_compute.
  - by exists m.
Defined.

Definition zero_weights : list (Qc * Qc) :=
  [(Q2Qc (1 # 2), Q2Qc 1); (Q2Qc 2, Q2Qc (-1))].

Lemma zero_weights_raise :
  ∃ m, updates Qcplus Qcmult Qcdiv Qc_is_zero
         (reset (Q2Qc 0)) zero_weights = (m, true).
Proof.
  destruct (updates _ _ _ _ _ zero_weights) as [m [|]] eqn:Hrun;
    [by exists m|by vm_compute in Hrun].
Qed.

Lemma meter_division_by_zero_witness :
  ∃ m k v n,
    updates Qcplus Qcmult Qcdiv Qc_is_zero
      (reset (Q2Qc 0)) zero_weights = (m, true)
    ∧ zero_weights !! k = Some (v, n) ∧ val m = v.
Proof.
  destruct zero_weights_raise as [m Hrun].
  destruct (meter_division_by_zero (Q2Qc 0) Qcplus Qcmult Qcdiv Qc_is_zero
              zero_weights m Hrun) as (k & v & n & Hk & _ & _ & Hv & _).
  by exists m, k, v, n.
Defined.

End AverageMeterFacts.

Module SplitDataFacts.
Import RotatingPool SplitData FloatFacts PyFacts.

Lemma num_validation_formula (n : nat) :
  (Z.of_nat n < 2 ^ 53)%Z → num_validation n = ((n + 19) / 20)%nat.
Proof.
  intros Hn. unfold num_validation.
  rewrite ceil_times_0_05 by lia.
  rewrite <- (Nat2Z.id ((n + 19) / 20)). f_equal.
  rewrite Nat2Z.inj_div. f_equal. lia.
Qed.

Lemma twentieth_le (n : nat) : ((n + 19) / 20 ≤ n)%nat.
Proof.
  destruct n as [|n]; [done|].
  apply Nat.Div0.div_le_upper_bound. lia.
Qed.

(** X15.  [int(math.ceil(datalen * 0.05))], computed in doubles, is
    [datalen / 20] rounded up, for every length below [2^53]: neither the
    rounding of the constant [0.05] nor that of the product moves it.  So
    the validation set is never larger than the dataset and is empty only
    for the empty dataset. *)
Theorem validation_size_is_a_twentieth (datalen : nat) :
  (Z.of_nat datalen < 2 ^ 53)%Z →
  num_validation datalen = ((datalen + 19) / 20)%nat
  ∧ (num_validation datalen ≤ datalen)%nat
  ∧ (num_validation datalen = 0%nat ↔ datalen = 0%nat).
Proof.
  intros Hn. rewrite (num_validation_formula _ Hn).
  split_and!; [done|apply twentieth_le|]. split.
  - intros H. destruct datalen as [|n]; [done|].
    apply Nat.div_small_iff in H; lia.
  - by intros ->.
Qed.

Lemma validation_size_is_a_twentieth_witness :
  num_validation 21 = 2%nat.
Proof.
  exact (proj1 (validation_size_is_a_twentieth 21 ltac:(done))).
Defined.

Section Split.
Context {Sample : Type}.
Variable ds : dataset (Sample := Sample).

Lemma subset_getitem (indices : list nat) (k j : nat) :
  indices !! k = Some j →
  ds_getitem (subset ds indices) k = ds_getitem ds j.
Proof. intros H. simpl. by rewrite H. Qed.

(** What [split_data] returns for a permutation of the dataset's
    indices. *)
Lemma splits_spec (indices : list nat) :
  rng_permutation (ds_len ds) indices →
  (Z.of_nat (ds_len ds) < 2 ^ 53)%Z →
  ∀ train validation, splits indices = (train, validation) →
    validation ++ train = indices
    ∧ length validation = ((ds_len ds + 19) / 20)%nat
    ∧ length train = (ds_len ds - (ds_len ds + 19) / 20)%nat
    ∧ NoDup (validation ++ train)
    ∧ ∀ j, (j < ds_len ds)%nat ↔ j ∈ validation ++ train.
Proof.
  unfold rng_permutation. intros Hperm Hn train validation [= <- <-].
  assert (length indices = ds_len ds) as Hlen
    by (by rewrite Hperm, length_seq).
  rewrite Hlen, (num_validation_formula _ Hn).
  pose proof (twentieth_le (ds_len ds)).
  rewrite take_drop, length_take, length_drop, Hlen.
  split_and!; try done; try lia.
  - rewrite Hperm. apply NoDup_seq.
  - intros j. rewrite Hperm, elem_of_seq. lia.
Qed.

(** X16.  Without a split file, [split_data] cuts a random permutation
    of the dataset's indices in two: the first [ceil(len/20)] indices are
    the validation set, the rest the training set.  Every item of the
    dataset is in exactly one of the two subsets and at one position of
    it, and each subset serves at position [k] the dataset item whose
    index it holds there; so the training subset never serves an item of
    the validation subset. *)
Theorem split_data_partitions (indices train validation : list nat) :
  rng_permutation (ds_len ds) indices →
  (Z.of_nat (ds_len ds) < 2 ^ 53)%Z →
  splits indices = (train, validation) →
  validation ++ train = indices
  ∧ ds_len (subset ds validation) = ((ds_len ds + 19) / 20)%nat
  ∧ ds_len (subset ds train)
    = (ds_len ds - (ds_len ds + 19) / 20)%nat
  ∧ NoDup train ∧ NoDup validation
  ∧ (∀ j, (j < ds_len ds)%nat →
       (j ∈ train ∧ j ∉ validation) ∨ (j ∈ validation ∧ j ∉ train))
  ∧ (∀ k, (k < ds_len (subset ds train))%nat →
       ∃ j, train !! k = Some j ∧ (j < ds_len ds)%nat ∧ j ∉ validation
            ∧ ds_getitem (subset ds train) k = ds_getitem ds j)
  ∧ (∀ k, (k < ds_len (subset ds validation))%nat →
       ∃ j, validation !! k = Some j ∧ (j < ds_len ds)%nat ∧ j ∉ train
            ∧ ds_getitem (subset ds validation) k = ds_getitem ds j).
Proof.
  intros Hperm Hn Hsplit.
  destruct (splits_spec indices Hperm Hn train validation Hsplit)
    as (Happ & Hlv & Hlt & Hnd & Hall).
  apply NoDup_app in Hnd as (Hndv & Hdisj & Hndt).
  split_and!; try done.
  - intros j Hj. apply Hall, elem_of_app in Hj as [Hj|Hj].
    + right. split; [done|]. by apply Hdisj.
    + left. split; [done|]. intros Hj'. by apply (Hdisj j).
  - intros k Hk. simpl in Hk.
    destruct (lookup_lt_is_Some_2 train k Hk) as [j Hj].
    pose proof (list_elem_of_lookup_2 _ _ _ Hj) as Hin.
    exists j. split_and!; [done| | |by apply subset_getitem].
    + apply Hall, elem_of_app. by right.
    + intros Hj'. by apply (Hdisj j).
  - intros k Hk. simpl in Hk.
    destruct (lookup_lt_is_Some_2 validation k Hk) as [j Hj].
    pose proof (list_elem_of_lookup_2 _ _ _ Hj) as Hin.
    exists j. split_and!; [done| | |by apply subset_getitem].
    + apply Hall, elem_of_app. by left.
    + by apply Hdisj.
Qed.


End Split.

Lemma split_data_partitions_witness :
  [1%nat] ++ [0; 2]%nat = [1; 0; 2]%nat
  ∧ ds_len (subset RotatingPoolFacts.example_dataset [1%nat]) = 1%nat.
Proof.
  assert (rng_permutation (ds_len RotatingPoolFacts.example_dataset)
            [1; 0; 2]%nat) as Hperm.
  { unfold rng_permutation. simpl. by apply (bool_decide_unpack _). }
  destruct (split_data_partitions RotatingPoolFacts.example_dataset
              [1; 0; 2]%nat [0; 2]%nat [1%nat] Hperm ltac:(done) eq_refl)
    as (Happ & Hlen & _).
  split; [exact Happ|exact Hlen].
Defined.


End SplitDataFacts.
